(** * postgresql_exporter: the metric-collection engine

    A shallow embedding of the collection core of the exporter
    (packages [config], [db] and [pgcollector]) and the proofs of its
    specified properties.

    The sources hold two revisions of the engine.  The older one talks to
    the server through database/sql with lib/pq and carries the detected
    server version inside every job; the newer one talks through pgx and
    asks the connection for its version.  Where the two differ the
    definitions below take the revision as an argument ([Revision]) or live
    in the modules [pq] and [pgx]. *)

From Stdlib Require Import ZArith String Ascii List Floats Lia.
From stdpp Require Import gmap strings list fin_maps pretty.

Local Open Scope string_scope.
Local Open Scope Z_scope.
Local Open Scope list_scope.

(** The two revisions of the engine found in the sources. *)
Inductive Revision := RevPq | RevPgx.

(* ===================================================================== *)
(** * Package config (pkg/config/helpers.go)                              *)
(* ===================================================================== *)

Module config.

(** Column usage types ([iota] constants 0..3). *)
Inductive ColumnUsage := Discard | Label | Counter | Gauge.

#[global] Instance ColumnUsage_eq_dec : EqDecision ColumnUsage.
Proof. solve_decision. Defined.

(** [type PgVersion int]: a version in server_version_num format.  Only
    comparisons are made on it, so the integer is kept as a [Z]. *)
Definition PgVersion := Z.

Definition NoVersion : PgVersion := (-1)%Z.

(** [type Metric struct]; the zero value is what a lookup of a missing key
    in [Metrics] yields. *)
Record Metric := { Usage : ColumnUsage; Description : string }.

Definition zeroMetric : Metric := {| Usage := Discard; Description := "" |}.

Record VerSQL := { SQL : string; MinVer : PgVersion; MaxVer : PgVersion }.

Definition VerSQLs := list VerSQL.

(** [type Query struct].  The field the source calls [VerSQL] is [QVerSQL]
    here, the name being taken by the record of the same name. *)
Record Query := {
  Name : string;
  Metrics : gmap string Metric;
  QVerSQL : VerSQLs;
  NameColumn : string;
  ValueColumn : string
}.

(** The test of the [for] loop of [VerSQLs.Query]:
    [(version >= query.MinVer || query.MinVer == 0) &&
     (version < query.MaxVer || query.MaxVer == 0)]. *)
Definition inRange (version : PgVersion) (query : VerSQL) : bool :=
  ((MinVer query <=? version)%Z || (MinVer query =? 0)%Z) &&
  ((version <? MaxVer query)%Z || (MaxVer query =? 0)%Z).

(** The [for _, query := range v] loop with its fall-through [return ""]. *)
Fixpoint rangeLoop (v : VerSQLs) (version : PgVersion) : string :=
  match v with
  | [] => ""
  | query :: rest =>
      if inRange version query then SQL query else rangeLoop rest version
  end.

(** [func (v VerSQLs) Query(version PgVersion) string].  [None] is the
    run-time panic of indexing [v[0]] out of range.  The guard is evaluated
    left to right with Go's short-circuit: [v[0]] is read inside the guard
    only once [len(v) == 1] holds. *)
Definition VerSQLs_Query (v : VerSQLs) (version : PgVersion) : option string :=
  guard_holds ←
    (if (version =? NoVersion)%Z then Some true
     else if (length v =? 1)%nat
          then q ← v !! 0%nat;
               Some ((MaxVer q =? 0)%Z && (MinVer q =? 0)%Z)
          else Some false);
  if (guard_holds : bool) then SQL <$> v !! 0%nat
  else Some (rangeLoop v version).

(** The range policy as a proposition. *)
Definition InRange (V : PgVersion) (e : VerSQL) : Prop :=
  ((V >= MinVer e)%Z ∨ MinVer e = 0%Z) ∧ ((V < MaxVer e)%Z ∨ MaxVer e = 0%Z).

(** The two-variant example of the specification. *)
Definition exampleVariants : VerSQLs :=
  [ {| SQL := "A"; MinVer := 100000; MaxVer := 0 |};
    {| SQL := "B"; MinVer := 90400; MaxVer := 100000 |} ].

End config.

(* ===================================================================== *)
(** * Properties of the version resolver                                  *)
(* ===================================================================== *)

Module config_facts.
Import config.

Lemma inRange_spec V e : inRange V e = true ↔ InRange V e.
Proof.
  unfold inRange, InRange.
  rewrite andb_true_iff, !orb_true_iff, Z.leb_le, Z.ltb_lt, !Z.eqb_eq.
  split; intros [[?|?] [?|?]]; split; auto; left; lia.
Qed.

Lemma inRange_false V e : inRange V e = false ↔ ¬ InRange V e.
Proof.
  rewrite <- inRange_spec. destruct (inRange V e); split; auto; try discriminate.
  intros H; exfalso; apply H; trivial.
Qed.

(** The loop returns the text of the first variant in range. *)
Lemma rangeLoop_first V pre e post :
  Forall (λ p, ¬ InRange V p) pre → InRange V e →
  rangeLoop (pre ++ e :: post) V = SQL e.
Proof.
  intros Hpre He. induction Hpre as [|p pre Hp _ IH]; simpl.
  - apply inRange_spec in He. now rewrite He.
  - apply inRange_false in Hp. now rewrite Hp.
Qed.

(** The loop falls through to the empty text when no variant is in range. *)
Lemma rangeLoop_none V v :
  Forall (λ p, ¬ InRange V p) v → rangeLoop v V = "".
Proof.
  induction 1 as [|p v Hp _ IH]; simpl; [reflexivity|].
  apply inRange_false in Hp. now rewrite Hp.
Qed.

(** With a detected version, the guard holds only for a sole unbounded
    variant, and the loop then returns that variant's text too. *)
Lemma Query_detected v V :
  V ≠ NoVersion → VerSQLs_Query v V = Some (rangeLoop v V).
Proof.
  intros HV. unfold VerSQLs_Query.
  apply Z.eqb_neq in HV. rewrite HV.
  destruct v as [|q [|q' v]]; simpl; try reflexivity.
  destruct (Z.eqb_spec (MaxVer q) 0) as [Hmax|Hmax]; simpl;
    [destruct (Z.eqb_spec (MinVer q) 0) as [Hmin|Hmin]; simpl|]; try reflexivity.
  unfold inRange. rewrite Hmax, Hmin. simpl. now rewrite !orb_true_r.
Qed.

(** C1: with a detected version the resolver returns the text of the first
    variant, in list order, whose range [(V >= min or min == 0) and
    (V < max or max == 0)] contains it; with the NoVersion sentinel it
    returns the first variant's text whatever its bounds; a sole variant
    with both bounds zero is returned for every version; when no variant
    of several is in range the result is the empty string.  On the
    variants [min=100000,max=0]:"A", [min=90400,max=100000]:"B" the
    versions 90500, 100500 and 80000 resolve to "B", "A" and "". *)
Theorem Query_resolves :
  (∀ (pre : VerSQLs) e (post : VerSQLs) V,
     V ≠ NoVersion →
     Forall (λ p, ¬ InRange V p) pre → InRange V e →
     VerSQLs_Query (pre ++ e :: post) V = Some (SQL e)) ∧
  (∀ e (rest : VerSQLs), VerSQLs_Query (e :: rest) NoVersion = Some (SQL e)) ∧
  (∀ e V, MinVer e = 0%Z → MaxVer e = 0%Z →
     VerSQLs_Query [e] V = Some (SQL e)) ∧
  (∀ (v : VerSQLs) V,
     V ≠ NoVersion → (1 < length v)%nat →
     Forall (λ p, ¬ InRange V p) v →
     VerSQLs_Query v V = Some "") ∧
  VerSQLs_Query exampleVariants 90500 = Some "B" ∧
  VerSQLs_Query exampleVariants 100500 = Some "A" ∧
  VerSQLs_Query exampleVariants 80000 = Some "".
Proof.
  split_and!; try reflexivity.
  - intros pre e post V HV Hpre He.
    rewrite Query_detected by assumption. f_equal.
    now apply rangeLoop_first.
  - intros e V Hmin Hmax. unfold VerSQLs_Query. simpl.
    rewrite Hmin, Hmax. simpl. now destruct (V =? NoVersion)%Z.
  - intros v V HV _ Hnone.
    rewrite Query_detected by assumption. f_equal.
    now apply rangeLoop_none.
Qed.

Lemma Query_resolves_witness :
  VerSQLs_Query exampleVariants 90500 = Some "B" ∧
  VerSQLs_Query [ {| SQL := "S"; MinVer := 0; MaxVer := 0 |} ] 90500 = Some "S" ∧
  VerSQLs_Query exampleVariants 80000 = Some "".
Proof.
  destruct Query_resolves as (Hfirst & _ & Hsole & Hnone & _).
  split; [|split].
  - apply (Hfirst [ {| SQL := "A"; MinVer := 100000; MaxVer := 0 |} ]
                  {| SQL := "B"; MinVer := 90400; MaxVer := 100000 |} [] 90500%Z).
    + unfold NoVersion; lia.
    + constructor; [|constructor]. unfold InRange; simpl; lia.
    + unfold InRange; simpl; lia.
  - apply Hsole; reflexivity.
  - apply Hnone.
    + unfold NoVersion; lia.
    + simpl; lia.
    + repeat constructor; unfold InRange; simpl; lia.
Defined.

(** C9: on the empty variant list the resolver returns the empty string
    for every version other than NoVersion, and for NoVersion it indexes
    the first element of the empty list, which panics. *)
Theorem Query_empty_list :
  (∀ V, V ≠ NoVersion → VerSQLs_Query [] V = Some "") ∧
  VerSQLs_Query [] NoVersion = None.
Proof.
  split; [|reflexivity].
  intros V HV. now rewrite Query_detected.
Qed.

Lemma Query_empty_list_witness : VerSQLs_Query [] 90500 = Some "".
Proof.
  apply (proj1 Query_empty_list). unfold NoVersion. lia.
Defined.

End config_facts.

(* ===================================================================== *)
(** * Go values and the run-time library                                  *)
(* ===================================================================== *)

(** Go [error] values, by what the engine can observe of them: identity
    with the package's sentinel, the dynamic type tested by a type
    assertion, and the text of [Error()]. *)
Inductive error :=
| ErrQueryTimeout
    (* db.ErrQueryTimeout = errors.New("canceled due to statement timeout") *)
| PgError (Code Message text : string)
    (* a server error, [*pq.Error] or [pgx.PgError]; [text] is its Error() *)
| ErrorString (text : string).
    (* every other error, those built by fmt.Errorf among them *)

#[global] Instance error_eq_dec : EqDecision error.
Proof. solve_decision. Defined.

Definition Error (e : error) : string :=
  match e with
  | ErrQueryTimeout => "canceled due to statement timeout"
  | PgError _ _ text => text
  | ErrorString text => text
  end.

(** [fmt.Errorf(prefix + "%v", err)]. *)
Definition Errorf (pre : string) (err : error) : error :=
  ErrorString (pre +:+ Error err).

(** The integer types a column value can have. *)
Inductive IntKind :=
  Int | Int8 | Int16 | Int32 | Int64 | Uint | Uint8 | Uint16 | Uint32 | Uint64.

(** The dynamic values ([interface{}]) a row can hold.  A time is kept by
    the result of its [Unix()] method, a [*pgtype.Numeric] by what
    [AssignTo(&res)] stores and returns, and a value of any other type by
    the name of its type ([%T]); [str] is the result of [String()] for a
    type that implements [fmt.Stringer]. *)
Inductive Value :=
| VNil
| VInt (k : IntKind) (n : Z)
| VFloat64 (f : float)
| VTime (unix : Z)
| VBool (b : bool)
| VBytes (s : string)
| VString (s : string)
| VNumeric (res : float) (err : option error) (str : option string)
| VOther (T : string) (str : option string).

(** [%T] of a value. *)
Definition typeName (t : Value) : string :=
  match t with
  | VNil => "<nil>"
  | VInt Int _ => "int" | VInt Int8 _ => "int8" | VInt Int16 _ => "int16"
  | VInt Int32 _ => "int32" | VInt Int64 _ => "int64"
  | VInt Uint _ => "uint" | VInt Uint8 _ => "uint8" | VInt Uint16 _ => "uint16"
  | VInt Uint32 _ => "uint32" | VInt Uint64 _ => "uint64"
  | VFloat64 _ => "float64"
  | VTime _ => "time.Time"
  | VBool _ => "bool"
  | VBytes _ => "[]uint8"
  | VString _ => "string"
  | VNumeric _ _ _ => "*pgtype.Numeric"
  | VOther T _ => T
  end.

(** The conversion [float64(v)] of an integer: rounding to the nearest
    binary64 number, ties to even. *)
Definition float64_of_Z (n : Z) : float :=
  SF2Prim (binary_normalize prec emax n 0 false).

(** [strings.Contains]. *)
Fixpoint Contains (s substr : string) : bool :=
  String.prefix substr s ||
  match s with
  | EmptyString => false
  | String _ s' => Contains s' substr
  end.

(** [fmt.Sprintf("%v", v)] of an integer and of a boolean. *)
Definition FormatInt (n : Z) : string := pretty n.
Definition FormatBool (b : bool) : string := if b then "true" else "false".

(** What the engine takes from the Go run time without fixing it:
    [strconv.ParseFloat(s, 64)], [fmt.Sprintf("%v", f)] of a float64, and
    the order in which [range] visits a map, of which the language only
    promises that every entry is visited once. *)
Class Runtime := {
  ParseFloat : string → float * option error;
  FormatFloat : float → string;
  rangeOrder : ∀ {A}, gmap string A → list (string * A);
  rangeOrder_perm : ∀ A (m : gmap string A), rangeOrder m ≡ₚ map_to_list m
}.

(** Result rows: [map[string]interface{}].  A missing key reads as the
    zero value, the nil interface. *)
Definition Row := gmap string Value.

Definition rowGet (row : gmap string Value) (col : string) : Value :=
  default VNil (row !! col).

(* ===================================================================== *)
(** * Package db (pkg/db/db.go)                                           *)
(* ===================================================================== *)

Module db.
Import config.

(** [const queryCanceled = "57014"]. *)
Definition queryCanceled : string := "57014".

(** [type DbInterface interface]: a connection, by the results of its
    methods.  In the pgx revision [PgVersion()] has no error result; its
    second component is then unused. *)
Record DbInterface := {
  SetStatementTimeout : Z → option error;
  Exec : string → list (gmap string Value) * option error;
  PgVersion : PgVersion * option error;
  Close : option error
}.

Section Conversions.
Context `{Runtime}.

(** [func ToFloat64(t interface{}) (float64, error)]. *)
Definition ToFloat64 (rev : Revision) (t : Value) : float * option error :=
  match rev, t with
  | RevPgx, VNumeric res err _ => (res, err)
  | RevPgx, VInt Int8 v => (float64_of_Z v, None)
  | RevPgx, VInt Int32 v => (float64_of_Z v, None)
  | _, VInt Int64 v => (float64_of_Z v, None)
  | _, VFloat64 v => (v, None)
  | _, VTime unix => (float64_of_Z unix, None)
  | _, VBool v => if v then (1%float, None) else (0%float, None)
  | _, VBytes v =>
      let strV := v in
      let (result, err) := ParseFloat strV in
      match err with
      | Some err => (nan, Some (Errorf "could not parse []byte: " err))
      | None => (result, None)
      end
  | _, VString v =>
      let (result, err) := ParseFloat v in
      match err with
      | Some err => (nan, Some (Errorf "could not parse string: " err))
      | None => (result, None)
      end
  | _, VNil => (nan, None)
  | _, v => (nan, Some (ErrorString ("unknown type " +:+ typeName v)))
  end.

(** [func ToString(t interface{}) (string, bool)]. *)
Definition ToString (rev : Revision) (t : Value) : string * bool :=
  match rev, t with
  | RevPq, VInt Int64 v => (FormatInt v, true)
  | RevPgx, VInt _ v => (FormatInt v, true)
  | _, VFloat64 v => (FormatFloat v, true)
  | _, VTime unix => (FormatInt unix, true)
  | _, VBool v => (FormatBool v, true)
  | _, VNil => ("", true)
  | _, VBytes v => (v, true)
  | _, VString v => (v, true)
  | RevPgx, VNumeric _ _ (Some str) => (str, true)
  | RevPgx, VOther _ (Some str) => (str, true)
  | _, _ => ("", false)
  end.

End Conversions.

(** ** [Db.Exec] over database/sql and lib/pq *)

Module pq.

(** The result set of [sql.DB.Query]: what [Columns()] returns and, for
    every row [Next()] announces, what [Scan] stores and returns. *)
Record Rows := {
  Columns : list string * option error;
  Scans : list (list Value * option error)
}.

(** [type Db struct]: the connection, by what its queries answer. *)
Record Db := { Query : string → Rows * option error }.

(** One result row: [row[colName] = rawData[colId]] for every column, a
    column [Scan] left untouched keeping the nil it was allocated with. *)
Definition mkRow (columnNames : list string) (rawData : list Value)
  : gmap string Value :=
  foldl (λ row '(colId, colName),
           <[colName := default VNil (rawData !! colId)]> row)
        ∅ (imap pair columnNames).

(** The [for rows.Next()] loop. *)
Fixpoint scanLoop (columnNames : list string)
    (scans : list (list Value * option error))
    (values : list (gmap string Value))
  : list (gmap string Value) * option error :=
  match scans with
  | [] => (values, None)
  | (rawData, scanErr) :: rest =>
      match scanErr with
      | Some scanErr => ([], Some (Errorf "could not scan: " scanErr))
      | None => scanLoop columnNames rest (values ++ [mkRow columnNames rawData])
      end
  end.

(** [func (d *Db) Exec(query string)].  [None] is the panic of the
    unchecked type assertion of [err] to [*pq.Error]. *)
Definition Exec (d : Db) (query : string)
  : option (list (gmap string Value) * option error) :=
  let values := [] in
  let (rows, err) := Query d query in
  match err with
  | Some err =>
      match err with
      | PgError Code Message _ =>
          if bool_decide (Code = queryCanceled) &&
             Contains Message "statement timeout"
          then Some ([], Some ErrQueryTimeout)
          else Some ([], Some (Errorf "query error: " err))
      | _ => None
      end
  | None =>
      let (columnNames, err) := Columns rows in
      match err with
      | Some err => Some ([], Some (Errorf "could not get columns: " err))
      | None => Some (scanLoop columnNames (Scans rows) values)
      end
  end.

End pq.

(** ** [Db.Exec] over pgx *)

Module pgx.

(** The result set of [pgx.Conn.Query]: the field names, then for every
    row [Next()] announces what [Err()] and [Values()] return, then what
    [Err()] returns once [Next()] has answered false. *)
Record Rows := {
  FieldDescriptions : list string;
  Steps : list (option error * (list Value * option error));
  Err : option error
}.

Record Db := { Query : string → Rows * option error }.

(** One result row; [None] is the panic of [rawData[colId]] out of range. *)
Definition mkRow (columnNames : list string) (rawData : list Value)
  : option (gmap string Value) :=
  foldl (λ row '(colId, colName),
           row ← row; v ← rawData !! colId; Some (<[colName := v]> row))
        (Some ∅) (imap pair columnNames).

(** The [for rows.Next()] loop; the outer [None] is a panic, the inner
    result tells whether the function has returned from inside the loop. *)
Fixpoint nextLoop (columnNames : list string)
    (steps : list (option error * (list Value * option error)))
    (values : list (gmap string Value))
  : option (list (gmap string Value) * option error + list (gmap string Value)) :=
  match steps with
  | [] => Some (inr values)
  | (rErr, (rawData, err)) :: rest =>
      match rErr with
      | Some rErr => Some (inl ([], Some (Errorf "query error: " rErr)))
      | None =>
          match err with
          | Some err => Some (inl ([], Some (Errorf "could not fetch values: " err)))
          | None =>
              row ← mkRow columnNames rawData;
              nextLoop columnNames rest (values ++ [row])
          end
      end
  end.

(** [func (d *Db) Exec(query string)]. *)
Definition Exec (d : Db) (query : string)
  : option (list (gmap string Value) * option error) :=
  let values := [] in
  let (rows, err) := Query d query in
  match err with
  | Some err => Some ([], Some (Errorf "query error: " err))
  | None =>
      looped ← nextLoop (FieldDescriptions rows) (Steps rows) values;
      match looped with
      | inl returned => Some returned
      | inr values =>
          match Err rows with
          | Some rErr =>
              match rErr with
              | PgError Code Message _ =>
                  if bool_decide (Code = queryCanceled) &&
                     Contains Message "statement timeout"
                  then Some ([], Some ErrQueryTimeout)
                  else Some ([], Some (ErrorString
                         ("query error: " +:+ Error rErr +:+ " - pgx.PgError")))
              | _ => Some ([], Some (Errorf "query error: " rErr))
              end
          | None => Some (values, None)
          end
      end
  end.

End pgx.

End db.

(* ===================================================================== *)
(** * A reference run time                                                *)
(* ===================================================================== *)

(** An instance of [Runtime] on which the model can be run.  It reads plain
    decimal literals (an optional sign, digits, an optional fraction) whose
    digits stay below 2^53 with at most 22 of them after the point, the
    range in which one correctly rounded division gives the nearest
    binary64 number; every other text is a syntax error.  It prints a
    float64 that is a whole number as that number, and it visits a map in
    the order of [map_to_list]. *)
Module reference.

Definition digit (c : ascii) : option Z :=
  let n := Z.of_N (N_of_ascii c) in
  if (48 <=? n) && (n <=? 57) then Some (n - 48) else None.

(** Reads digits up to the end of the text: the number they spell and how
    many there are. *)
Fixpoint digits (s : string) (acc : Z) (count : nat) : option (Z * nat) :=
  match s with
  | EmptyString => Some (acc, count)
  | String c rest => d ← digit c; digits rest (10 * acc + d) (S count)
  end.

(** Reads [digits] or [digits.digits]: mantissa and number of decimals. *)
Fixpoint decimal (s : string) (acc : Z) (count : nat) : option (Z * nat) :=
  match s with
  | EmptyString => if count is O then None else Some (acc, O)
  | String "."%char rest =>
      if count is O then None
      else match rest with
           | EmptyString => None
           | _ => '(m, k) ← digits rest acc O; Some (m, k)
           end
  | String c rest => d ← digit c; decimal rest (10 * acc + d) (S count)
  end.

Definition syntaxError (s : string) : error :=
  ErrorString ("strconv.ParseFloat: parsing " +:+ s +:+ ": invalid syntax").

Definition parseFloat (s : string) : float * option error :=
  let '(negative, body) :=
    match s with
    | String "-"%char rest => (true, rest)
    | String "+"%char rest => (false, rest)
    | _ => (false, s)
    end in
  match decimal body 0 O with
  | Some (m, k) =>
      if (m <? 2 ^ 53) && (k <=? 22)%nat then
        let q := (float64_of_Z m / float64_of_Z (10 ^ Z.of_nat k))%float in
        (if negative then (- q)%float else q, None)
      else (0%float, Some (syntaxError s))
  | None => (0%float, Some (syntaxError s))
  end.

Definition formatFloat (f : float) : string :=
  match Prim2SF f with
  | S754_zero _ => "0"
  | S754_finite s m e =>
      if (0 <=? e) then pretty ((if s then -1 else 1) * Z.pos m * 2 ^ e)
      else if (Z.pos m mod 2 ^ (- e) =? 0)
           then pretty ((if s then -1 else 1) * (Z.pos m / 2 ^ (- e)))
           else "?"
  | S754_infinity s => if s then "-Inf" else "+Inf"
  | S754_nan => "NaN"
  end.

#[export] Instance runtime : Runtime := {|
  ParseFloat := parseFloat;
  FormatFloat := formatFloat;
  rangeOrder := λ A m, map_to_list m;
  rangeOrder_perm := λ A m, reflexivity (map_to_list m)
|}.

End reference.

(* ===================================================================== *)
(** * Properties of the row converter                                     *)
(* ===================================================================== *)

Module db_facts.
Import config db.

(** The shapes [ToFloat64] has a case for, in each revision. *)
Definition converted (rev : Revision) (t : Value) : bool :=
  match rev, t with
  | RevPgx, VNumeric _ _ _ => true
  | RevPgx, VInt Int8 _ | RevPgx, VInt Int32 _ => true
  | _, VInt Int64 _ => true
  | _, VFloat64 _ | _, VTime _ | _, VBool _ | _, VBytes _ | _, VString _
  | _, VNil => true
  | _, _ => false
  end.

(** The shapes the specification's sentence on [ToFloat64] names. *)
Definition named (t : Value) : bool :=
  match t with
  | VBool _ | VTime _ | VBytes _ | VString _ | VNil => true
  | _ => false
  end.

Example parse_42_5 : reference.parseFloat "42.5" = (42.5%float, None).
Proof. vm_compute. reflexivity. Qed.

Example parse_word : snd (reference.parseFloat "on") <> None.
Proof. vm_compute. discriminate. Qed.

Example format_4096 : reference.formatFloat 4096%float = "4096".
Proof. vm_compute. reflexivity. Qed.

Example unix_seconds : float64_of_Z 1540000000 = 1540000000%float.
Proof. vm_compute. reflexivity. Qed.

Example ToFloat64_pq_int8 :
  ToFloat64 (H := reference.runtime) RevPq (VInt Int8 3)
  = (nan, Some (ErrorString "unknown type int8")).
Proof. reflexivity. Qed.

Example ToFloat64_pgx_int8 :
  ToFloat64 (H := reference.runtime) RevPgx (VInt Int8 3) = (3%float, None).
Proof. reflexivity. Qed.

Example ToString_stringer :
  ToString (H := reference.runtime) RevPq (VOther "net.IP" (Some "10.0.0.1"))
    = ("", false) ∧
  ToString (H := reference.runtime) RevPgx (VOther "net.IP" (Some "10.0.0.1"))
    = ("10.0.0.1", true) ∧
  ToString (H := reference.runtime) RevPgx (VInt Int32 (-7)) = ("-7", true) ∧
  ToString (H := reference.runtime) RevPq (VInt Int32 (-7)) = ("", false).
Proof. split_and!; reflexivity. Qed.

Example Contains_cases :
  Contains "canceling statement due to statement timeout" "statement timeout" = true ∧
  Contains "canceling statement due to user request" "statement timeout" = false.
Proof. split; reflexivity. Qed.

(** [Db.Exec] over lib/pq: two scanned rows; a server error that is no
    timeout; an error of another type, on which the type assertion panics. *)
Example pq_Exec_rows :
  pq.Exec {| pq.Query := λ _,
               ({| pq.Columns := (["name"; "setting"], None);
                   pq.Scans := [ ([VString "work_mem"; VBytes "4096"], None);
                                 ([VString "max_connections"; VBytes "100"], None) ] |},
                None) |} "show all"
  = Some ([ <[ "setting" := VBytes "4096" ]> {[ "name" := VString "work_mem" ]};
            <[ "setting" := VBytes "100" ]> {[ "name" := VString "max_connections" ]} ],
          None).
Proof. vm_compute. reflexivity. Qed.

Example pq_Exec_errors :
  pq.Exec {| pq.Query := λ _,
               ({| pq.Columns := ([], None); pq.Scans := [] |},
                Some (PgError "42P01" "relation does not exist"
                        "pq: relation does not exist")) |} "select 1"
    = Some ([], Some (ErrorString "query error: pq: relation does not exist")) ∧
  pq.Exec {| pq.Query := λ _,
               ({| pq.Columns := ([], None); pq.Scans := [] |},
                Some (ErrorString "driver: bad connection")) |} "select 1"
    = None ∧
  pgx.Exec {| pgx.Query := λ _,
                ({| pgx.FieldDescriptions := []; pgx.Steps := [];
                    pgx.Err := Some (ErrorString "unexpected EOF") |}, None) |}
           "select 1"
    = Some ([], Some (ErrorString "query error: unexpected EOF")).
Proof. split_and!; reflexivity. Qed.

(** An int64 is none of the shapes the sentence names, and it converts to
    its value with no error, in both revisions. *)
Lemma ToFloat64_int64_converts :
  named (VInt Int64 5) = false ∧
  ToFloat64 (H := reference.runtime) RevPq (VInt Int64 5) = (5%float, None) ∧
  ToFloat64 (H := reference.runtime) RevPgx (VInt Int64 5) = (5%float, None) ∧
  ¬ (∀ rev t, named t = false →
       ∃ e, snd (ToFloat64 (H := reference.runtime) rev t) = Some e).
Proof.
  split_and!; try reflexivity.
  intros Hclaim. destruct (Hclaim RevPq (VInt Int64 5) eq_refl) as [e He].
  discriminate He.
Qed.

Section ToFloat64.
Context `{Runtime}.

(** C6, amended: [ToFloat64] maps true to 1 and false to 0, a time to its
    Unix seconds, a byte buffer or a string to the number [ParseFloat]
    reads from it, or to NaN with a parse error when it reads none, nil to
    NaN with no error, an int64 and a float64 (and in the pgx revision an
    int8 and an int32) to their value with no error, in the pgx revision
    a [*pgtype.Numeric] to what its [AssignTo] stores together with the
    error [AssignTo] returns, and every shape it has no case for to NaN
    with an error carrying the name of the value's type. *)
Theorem ToFloat64_cases (rev : Revision) :
  ToFloat64 rev (VBool true) = (1%float, None) ∧
  ToFloat64 rev (VBool false) = (0%float, None) ∧
  (∀ unix, ToFloat64 rev (VTime unix) = (float64_of_Z unix, None)) ∧
  (∀ s f, ParseFloat s = (f, None) →
     ToFloat64 rev (VBytes s) = (f, None) ∧
     ToFloat64 rev (VString s) = (f, None)) ∧
  (∀ s f e, ParseFloat s = (f, Some e) →
     ToFloat64 rev (VBytes s) = (nan, Some (Errorf "could not parse []byte: " e)) ∧
     ToFloat64 rev (VString s) = (nan, Some (Errorf "could not parse string: " e))) ∧
  ToFloat64 rev VNil = (nan, None) ∧
  (∀ n, ToFloat64 rev (VInt Int64 n) = (float64_of_Z n, None)) ∧
  (∀ f, ToFloat64 rev (VFloat64 f) = (f, None)) ∧
  (∀ n, ToFloat64 RevPgx (VInt Int8 n) = (float64_of_Z n, None) ∧
        ToFloat64 RevPgx (VInt Int32 n) = (float64_of_Z n, None)) ∧
  (∀ res err str, ToFloat64 RevPgx (VNumeric res err str) = (res, err)) ∧
  (∀ t, converted rev t = false →
     ToFloat64 rev t = (nan, Some (ErrorString ("unknown type " +:+ typeName t)))).
Proof.
  split_and!; try (destruct rev; reflexivity); try (intros; destruct rev; reflexivity).
  - intros s f Hs. destruct rev; simpl; rewrite Hs; auto.
  - intros s f e Hs. destruct rev; simpl; rewrite Hs; auto.
  - intros n; split; reflexivity.
  - intros t Ht. destruct rev, t as [|[]| | | | | | |]; simpl in Ht;
      try discriminate; reflexivity.
Qed.

End ToFloat64.

Lemma ToFloat64_cases_witness :
  ToFloat64 (H := reference.runtime) RevPgx (VBytes "42.5") = (42.5%float, None) ∧
  ToFloat64 (H := reference.runtime) RevPgx (VString "42.5") = (42.5%float, None) ∧
  ToFloat64 (H := reference.runtime) RevPq (VString "on")
    = (nan, Some (Errorf "could not parse string: " (reference.syntaxError "on"))) ∧
  ToFloat64 (H := reference.runtime) RevPq (VOther "net.IP" None)
    = (nan, Some (ErrorString "unknown type net.IP")).
Proof.
  destruct (ToFloat64_cases (H := reference.runtime) RevPgx)
    as (_ & _ & _ & Hparse & _).
  destruct (ToFloat64_cases (H := reference.runtime) RevPq)
    as (_ & _ & _ & _ & Hfail & _ & _ & _ & _ & _ & Hother).
  split_and!.
  - apply (Hparse "42.5" 42.5%float). vm_compute. reflexivity.
  - apply (Hparse "42.5" 42.5%float). vm_compute. reflexivity.
  - apply (proj2 (Hfail "on" 0%float (reference.syntaxError "on") eq_refl)).
  - apply (Hother (VOther "net.IP" None)). reflexivity.
Defined.

End db_facts.

(* ===================================================================== *)
(** * Package pgcollector (pkg/pgcollector/pgcollector.go)                *)
(* ===================================================================== *)

(** The metrics library is a sink: a metric is kept by the options it was
    created with and the value handed to its [Add] (or [Set]). *)
Module prometheus.

Inductive Kind := CounterKind | GaugeKind.

Record Metric := {
  MetricKind : Kind;
  Namespace : string;
  MetricName : string;
  Help : string;
  ConstLabels : gmap string string;
  Added : float
}.

(** [func (c *counter) Add(v float64)]: a counter cannot decrease, and
    [Add] panics on a value below zero ([None]); NaN and the negative
    zero are not below zero.  [func (g *gauge) Add(val float64)] takes
    every value. *)
Definition counterAdd (v : float) : option float :=
  if (v <? 0)%float then None else Some v.

Definition gaugeAdd (v : float) : option float := Some v.

End prometheus.

Module pgcollector.
Import config db.

(** [type workerJob struct]: the embedded [config.Query], the labels of the
    target, and in the lib/pq revision the version detected for the
    target's instance (the pgx revision has no such field and never reads
    it). *)
Record workerJob := {
  jobQuery : Query;
  dbLabels : gmap string string;
  pgVersion : config.PgVersion
}.

(** What a collection cycle shares between its workers: the two uint32
    counters of [PgCollector], and the channel the metrics are sent to,
    kept as the list of what was sent. *)
Record Scrape := {
  timeOuts : Z;
  errors : Z;
  sent : list prometheus.Metric
}.

(** [atomic.AddUint32(addr, delta)]. *)
Definition AddUint32 (x delta : Z) : Z := (x + delta) mod 2 ^ 32.

Definition addTimeout (st : Scrape) : Scrape :=
  {| timeOuts := AddUint32 (timeOuts st) 1; errors := errors st; sent := sent st |}.

Definition addError (st : Scrape) : Scrape :=
  {| timeOuts := timeOuts st; errors := AddUint32 (errors st) 1; sent := sent st |}.

(** [res <- m]. *)
Definition send (st : Scrape) (m : prometheus.Metric) : Scrape :=
  {| timeOuts := timeOuts st; errors := errors st; sent := sent st ++ [m] |}.

(** How a loop body ends: it falls through to the next iteration, it
    leaves for the next job with [continue jobs], or it panics, and the
    state is what the goroutine had done by then. *)
Inductive Flow := Next | ContinueJobs | Panic.

Section Engine.
Context `{Runtime}.
Variable rev : Revision.

(** [func mergeLabels(a, b map[string]string) prometheus.Labels]. *)
Definition mergeLabels (a b : gmap string string) : gmap string string :=
  let res := ∅ in
  let res := foldl (λ res '(id, value), <[id := value]> res) res (rangeOrder a) in
  let res := foldl (λ res '(id, value), <[id := value]> res) res (rangeOrder b) in
  res.

(** [job.Metrics[name]]: the zero [Metric] for a name that is no key. *)
Definition jobMetric (job : workerJob) (name : string) : config.Metric :=
  default zeroMetric (Metrics (jobQuery job) !! name).

(** [func createMetric(job, name, constLabels, rawValue)]: the metric, or
    nil, and the error; [None] is the panic of [m.Add(val)]. *)
Definition createMetric (job : workerJob) (name : string)
    (constLabels : gmap string string) (rawValue : Value)
  : option (option prometheus.Metric * option error) :=
  match Usage (jobMetric job name) with
  | Counter =>
      let (val, err) := ToFloat64 rev rawValue in
      match err with
      | Some err => Some (None, Some (Errorf "could not convert to float64: " err))
      | None =>
          added ← prometheus.counterAdd val;
          Some (Some {| prometheus.MetricKind := prometheus.CounterKind;
                        prometheus.Namespace := Name (jobQuery job);
                        prometheus.MetricName := name;
                        prometheus.Help := Description (jobMetric job name);
                        prometheus.ConstLabels := constLabels;
                        prometheus.Added := added |}, None)
      end
  | Gauge =>
      let (val, err) := ToFloat64 rev rawValue in
      match err with
      | Some err => Some (None, Some (Errorf "could not convert to float64: " err))
      | None =>
          added ← prometheus.gaugeAdd val;
          Some (Some {| prometheus.MetricKind := prometheus.GaugeKind;
                        prometheus.Namespace := Name (jobQuery job);
                        prometheus.MetricName := name;
                        prometheus.Help := Description (jobMetric job name);
                        prometheus.ConstLabels := constLabels;
                        prometheus.Added := added |}, None)
      end
  | _ => Some (None, None)
  end.

(** [if m != nil { res <- m }]. *)
Definition sendIfAny (st : Scrape) (m : option prometheus.Metric) : Scrape :=
  match m with
  | Some m => send st m
  | None => st
  end.

(** The loop that gathers the names of the [Label] metrics of a job. *)
Definition labelColumnsOf (job : workerJob) : list string :=
  foldl (λ labelColumns '(metricName, metric),
           if decide (Usage metric = Label)
           then labelColumns ++ [metricName] else labelColumns)
        [] (rangeOrder (Metrics (jobQuery job))).

(** The loop over [labelColumns] for one row: a value that does not
    convert is counted, and its column still gets the (empty) string the
    conversion returned. *)
Definition labelLoop (row : gmap string Value) (labelColumns : list string)
    (st : Scrape) : gmap string string * Scrape :=
  foldl (λ '(labels, st) columnName,
           let (val, ok) := ToString rev (rowGet row columnName) in
           let st := if ok then st else addError st in
           (<[columnName := val]> labels, st))
        (∅, st) labelColumns.

(** The branch [job.NameColumn != ""] of the row loop. *)
Definition nameValueStep (job : workerJob) (constLabels : gmap string string)
    (row : gmap string Value) (st : Scrape) : Scrape * Flow :=
  let (metricName, ok) := ToString rev (rowGet row (NameColumn (jobQuery job))) in
  if negb ok then (addError st, ContinueJobs)
  else
    match createMetric job metricName constLabels
            (rowGet row (ValueColumn (jobQuery job))) with
    | None => (st, Panic)
    | Some (_, Some _) => (addError st, ContinueJobs)
    | Some (m, None) => (sendIfAny st m, Next)
    end.

(** The branch of the row loop without a name column:
    [for colName, colValue := range row]. *)
Fixpoint columnLoop (job : workerJob) (labels constLabels : gmap string string)
    (columns : list (string * Value)) (st : Scrape) : Scrape * Flow :=
  match columns with
  | [] => (st, Next)
  | (colName, colValue) :: rest =>
      if decide (is_Some (labels !! colName))
      then columnLoop job labels constLabels rest st
      else if decide (is_Some (Metrics (jobQuery job) !! colName))
      then
        match createMetric job colName constLabels colValue with
        | None => (st, Panic)
        | Some (_, Some _) => (addError st, ContinueJobs)
        | Some (m, None) => columnLoop job labels constLabels rest (sendIfAny st m)
        end
      else columnLoop job labels constLabels rest st
  end.

(** What follows the label loop in the body of the row loop. *)
Definition afterLabels (job : workerJob) (row : gmap string Value)
    (labels : gmap string string) (st : Scrape) : Scrape * Flow :=
  let constLabels := mergeLabels (dbLabels job) labels in
  if decide (NameColumn (jobQuery job) ≠ "")
  then nameValueStep job constLabels row st
  else columnLoop job labels constLabels (rangeOrder row) st.

(** The body of [for _, row := range rows]. *)
Definition rowStep (job : workerJob) (labelColumns : list string)
    (row : gmap string Value) (st : Scrape) : Scrape * Flow :=
  let (labels, st) := labelLoop row labelColumns st in
  afterLabels job row labels st.

(** [for _, row := range rows]. *)
Fixpoint rowLoop (job : workerJob) (labelColumns : list string)
    (rows : list (gmap string Value)) (st : Scrape) : Scrape * Flow :=
  match rows with
  | [] => (st, Next)
  | row :: rest =>
      match rowStep job labelColumns row st with
      | (st, Next) => rowLoop job labelColumns rest st
      | (st, ContinueJobs) => (st, ContinueJobs)
      | (st, Panic) => (st, Panic)
      end
  end.

(** The version a worker resolves the SQL for: the one the job carries
    (lib/pq revision) or the one the connection reports (pgx revision). *)
Definition jobVersion (conn : DbInterface) (job : workerJob)
  : config.PgVersion :=
  match rev with
  | RevPq => pgVersion job
  | RevPgx => fst (PgVersion conn)
  end.

(** The body of [for job := range jobs].  [None] is a panic, of [v[0]]
    in the resolver or of a counter in [createMetric]. *)
Definition runJob (conn : DbInterface) (job : workerJob) (st : Scrape)
  : option Scrape :=
  sql ← VerSQLs_Query (QVerSQL (jobQuery job)) (jobVersion conn job);
  if decide (sql = "") then Some (addError st)
  else
    let labelColumns := labelColumnsOf job in
    let (rows, err) := Exec conn sql in
    match err with
    | Some err =>
        let st := if decide (err = ErrQueryTimeout) then addTimeout st else st in
        Some (addError st)
    | None =>
        match rowLoop job labelColumns rows st with
        | (_, Panic) => None
        | (st, _) => Some st
        end
    end.

(** [func (p *PgCollector) worker(conn, jobs, res, wg)]: the jobs one
    worker receives from its queue, in the order it receives them. *)
Fixpoint worker (conn : DbInterface) (jobs : list workerJob) (st : Scrape)
  : option Scrape :=
  match jobs with
  | [] => Some st
  | job :: rest => st ← runJob conn job st; worker conn rest st
  end.

End Engine.

End pgcollector.

(* ===================================================================== *)
(** * Properties of the worker                                            *)
(* ===================================================================== *)

Module pgcollector_facts.
Import config db pgcollector.

(** ** Maps and their iteration *)

Section Range.
Context `{Runtime}.

Lemma rangeOrder_NoDup {A} (m : gmap string A) : NoDup (rangeOrder m).*1.
Proof.
  rewrite (rangeOrder_perm A m). apply NoDup_fst_map_to_list.
Qed.

Lemma rangeOrder_to_map {A} (m : gmap string A) : list_to_map (rangeOrder m) = m.
Proof.
  rewrite <- (list_to_map_to_list m) at 2.
  apply list_to_map_proper; [apply rangeOrder_NoDup | apply rangeOrder_perm].
Qed.

Lemma elem_of_rangeOrder {A} (m : gmap string A) k x :
  (k, x) ∈ rangeOrder m ↔ m !! k = Some x.
Proof. rewrite (rangeOrder_perm A m). apply elem_of_map_to_list. Qed.

(** Assigning the entries of a list without repeated keys, one after the
    other, amounts to a union that prefers them. *)
Lemma foldl_assign {A} (l : list (string * A)) (res : gmap string A) :
  NoDup l.*1 →
  foldl (λ res '(id, value), <[id := value]> res) res l = list_to_map l ∪ res.
Proof.
  revert res. induction l as [|[k v] l IH]; intros res Hnd; simpl.
  - now rewrite (left_id_L ∅ (∪)).
  - inversion_clear Hnd as [|? ? Hk Hl].
    rewrite IH by assumption.
    apply not_elem_of_list_to_map_1 in Hk.
    apply map_eq. intros i.
    rewrite !lookup_union.
    destruct (decide (k = i)) as [-> |Hne].
    + rewrite Hk, !lookup_insert_eq. now destruct (res !! i).
    + now rewrite !lookup_insert_ne by assumption.
Qed.

Lemma range_assign {A} (m res : gmap string A) :
  foldl (λ res '(id, value), <[id := value]> res) res (rangeOrder m) = m ∪ res.
Proof.
  rewrite foldl_assign by apply rangeOrder_NoDup.
  now rewrite rangeOrder_to_map.
Qed.

(** ** [mergeLabels] *)

Lemma mergeLabels_union (a b : gmap string string) : mergeLabels a b = b ∪ a.
Proof.
  unfold mergeLabels. rewrite !range_assign.
  now rewrite (right_id_L ∅ (∪)).
Qed.

End Range.

(** The label example of the specification. *)
Definition staticLabels : gmap string string := {[ "env" := "prod" ]}.
Definition dynamicLabels : gmap string string :=
  <[ "env" := "staging" ]> {[ "shard" := "1" ]}.

(** ** The collector's state *)

(** The values of a uint32. *)
Definition uint32 (x : Z) : Prop := 0 ≤ x < 2 ^ 32.

Definition wf (st : Scrape) : Prop := uint32 (timeOuts st) ∧ uint32 (errors st).

(** A fresh cycle: both counters stored as 0, nothing sent yet. *)
Definition zero : Scrape := {| timeOuts := 0; errors := 0; sent := [] |}.

(** [plus st d]: the state [st] after the additions recorded in [d]. *)
Definition plus (st d : Scrape) : Scrape :=
  {| timeOuts := AddUint32 (timeOuts st) (timeOuts d);
     errors := AddUint32 (errors st) (errors d);
     sent := sent st ++ sent d |}.

Fixpoint addErrors (n : nat) (st : Scrape) : Scrape :=
  match n with
  | O => st
  | S n => addError (addErrors n st)
  end.

Lemma AddUint32_assoc a b c :
  AddUint32 (AddUint32 a b) c = AddUint32 a (AddUint32 b c).
Proof.
  unfold AddUint32. rewrite Zplus_mod_idemp_l, Zplus_mod_idemp_r.
  f_equal. lia.
Qed.

Lemma AddUint32_0 a : uint32 a → AddUint32 a 0 = a.
Proof.
  intros Ha. unfold AddUint32. rewrite Z.add_0_r. now apply Z.mod_small.
Qed.

Lemma plus_zero st : wf st → plus st zero = st.
Proof.
  intros [Ht He]. destruct st as [t e s]; unfold plus; simpl in *.
  now rewrite !AddUint32_0, app_nil_r.
Qed.

Lemma plus_addError st d : addError (plus st d) = plus st (addError d).
Proof. unfold addError, plus; simpl. now rewrite AddUint32_assoc. Qed.

Lemma plus_addTimeout st d : addTimeout (plus st d) = plus st (addTimeout d).
Proof. unfold addTimeout, plus; simpl. now rewrite AddUint32_assoc. Qed.

Lemma plus_send st d m : send (plus st d) m = plus st (send d m).
Proof. unfold send, plus; simpl. now rewrite app_assoc. Qed.

Lemma plus_sendIfAny st d m : sendIfAny (plus st d) m = plus st (sendIfAny d m).
Proof. destruct m; simpl; [apply plus_send | reflexivity]. Qed.

Lemma plus_addErrors n st d : addErrors n (plus st d) = plus st (addErrors n d).
Proof.
  induction n as [|n IH]; simpl; [reflexivity|].
  now rewrite IH, plus_addError.
Qed.

Lemma addErrors_addError n st : addErrors n (addError st) = addError (addErrors n st).
Proof.
  induction n as [|n IH]; simpl; [reflexivity|].
  now rewrite IH.
Qed.

(** ** The loops of the worker *)

Section Worker.
Context `{Runtime}.
Variable rev : Revision.

(** A column of a row whose value [ToString] does not convert. *)
Definition failing (row : gmap string Value) (c : string) : bool :=
  negb (snd (ToString rev (rowGet row c))).

Definition labelFailures (row : gmap string Value) (cols : list string) : nat :=
  length (List.filter (failing row) cols).

(** The labels of a row: every label column with the string of its value. *)
Definition labelsOf (row : gmap string Value) (cols : list string)
  : gmap string string :=
  foldl (λ labels c, <[c := fst (ToString rev (rowGet row c))]> labels) ∅ cols.

Lemma ToString_failed v : snd (ToString rev v) = false → fst (ToString rev v) = "".
Proof.
  destruct rev, v as [|[]| | | | | |? ? []|? []]; simpl; congruence.
Qed.

Lemma labelLoop_from row cols : ∀ (labels : gmap string string) st,
  foldl (λ '(labels, st) columnName,
           let (val, ok) := ToString rev (rowGet row columnName) in
           let st := if ok then st else addError st in
           (<[columnName := val]> labels, st))
        (labels, st) cols
  = (foldl (λ labels c, <[c := fst (ToString rev (rowGet row c))]> labels) labels cols,
     addErrors (labelFailures row cols) st).
Proof.
  induction cols as [|c cols IH]; intros labels st; simpl; [reflexivity|].
  unfold labelFailures, failing in *. simpl.
  destruct (ToString rev (rowGet row c)) as [val ok]; simpl.
  rewrite IH. destruct ok; simpl; [reflexivity|].
  now rewrite addErrors_addError.
Qed.

(** The label loop stores a label for every label column and counts one
    error for every value that does not convert. *)
Lemma labelLoop_result row cols st :
  labelLoop rev row cols st
  = (labelsOf row cols, addErrors (labelFailures row cols) st).
Proof. apply labelLoop_from. Qed.

Lemma labelStore_lookup row cols c : ∀ labels : gmap string string,
  foldl (λ labels c, <[c := fst (ToString rev (rowGet row c))]> labels) labels cols !! c
  = if decide (c ∈ cols) then Some (fst (ToString rev (rowGet row c)))
    else labels !! c.
Proof.
  induction cols as [|c' cols IH]; intros labels; cbn [foldl].
  - rewrite decide_False by apply not_elem_of_nil. reflexivity.
  - rewrite IH. destruct (decide (c ∈ cols)) as [Hin|Hin].
    + rewrite decide_True by (now right). reflexivity.
    + destruct (decide (c' = c)) as [-> |Hne].
      * rewrite decide_True by (now left). apply lookup_insert_eq.
      * rewrite decide_False by (intros Hc; inversion Hc; subst; tauto).
        now apply lookup_insert_ne.
Qed.

Lemma labelsOf_lookup row cols c :
  labelsOf row cols !! c
  = if decide (c ∈ cols) then Some (fst (ToString rev (rowGet row c))) else None.
Proof. unfold labelsOf. rewrite labelStore_lookup. now case_decide. Qed.

Lemma labelFailures_pos row cols c :
  c ∈ cols → failing row c = true → (1 <= labelFailures row cols)%nat.
Proof.
  intros Hin Hc. unfold labelFailures.
  assert (Hf : In c (List.filter (failing row) cols)).
  { apply filter_In. split; [now apply list_elem_of_In | assumption]. }
  destruct (List.filter (failing row) cols); [destruct Hf | simpl; lia].
Qed.

(** The names gathered as label columns are those of the [Label] metrics. *)
Lemma labelColumnsOf_from (l : list (string * config.Metric)) : ∀ acc c,
  c ∈ foldl (λ labelColumns '(metricName, metric),
               if decide (Usage metric = Label)
               then labelColumns ++ [metricName] else labelColumns) acc l
  ↔ c ∈ acc ∨ ∃ m, (c, m) ∈ l ∧ Usage m = Label.
Proof.
  induction l as [|[k m] l IH]; intros acc c; simpl.
  - split; [now left|]. intros [?|(m & Hm & _)]; [assumption | inversion Hm].
  - rewrite IH. case_decide as Hu.
    + rewrite elem_of_app, list_elem_of_singleton. split.
      * intros [[?| ->]|(m' & Hm' & ?)]; [now left | right | right].
        -- exists m. split; [left | assumption].
        -- exists m'. split; [now right | assumption].
      * intros [?|(m' & Hm' & Hu')]; [now left; left|].
        apply elem_of_cons in Hm' as [Heq|Hm'].
        -- inversion Heq; subst. left; now right.
        -- right. now exists m'.
    + split.
      * intros [?|(m' & Hm' & ?)]; [now left | right].
        exists m'. split; [now right | assumption].
      * intros [?|(m' & Hm' & Hu')]; [now left|].
        apply elem_of_cons in Hm' as [Heq|Hm'].
        -- inversion Heq; subst. contradiction.
        -- right. now exists m'.
Qed.

Lemma elem_of_labelColumnsOf job c :
  c ∈ labelColumnsOf job
  ↔ ∃ m, Metrics (jobQuery job) !! c = Some m ∧ Usage m = Label.
Proof.
  unfold labelColumnsOf. rewrite labelColumnsOf_from. split.
  - intros [Hnil|(m & Hm & Hu)]; [inversion Hnil|].
    exists m. split; [now apply elem_of_rangeOrder | assumption].
  - intros (m & Hm & Hu). right. exists m.
    split; [now apply elem_of_rangeOrder | assumption].
Qed.

(** [lift st r]: the result [r] of a loop body seen from the state [st]. *)
Definition lift (st : Scrape) (r : Scrape * Flow) : Scrape * Flow :=
  (plus st (fst r), snd r).

Lemma nameValueStep_plus job constLabels row st d :
  nameValueStep rev job constLabels row (plus st d)
  = lift st (nameValueStep rev job constLabels row d).
Proof.
  unfold nameValueStep, lift.
  destruct (ToString rev _) as [metricName []]; simpl.
  - destruct (createMetric rev job metricName constLabels _) as [[m [e|]]|]; simpl.
    + now rewrite plus_addError.
    + now rewrite plus_sendIfAny.
    + reflexivity.
  - now rewrite plus_addError.
Qed.

Lemma columnLoop_plus job labels constLabels columns : ∀ st d,
  columnLoop rev job labels constLabels columns (plus st d)
  = lift st (columnLoop rev job labels constLabels columns d).
Proof.
  induction columns as [|[colName colValue] columns IH]; intros st d; simpl.
  - reflexivity.
  - repeat case_decide; try apply IH.
    destruct (createMetric rev job colName constLabels colValue) as [[m [e|]]|].
    + unfold lift; simpl. now rewrite plus_addError.
    + rewrite plus_sendIfAny. apply IH.
    + reflexivity.
Qed.

Lemma afterLabels_plus job row labels st d :
  afterLabels rev job row labels (plus st d)
  = lift st (afterLabels rev job row labels d).
Proof.
  unfold afterLabels. case_decide;
    [apply nameValueStep_plus | apply columnLoop_plus].
Qed.

Lemma rowStep_result job cols row st :
  rowStep rev job cols row st
  = afterLabels rev job row (labelsOf row cols)
      (addErrors (labelFailures row cols) st).
Proof. unfold rowStep. now rewrite labelLoop_result. Qed.

Lemma rowStep_plus job cols row st d :
  rowStep rev job cols row (plus st d) = lift st (rowStep rev job cols row d).
Proof.
  rewrite !rowStep_result, plus_addErrors. apply afterLabels_plus.
Qed.

Lemma rowLoop_plus job cols rows : ∀ st d,
  rowLoop rev job cols rows (plus st d) = lift st (rowLoop rev job cols rows d).
Proof.
  induction rows as [|row rows IH]; intros st d; simpl; [reflexivity|].
  rewrite rowStep_plus. unfold lift at 1.
  destruct (rowStep rev job cols row d) as [d' []]; simpl;
    [apply IH | reflexivity | reflexivity].
Qed.

Lemma rowLoop_app job cols before after st :
  rowLoop rev job cols (before ++ after) st
  = match rowLoop rev job cols before st with
    | (st', Next) => rowLoop rev job cols after st'
    | (st', ContinueJobs) => (st', ContinueJobs)
    | (st', Panic) => (st', Panic)
    end.
Proof.
  revert st. induction before as [|row before IH]; intros st; simpl; [reflexivity|].
  destruct (rowStep rev job cols row st) as [st' []];
    [apply IH | reflexivity | reflexivity].
Qed.

Lemma runJob_plus conn job st d :
  runJob rev conn job (plus st d) = plus st <$> runJob rev conn job d.
Proof.
  unfold runJob.
  destruct (VerSQLs_Query _ _) as [sql|]; simpl; [|reflexivity].
  case_decide; simpl; [now rewrite plus_addError|].
  destruct (Exec conn sql) as [rows [err|]]; simpl.
  - case_decide; now rewrite ?plus_addTimeout, plus_addError.
  - rewrite rowLoop_plus. unfold lift.
    now destruct (rowLoop rev job (labelColumnsOf job) rows d) as [d' []].
Qed.

(** What a worker adds does not depend on what the counters hold or on
    what was sent before. *)
Lemma worker_plus conn jobs : ∀ st d,
  worker rev conn jobs (plus st d) = plus st <$> worker rev conn jobs d.
Proof.
  induction jobs as [|job jobs IH]; intros st d; simpl; [reflexivity|].
  rewrite runJob_plus.
  destruct (runJob rev conn job d) as [d'|]; simpl; [apply IH | reflexivity].
Qed.

Lemma worker_from_zero conn jobs st :
  wf st → worker rev conn jobs st = plus st <$> worker rev conn jobs zero.
Proof. intros Hwf. now rewrite <- worker_plus, plus_zero. Qed.

Lemma sent_addErrors n st : sent (addErrors n st) = sent st.
Proof. induction n as [|n IH]; simpl; [reflexivity | exact IH]. Qed.

Lemma timeOuts_addErrors n st : timeOuts (addErrors n st) = timeOuts st.
Proof. induction n as [|n IH]; simpl; [reflexivity | exact IH]. Qed.

Lemma errors_addErrors n st :
  uint32 (errors st) →
  errors (addErrors n st) = (errors st + Z.of_nat n) mod 2 ^ 32.
Proof.
  intros He. induction n as [|n IH]; simpl.
  - rewrite Z.add_0_r. symmetry. now apply Z.mod_small.
  - rewrite IH. unfold AddUint32. rewrite Zplus_mod_idemp_l. f_equal. lia.
Qed.

Lemma createMetric_labels job name constLabels rawValue m err :
  createMetric rev job name constLabels rawValue = Some (Some m, err) →
  prometheus.ConstLabels m = constLabels.
Proof.
  unfold createMetric, prometheus.counterAdd, prometheus.gaugeAdd.
  destruct (Usage (jobMetric job name)); try discriminate;
    destruct (ToFloat64 rev rawValue) as [val [e|]]; try discriminate;
    simpl; try (destruct (val <? 0)%float; simpl; try discriminate);
    intros [= <- _]; reflexivity.
Qed.

(** A name that is no key of the metrics, or the key of a [Discard] or
    [Label] metric, makes [createMetric] return nil and no error. *)
Lemma createMetric_unused job name constLabels rawValue :
  Usage (jobMetric job name) ≠ Counter → Usage (jobMetric job name) ≠ Gauge →
  createMetric rev job name constLabels rawValue = Some (None, None).
Proof.
  unfold createMetric. destruct (Usage (jobMetric job name)); congruence.
Qed.

Lemma createMetric_fails job name constLabels rawValue e :
  Usage (jobMetric job name) = Counter ∨ Usage (jobMetric job name) = Gauge →
  snd (ToFloat64 rev rawValue) = Some e →
  createMetric rev job name constLabels rawValue
  = Some (None, Some (Errorf "could not convert to float64: " e)).
Proof.
  unfold createMetric. intros [-> | ->];
    destruct (ToFloat64 rev rawValue) as [val err]; simpl; intros ->; reflexivity.
Qed.

Lemma nameValueStep_sent job constLabels row st m :
  m ∈ sent (fst (nameValueStep rev job constLabels row st)) →
  m ∈ sent st ∨ prometheus.ConstLabels m = constLabels.
Proof.
  unfold nameValueStep.
  destruct (ToString rev _) as [metricName []]; simpl; [|now left].
  destruct (createMetric rev job metricName constLabels _) as [[[m'|] [e|]]|] eqn:Hc;
    simpl; try (now left).
  rewrite elem_of_app, list_elem_of_singleton. intros [?| ->]; [now left|].
  right. eapply createMetric_labels, Hc.
Qed.

Lemma columnLoop_sent job labels constLabels columns m : ∀ st,
  m ∈ sent (fst (columnLoop rev job labels constLabels columns st)) →
  m ∈ sent st ∨ prometheus.ConstLabels m = constLabels.
Proof.
  induction columns as [|[colName colValue] columns IH]; intros st; simpl.
  - now left.
  - repeat case_decide; try apply IH.
    destruct (createMetric rev job colName constLabels colValue)
      as [[[m'|] [e|]]|] eqn:Hc; simpl; try (now left); try apply IH.
    intros Hm. apply IH in Hm as [Hm|Hm]; [|now right].
    apply elem_of_app in Hm as [Hm|Hm]; [now left|].
    apply list_elem_of_singleton in Hm as ->.
    right. eapply createMetric_labels, Hc.
Qed.

(** C7: the label set [mergeLabels] builds has the keys of both maps, a
    key of the second (dynamic) map carrying the second map's value, every
    other key the first (static) map's; merging {env: prod} with
    {env: staging, shard: 1} gives {env: staging, shard: 1}; and every
    metric a row makes the worker send was created with the merge of the
    job's static labels and the row's labels. *)
Theorem mergeLabels_dynamic_wins (a b : gmap string string) :
  dom (mergeLabels a b) = dom a ∪ dom b ∧
  (∀ k v, b !! k = Some v → mergeLabels a b !! k = Some v) ∧
  (∀ k, b !! k = None → mergeLabels a b !! k = a !! k) ∧
  mergeLabels staticLabels dynamicLabels
    = <[ "env" := "staging" ]> {[ "shard" := "1" ]} ∧
  (∀ job row st m,
     m ∈ sent (fst (rowStep rev job (labelColumnsOf job) row st)) →
     m ∈ sent st ∨
     prometheus.ConstLabels m
       = mergeLabels (dbLabels job) (labelsOf row (labelColumnsOf job))).
Proof.
  split_and!.
  - rewrite mergeLabels_union, dom_union_L. apply (comm_L (∪)).
  - intros k v Hb. rewrite mergeLabels_union. now apply lookup_union_Some_l.
  - intros k Hb. rewrite mergeLabels_union. now apply lookup_union_r.
  - rewrite mergeLabels_union. vm_compute. reflexivity.
  - intros job row st m. rewrite rowStep_result. unfold afterLabels.
    case_decide; intros Hm;
      [apply nameValueStep_sent in Hm | apply columnLoop_sent in Hm];
      rewrite sent_addErrors in Hm; exact Hm.
Qed.

(** C10, amended: in name/value mode a row whose name converts to a string
    that is no key of the job's metrics, or the key of a [Discard] or
    [Label] metric, makes the worker send nothing; the error counter grows
    only by one for every label column of the row whose value does not
    convert, so not at all when they all convert; and the worker goes on
    with the next row. *)
Theorem unused_name_skips_row job row name st :
  NameColumn (jobQuery job) ≠ "" →
  ToString rev (rowGet row (NameColumn (jobQuery job))) = (name, true) →
  (Metrics (jobQuery job) !! name = None ∨
   ∃ m, Metrics (jobQuery job) !! name = Some m ∧
        (Usage m = Discard ∨ Usage m = Label)) →
  let cols := labelColumnsOf job in
  (∀ constLabels rawValue,
     createMetric rev job name constLabels rawValue = Some (None, None)) ∧
  rowStep rev job cols row st = (addErrors (labelFailures row cols) st, Next) ∧
  sent (addErrors (labelFailures row cols) st) = sent st ∧
  (labelFailures row cols = O → rowStep rev job cols row st = (st, Next)).
Proof.
  intros Hmode Hname Hunused cols.
  assert (Hu : Usage (jobMetric job name) ≠ Counter ∧
               Usage (jobMetric job name) ≠ Gauge).
  { unfold jobMetric.
    destruct Hunused as [-> |(m & -> & [Hm|Hm])]; simpl; rewrite ?Hm;
      split; discriminate. }
  destruct Hu as [Hc Hg].
  assert (Hstep : rowStep rev job cols row st
                  = (addErrors (labelFailures row cols) st, Next)).
  { rewrite rowStep_result. unfold afterLabels.
    rewrite decide_True by assumption.
    unfold nameValueStep. rewrite Hname. simpl.
    now rewrite createMetric_unused. }
  split_and!.
  - intros constLabels rawValue. now apply createMetric_unused.
  - exact Hstep.
  - apply sent_addErrors.
  - intros Hnone. rewrite Hstep, Hnone. reflexivity.
Qed.

(** ** The counters stay uint32 values *)

Lemma AddUint32_uint32 x d : uint32 (AddUint32 x d).
Proof. unfold uint32, AddUint32. apply Z.mod_pos_bound. lia. Qed.

Lemma wf_addError st : wf st → wf (addError st).
Proof. intros [Ht _]. split; [exact Ht | apply AddUint32_uint32]. Qed.

Lemma wf_addErrors n st : wf st → wf (addErrors n st).
Proof. intros Hwf. induction n; simpl; [assumption | now apply wf_addError]. Qed.

Lemma wf_sendIfAny st m : wf st → wf (sendIfAny st m).
Proof. destruct m; intros Hwf; exact Hwf. Qed.

Lemma wf_afterLabels job row labels st :
  wf st → wf (fst (afterLabels rev job row labels st)).
Proof.
  unfold afterLabels. case_decide.
  - unfold nameValueStep. intros Hwf.
    destruct (ToString rev _) as [metricName []]; simpl;
      [|now apply wf_addError].
    destruct (createMetric rev job metricName _ _) as [[m [e|]]|]; simpl;
      [now apply wf_addError | now apply wf_sendIfAny | assumption].
  - generalize (mergeLabels (dbLabels job) labels) as constLabels.
    intros constLabels. revert st.
    induction (rangeOrder row) as [|[colName colValue] columns IH];
      intros st Hwf; simpl; [assumption|].
    repeat case_decide; try now apply IH.
    destruct (createMetric rev job colName constLabels colValue) as [[m [e|]]|];
      simpl; [now apply wf_addError | now apply IH, wf_sendIfAny | assumption].
Qed.

Lemma wf_rowLoop job cols rows : ∀ st,
  wf st → wf (fst (rowLoop rev job cols rows st)).
Proof.
  induction rows as [|row rows IH]; intros st Hwf; simpl; [assumption|].
  pose proof (wf_afterLabels job row (labelsOf row cols) _
                (wf_addErrors (labelFailures row cols) st Hwf)) as Hstep.
  rewrite <- rowStep_result in Hstep.
  destruct (rowStep rev job cols row st) as [st' []]; simpl in *;
    [now apply IH | assumption | assumption].
Qed.

Lemma columnLoop_app job labels constLabels pre post : ∀ st,
  columnLoop rev job labels constLabels (pre ++ post) st
  = match columnLoop rev job labels constLabels pre st with
    | (st', Next) => columnLoop rev job labels constLabels post st'
    | (st', ContinueJobs) => (st', ContinueJobs)
    | (st', Panic) => (st', Panic)
    end.
Proof.
  induction pre as [|[colName colValue] pre IH]; intros st; simpl; [reflexivity|].
  repeat case_decide; try apply IH.
  destruct (createMetric rev job colName constLabels colValue) as [[m [e|]]|];
    [reflexivity | apply IH | reflexivity].
Qed.

(** A job whose SQL resolves and executes runs the row loop, and
    panics when the row loop does. *)
Lemma runJob_rows conn job sql rows st :
  VerSQLs_Query (QVerSQL (jobQuery job)) (jobVersion rev conn job) = Some sql →
  sql ≠ "" →
  Exec conn sql = (rows, None) →
  runJob rev conn job st
  = match rowLoop rev job (labelColumnsOf job) rows st with
    | (_, Panic) => None
    | (st', _) => Some st'
    end.
Proof.
  intros Hsql Hne Hexec. unfold runJob. rewrite Hsql. simpl.
  rewrite decide_False by assumption. now rewrite Hexec.
Qed.

(** C4: a label column whose value does not convert is counted as an error
    and gets the empty label, and the row is processed further with it; a
    name column whose value does not convert is counted as an error and
    ends the job, so that nothing is sent for this row or a later one;
    the worker then takes its next job, and what any worker adds for its
    jobs does not depend on the state the abandoned job leaves. *)
Theorem conversion_failures (conn : DbInterface) (job : workerJob) :
  let cols := labelColumnsOf job in
  (∀ row st,
     rowStep rev job cols row st
     = afterLabels rev job row (labelsOf row cols)
         (addErrors (labelFailures row cols) st) ∧
     (∀ c, c ∈ cols → snd (ToString rev (rowGet row c)) = false →
        labelsOf row cols !! c = Some "" ∧ (1 <= labelFailures row cols)%nat)) ∧
  (∀ sql before row after st st1,
     wf st →
     NameColumn (jobQuery job) ≠ "" →
     VerSQLs_Query (QVerSQL (jobQuery job)) (jobVersion rev conn job) = Some sql →
     sql ≠ "" →
     Exec conn sql = (before ++ row :: after, None) →
     rowLoop rev job cols before st = (st1, Next) →
     snd (ToString rev (rowGet row (NameColumn (jobQuery job)))) = false →
     ∃ r, runJob rev conn job st = Some r ∧
          sent r = sent st1 ∧ timeOuts r = timeOuts st1 ∧
          errors r
          = (errors st1 + Z.of_nat (labelFailures row cols) + 1) mod 2 ^ 32) ∧
  (∀ jobs st,
     worker rev conn (job :: jobs) st
     = st' ← runJob rev conn job st; worker rev conn jobs st') ∧
  (∀ conn' jobs st,
     wf st → worker rev conn' jobs st = plus st <$> worker rev conn' jobs zero).
Proof.
  intros cols. split_and!.
  - intros row st. split; [apply rowStep_result|].
    intros c Hc Hfail. split.
    + rewrite labelsOf_lookup, decide_True by assumption.
      now rewrite ToString_failed.
    + apply (labelFailures_pos row cols c Hc). unfold failing. now rewrite Hfail.
  - intros sql before row after st st1 Hwf Hmode Hsql Hne Hexec Hbefore Hname.
    exists (addErrors (S (labelFailures row cols)) st1).
    assert (Hwf1 : wf st1).
    { pose proof (wf_rowLoop job cols before st Hwf) as Hw.
      now rewrite Hbefore in Hw. }
    split_and!.
    + rewrite (runJob_rows conn job sql _ st Hsql Hne Hexec).
      fold cols. rewrite rowLoop_app, Hbefore. simpl.
      rewrite rowStep_result. unfold afterLabels.
      rewrite decide_True by assumption. unfold nameValueStep.
      destruct (ToString rev _) as [metricName ok]; simpl in *.
      now rewrite Hname.
    + apply sent_addErrors.
    + apply timeOuts_addErrors.
    + rewrite errors_addErrors by apply Hwf1. f_equal. lia.
  - reflexivity.
  - intros conn' jobs st Hwf. now apply worker_from_zero.
Qed.

(** C8: without a name column, a counter or gauge column whose value does
    not convert to a number is counted as one error and ends the job: the
    columns the loop would visit after it and the rows after its row
    produce nothing. *)
Theorem column_failure_abandons_job (conn : DbInterface) (job : workerJob)
    sql before row after pre c v post e st st1 st2 :
  let cols := labelColumnsOf job in
  let labels := labelsOf row cols in
  NameColumn (jobQuery job) = "" →
  VerSQLs_Query (QVerSQL (jobQuery job)) (jobVersion rev conn job) = Some sql →
  sql ≠ "" →
  Exec conn sql = (before ++ row :: after, None) →
  rowLoop rev job cols before st = (st1, Next) →
  rangeOrder row = pre ++ (c, v) :: post →
  columnLoop rev job labels (mergeLabels (dbLabels job) labels) pre
    (addErrors (labelFailures row cols) st1) = (st2, Next) →
  Usage (jobMetric job c) = Counter ∨ Usage (jobMetric job c) = Gauge →
  snd (ToFloat64 rev v) = Some e →
  runJob rev conn job st = Some (addError st2) ∧
  sent (addError st2) = sent st2 ∧
  timeOuts (addError st2) = timeOuts st2 ∧
  errors (addError st2) = (errors st2 + 1) mod 2 ^ 32.
Proof.
  intros cols labels Hmode Hsql Hne Hexec Hbefore Horder Hpre Husage Hconv.
  split_and!; try reflexivity.
  rewrite (runJob_rows conn job sql _ st Hsql Hne Hexec).
  fold cols. rewrite rowLoop_app, Hbefore. simpl.
  rewrite rowStep_result. unfold afterLabels.
  rewrite decide_False by (intros Hn; now apply Hn).
  rewrite Horder, columnLoop_app. fold cols labels. rewrite Hpre. simpl.
  assert (Hkey : is_Some (Metrics (jobQuery job) !! c)).
  { unfold jobMetric in Husage.
    destruct (Metrics (jobQuery job) !! c); [eauto|].
    simpl in Husage. destruct Husage; discriminate. }
  assert (Hnolabel : labels !! c = None).
  { unfold labels. rewrite labelsOf_lookup.
    apply decide_False. intros Hin.
    apply elem_of_labelColumnsOf in Hin as (m & Hm & Hu).
    unfold jobMetric in Husage. rewrite Hm in Husage. simpl in Husage.
    rewrite Hu in Husage. destruct Husage; discriminate. }
  rewrite decide_False by (rewrite Hnolabel; apply is_Some_None).
  rewrite decide_True by assumption.
  now rewrite (createMetric_fails job c _ v e Husage Hconv).
Qed.


End Worker.

End pgcollector_facts.

(* ===================================================================== *)
(** * The collection cycle ([PgCollector.Collect])                        *)
(* ===================================================================== *)

(** A cycle starts one goroutine per connection.  The model runs it in
    sequence: the jobs of a target are executed in queue order, each on the
    connection of the worker that receives it.  Workers share nothing but
    the two counters, which they only add to, and the metric channel, so
    the counters and the metrics sent are those of the concurrent run; the
    order of [sent] is one of the orders the channel can see. *)
Module collect.
Import config db pgcollector.

(** [type DbConfig struct] (pkg/config/db.go), with the fields of both
    revisions: [Labels]/[Workers] are [LabelsMap]/[WorkersNumber] in the
    pgx revision, which has [IsNotPg] in place of [SkipVersionDetection]. *)
Record DbConfig := {
  Host : string;
  Port : Z;
  User : string;
  Password : string;
  Dbname : string;
  Sslmode : string;
  QueryFiles : list string;
  Labels : gmap string string;
  Workers : Z;
  SkipVersionDetection : bool;
  IsNotPg : bool;
  StatementTimeout : Z;
  queries : list Query
}.

(** [fmt.Sprintf("%s:%d", d.Host, d.Port)]. *)
Definition InstanceName (d : DbConfig) : string :=
  Host d +:+ ":" +:+ FormatInt (Port d).

(** [type ConfigInterface interface], by the results of the two methods
    a cycle calls. *)
Record ConfigInterface := {
  DbList : list string;
  Db : string → DbConfig
}.

Definition internalMetricsNamespace : string := "pg_exporter".
Definition scrapeDurationMetricName : string := "last_scrape_duration_seconds".
Definition timeOutsMetricName : string := "last_scrape_timeouts".
Definition errorsNumMetricName : string := "last_scrape_errors".

(** How a call of [Collect] ends: it returns; it never returns, waiting
    on a channel or on the wait group; the process exits in [log.Fatalf];
    or a goroutine panics. *)
Inductive Outcome :=
| Returned (st : Scrape)
| Stuck (st : Scrape)
| Fatal (st : Scrape)
| Panicked.

Section Cycle.
Context `{Runtime}.

(** What the cycle meets outside the program: the result of the [i]-th
    call of [db.New] for the target named [dbName], the worker that
    receives the [k]-th job of that target's queue, and the seconds the
    cycle has taken when it reports. *)
Variable dial : string → nat → DbInterface + error.
Variable pick : string → nat → nat.
Variable elapsed : float.

(** The deferred function of [Collect]: the three internal metrics.  The
    two counters are added a uint32, which is never below zero, so that
    their [Add] does not panic. *)
Definition report (st : Scrape) : Scrape :=
  let gm := {| prometheus.MetricKind := prometheus.GaugeKind;
               prometheus.Namespace := internalMetricsNamespace;
               prometheus.MetricName := scrapeDurationMetricName;
               prometheus.Help := "Duration of the last scrape of metrics";
               prometheus.ConstLabels := ∅;
               prometheus.Added := elapsed |} in
  let st := send st gm in
  let cm := {| prometheus.MetricKind := prometheus.CounterKind;
               prometheus.Namespace := internalMetricsNamespace;
               prometheus.MetricName := timeOutsMetricName;
               prometheus.Help := "Number of timed out statements";
               prometheus.ConstLabels := ∅;
               prometheus.Added := float64_of_Z (timeOuts st) |} in
  let st := send st cm in
  let cm := {| prometheus.MetricKind := prometheus.CounterKind;
               prometheus.Namespace := internalMetricsNamespace;
               prometheus.MetricName := errorsNumMetricName;
               prometheus.Help := "Number of errors during scraping";
               prometheus.ConstLabels := ∅;
               prometheus.Added := float64_of_Z (errors st) |} in
  send st cm.

(** The jobs of one target's queue, each run by the worker that receives
    it.  [None] is a panic. *)
Fixpoint runJobs (rev : Revision) (conns : list DbInterface) (dbName : string)
    (k : nat) (jobs : list workerJob) (st : Scrape) : option Scrape :=
  match jobs with
  | [] => Some st
  | job :: rest =>
      conn ← conns !! (pick dbName k mod length conns)%nat;
      st ← runJob rev conn job st;
      runJobs rev conns dbName (S k) rest st
  end.

(** The loop that closes the connections: does every [Close] succeed? *)
Definition closeAll (dbPool : gmap string (list (option DbInterface))) : bool :=
  forallb (λ '(dbName, dbs),
             forallb (λ dbConn : option DbInterface,
                        match dbConn with
                        | None => true
                        | Some dbConn => bool_decide (Close dbConn = None)
                        end) dbs)
          (rangeOrder dbPool).

(** The jobs made of a target's queries. *)
Definition jobsOf (dbConf : DbConfig) (pgVer : config.PgVersion) : list workerJob :=
  map (λ query, {| jobQuery := query; dbLabels := Labels dbConf;
                   pgVersion := pgVer |}) (queries dbConf).

End Cycle.

End collect.

(** ** The cycle of the lib/pq revision (pgcollector.go) *)

Module collect_pq.
Import config db pgcollector collect.

Section Cycle.
Context `{Runtime}.
Variable dial : string → nat → DbInterface + error.
Variable pick : string → nat → nat.
Variable elapsed : float.
Variable cfg : ConfigInterface.

(** How the loop over the workers of a target ends: it runs to its end,
    or it leaves the loop over the targets with [break dbLoop]. *)
Inductive Provisioned :=
| AllUp (dbs : list (option DbInterface)) (started : list DbInterface)
    (pgVersions : gmap string config.PgVersion) (st : Scrape)
| BrokeOut (dbs : list (option DbInterface)) (started : list DbInterface)
    (pgVersions : gmap string config.PgVersion) (st : Scrape).

(** [for i := 0; i < workersCnt; i++], with [n] iterations to go; [dbs] is
    [dbPool[dbName]] and [started] the connections whose worker runs. *)
Fixpoint connect (dbName : string) (dbConf : DbConfig) (i n : nat)
    (dbs : list (option DbInterface)) (started : list DbInterface)
    (pgVersions : gmap string config.PgVersion) (st : Scrape) : Provisioned :=
  match n with
  | O => AllUp dbs started pgVersions st
  | S n =>
      match dial dbName i with
      | inr _ => BrokeOut dbs started pgVersions (addError st)
      | inl conn =>
          let dbInstance := InstanceName dbConf in
          let detected : gmap string config.PgVersion + error :=
            match pgVersions !! dbInstance with
            | Some _ => inl pgVersions
            | None =>
                if SkipVersionDetection dbConf
                then inl (<[dbInstance := NoVersion]> pgVersions)
                else match PgVersion conn with
                     | (_, Some err) => inr err
                     | (pgVer, None) => inl (<[dbInstance := pgVer]> pgVersions)
                     end
            end in
          match detected with
          | inr _ => BrokeOut dbs started pgVersions (addError st)
          | inl pgVersions =>
              let timeoutErr :=
                if decide (StatementTimeout dbConf ≠ 0)
                then SetStatementTimeout conn (StatementTimeout dbConf)
                else None in
              match timeoutErr with
              | Some _ => BrokeOut dbs started pgVersions (addError st)
              | None =>
                  connect dbName dbConf (S i) n (<[i := Some conn]> dbs)
                    (started ++ [conn]) pgVersions st
              end
          end
      end
  end.

Inductive Looped :=
| LoopDone (dbPool : gmap string (list (option DbInterface))) (st : Scrape)
| LoopStuck (st : Scrape)
| LoopPanicked.

(** [dbLoop: for _, dbName := range p.config.DbList()].  A negative worker
    count makes [make] panic.  After [break dbLoop] the queue of the target
    is never closed, so the workers already started for it never finish
    and [wg.Wait()] never returns; a queue of capacity 0 without a worker
    blocks the first send. *)
Fixpoint dbLoop (names : list string) (pgVersions : gmap string config.PgVersion)
    (dbPool : gmap string (list (option DbInterface))) (st : Scrape) : Looped :=
  match names with
  | [] => LoopDone dbPool st
  | dbName :: rest =>
      let dbConf := Db cfg dbName in
      let workersCnt := Workers dbConf in
      if workersCnt <? 0 then LoopPanicked
      else
        let dbInstance := InstanceName dbConf in
        let dbs := replicate (Z.to_nat workersCnt) None in
        match connect dbName dbConf 0 (Z.to_nat workersCnt) dbs [] pgVersions st with
        | BrokeOut dbs started pgVersions st =>
            match started with
            | [] => LoopDone (<[dbName := dbs]> dbPool) st
            | _ :: _ => LoopStuck st
            end
        | AllUp dbs started pgVersions st =>
            let jobs := jobsOf dbConf (default 0 (pgVersions !! dbInstance)) in
            match started, jobs with
            | [], _ :: _ => LoopStuck st
            | _, _ =>
                match runJobs pick RevPq started dbName 0 jobs st with
                | None => LoopPanicked
                | Some st => dbLoop rest pgVersions (<[dbName := dbs]> dbPool) st
                end
            end
        end
  end.

(** [func (p *PgCollector) Collect(metricsCh)], from the lock to the
    deferred report. *)
Definition Collect : Outcome :=
  let st := {| timeOuts := 0; errors := 0; sent := [] |} in
  match dbLoop (DbList cfg) ∅ ∅ st with
  | LoopPanicked => Panicked
  | LoopStuck st => Stuck st
  | LoopDone dbPool st =>
      if closeAll dbPool then Returned (report elapsed st) else Fatal st
  end.

End Cycle.

End collect_pq.

(** ** The cycle of the pgx revision *)

Module collect_pgx.
Import config db pgcollector collect.

Section Cycle.
Context `{Runtime}.
Variable dial : string → nat → DbInterface + error.
Variable pick : string → nat → nat.
Variable elapsed : float.
Variable cfg : ConfigInterface.

(** [for i := 0; i < workersCnt; i++], with [n] iterations to go; either
    failure leaves this loop only ([break]). *)
Fixpoint connect (dbName : string) (dbConf : DbConfig) (i n : nat)
    (dbs : list DbInterface) (st : Scrape) : list DbInterface * Scrape :=
  match n with
  | O => (dbs, st)
  | S n =>
      match dial dbName i with
      | inr _ => (dbs, addError st)
      | inl conn =>
          let timeoutErr :=
            if decide (StatementTimeout dbConf ≠ 0)
            then SetStatementTimeout conn (StatementTimeout dbConf)
            else None in
          match timeoutErr with
          | Some _ => (dbs, addError st)
          | None => connect dbName dbConf (S i) n (dbs ++ [conn]) st
          end
      end
  end.

(** One iteration of [for _, dbName := range p.config.DbList()]: the
    connections of the target and the state after its jobs.  The jobs are
    queued only [if len(dbPool[dbName]) > 0]; they carry no version in this
    revision, and the [pgVersion] given to them here is never read. *)
Definition target (dbName : string) (st : Scrape)
  : option (list DbInterface * Scrape) :=
  let dbConf := Db cfg dbName in
  let workersCnt := Workers dbConf in
  let (dbs, st) := connect dbName dbConf 0 (Z.to_nat workersCnt) [] st in
  let jobs := jobsOf dbConf NoVersion in
  st ← match dbs with
       | [] => Some st
       | _ :: _ => runJobs pick RevPgx dbs dbName 0 jobs st
       end;
  Some (dbs, st).

Fixpoint dbLoop (names : list string)
    (dbPool : gmap string (list (option DbInterface))) (st : Scrape)
  : option (gmap string (list (option DbInterface)) * Scrape) :=
  match names with
  | [] => Some (dbPool, st)
  | dbName :: rest =>
      '(dbs, st) ← target dbName st;
      dbLoop rest (<[dbName := Some <$> dbs]> dbPool) st
  end.

Definition Collect : Outcome :=
  let st := {| timeOuts := 0; errors := 0; sent := [] |} in
  match dbLoop (DbList cfg) ∅ st with
  | None => Panicked
  | Some (dbPool, st) =>
      if closeAll dbPool then Returned (report elapsed st) else Fatal st
  end.

End Cycle.

End collect_pgx.

(* ===================================================================== *)
(** * The engine on concrete inputs                                       *)
(* ===================================================================== *)

Module examples.
Import config db pgcollector collect pgcollector_facts.

#[local] Existing Instance reference.runtime.

(** A value of a type neither conversion has a case for. *)
Definition opaque : Value := VOther "map[string]interface {}" None.

(** ** A query in name/value mode *)

Definition settingsQuery : Query := {|
  Name := "pg_settings";
  Metrics :=
    <[ "work_mem" := {| Usage := Gauge; Description := "Memory for sorts" |} ]>
    (<[ "max_connections" := {| Usage := Gauge; Description := "Connections" |} ]>
    {[ "pending_restart" := {| Usage := Label; Description := "Needs a restart" |} ]});
  QVerSQL := [ {| SQL := "select name, setting, pending_restart from pg_settings";
                  MinVer := 0; MaxVer := 0 |} ];
  NameColumn := "name";
  ValueColumn := "setting"
|}.

Definition settingsJob : workerJob :=
  {| jobQuery := settingsQuery; dbLabels := staticLabels; pgVersion := 100500 |}.

Definition settingsSQL : string :=
  "select name, setting, pending_restart from pg_settings".

Definition workMem : gmap string Value :=
  <[ "name" := VString "work_mem" ]> {[ "setting" := VBytes "4096" ]}.

Definition maxConnections : gmap string Value :=
  <[ "name" := VString "max_connections" ]> {[ "setting" := VBytes "100" ]}.

(** A row whose name does not convert. *)
Definition badName : gmap string Value :=
  <[ "name" := opaque ]> {[ "setting" := VBytes "1" ]}.

(** A row whose name is no key of the metrics. *)
Definition otherName : gmap string Value :=
  <[ "name" := VString "wal_level" ]> {[ "setting" := VBytes "1" ]}.

(** The same, with a label value that does not convert. *)
Definition otherNameBadLabel : gmap string Value :=
  <[ "pending_restart" := opaque ]> otherName.

(** A connection by the rows (or the error) its queries return. *)
Definition connection (rows : list (gmap string Value)) (err : option error)
  : DbInterface :=
  {| SetStatementTimeout := λ _, None;
     Exec := λ _, (rows, err);
     PgVersion := (100500, None);
     Close := None |}.

(** ** A query in column mode *)

Definition statQuery : Query := {|
  Name := "pg_stat_database";
  Metrics :=
    <[ "datname" := {| Usage := Label; Description := "Database" |} ]>
    (<[ "numbackends" := {| Usage := Gauge; Description := "Backends" |} ]>
    (<[ "blks_read" := {| Usage := Counter; Description := "Blocks read" |} ]>
    {[ "xact_commit" := {| Usage := Counter; Description := "Commits" |} ]}));
  QVerSQL := [ {| SQL := "select * from pg_stat_database"; MinVer := 0; MaxVer := 0 |} ];
  NameColumn := "";
  ValueColumn := ""
|}.

Definition statJob : workerJob :=
  {| jobQuery := statQuery; dbLabels := staticLabels; pgVersion := 100500 |}.

Definition statRow (blksRead : Value) : gmap string Value :=
  <[ "datname" := VString "postgres" ]>
  (<[ "numbackends" := VInt Int64 3 ]>
  (<[ "blks_read" := blksRead ]>
  {[ "xact_commit" := VInt Int64 10 ]})).

(** ** Two targets, the first of which cannot be reached *)

Definition targetConf (q : Query) : DbConfig := {|
  Host := "localhost"; Port := 5432; User := "postgres"; Password := "";
  Dbname := "test"; Sslmode := "disable"; QueryFiles := ["basic.yaml"];
  Labels := staticLabels; Workers := 1; SkipVersionDetection := false;
  IsNotPg := false; StatementTimeout := 0; queries := [q]
|}.

Definition twoTargets : ConfigInterface :=
  {| DbList := ["a"; "b"]; Db := λ _, targetConf settingsQuery |}.

Definition dialSecondOnly (dbName : string) (i : nat) : DbInterface + error :=
  if decide (dbName = "a")
  then inr (ErrorString "could not ping db: connection refused")
  else inl (connection [workMem] None).

Definition firstWorker (dbName : string) (k : nat) : nat := O.

(** The gauge the row [workMem] makes; the row has no pending_restart
    column, which reads as nil and gives the empty label. *)
Definition workMemGauge : prometheus.Metric := {|
  prometheus.MetricKind := prometheus.GaugeKind;
  prometheus.Namespace := "pg_settings";
  prometheus.MetricName := "work_mem";
  prometheus.Help := "Memory for sorts";
  prometheus.ConstLabels := <[ "pending_restart" := "" ]> staticLabels;
  prometheus.Added := 4096%float
|}.

Example settings_rows :
  runJob RevPq (connection [workMem; maxConnections] None) settingsJob zero
  = Some {| timeOuts := 0; errors := 0;
            sent := [ workMemGauge;
                      {| prometheus.MetricKind := prometheus.GaugeKind;
                         prometheus.Namespace := "pg_settings";
                         prometheus.MetricName := "max_connections";
                         prometheus.Help := "Connections";
                         prometheus.ConstLabels :=
                           <[ "pending_restart" := "" ]> staticLabels;
                         prometheus.Added := 100%float |} ] |}.
Proof. vm_compute. reflexivity. Qed.

Lemma mergeLabels_dynamic_wins_witness :
  mergeLabels (<[ "dc" := "eu" ]> staticLabels) dynamicLabels !! "env"
    = Some "staging" ∧
  mergeLabels (<[ "dc" := "eu" ]> staticLabels) dynamicLabels !! "dc"
    = (<[ "dc" := "eu" ]> staticLabels) !! "dc".
Proof.
  destruct (mergeLabels_dynamic_wins RevPq (<[ "dc" := "eu" ]> staticLabels)
              dynamicLabels) as (_ & Hdynamic & Hstatic & _).
  split; [apply Hdynamic | apply Hstatic]; reflexivity.
Defined.

Lemma conversion_failures_witness :
  (labelsOf RevPq otherNameBadLabel (labelColumnsOf settingsJob) !! "pending_restart"
     = Some "" ∧
   (1 <= labelFailures RevPq otherNameBadLabel (labelColumnsOf settingsJob))%nat) ∧
  (∃ r, runJob RevPq (connection [workMem; badName; maxConnections] None)
          settingsJob zero = Some r ∧
        sent r = [workMemGauge] ∧ timeOuts r = 0 ∧
        errors r = (0 + Z.of_nat 0 + 1) mod 2 ^ 32) ∧
  worker RevPq (connection [workMem] None) [settingsJob] zero
    = plus zero <$> worker RevPq (connection [workMem] None) [settingsJob] zero.
Proof.
  destruct (conversion_failures RevPq
              (connection [workMem; badName; maxConnections] None) settingsJob)
    as (Hlabel & Hname & _ & Hframe).
  split; [|split].
  - apply (proj2 (Hlabel otherNameBadLabel zero) "pending_restart");
      [|reflexivity].
    apply elem_of_labelColumnsOf.
    exists {| Usage := Label; Description := "Needs a restart" |}.
    split; reflexivity.
  - apply (Hname settingsSQL [workMem] badName [maxConnections] zero
             {| timeOuts := 0; errors := 0; sent := [workMemGauge] |}).
    + unfold wf, uint32; simpl; lia.
    + discriminate.
    + reflexivity.
    + discriminate.
    + reflexivity.
    + vm_compute. reflexivity.
    + reflexivity.
  - apply Hframe. unfold wf, uint32; simpl; lia.
Defined.

(** The state after the first of three rows, and the state when the
    column loop of the second row reaches the value that does not parse. *)
Definition statFirstRow : Scrape :=
  Eval vm_compute in
    fst (rowLoop RevPq statJob (labelColumnsOf statJob)
           [statRow (VInt Int64 7)] zero).

Definition statSecondRow : Scrape :=
  Eval vm_compute in
    let labels := labelsOf RevPq (statRow (VBytes "n/a")) (labelColumnsOf statJob) in
    fst (columnLoop RevPq statJob labels (mergeLabels (dbLabels statJob) labels)
           [("numbackends", VInt Int64 3)] statFirstRow).

Lemma column_failure_abandons_job_witness :
  runJob RevPq
    (connection [statRow (VInt Int64 7); statRow (VBytes "n/a");
                 statRow (VInt Int64 9)] None)
    statJob zero = Some (addError statSecondRow) ∧
  sent (addError statSecondRow) = sent statSecondRow ∧
  timeOuts (addError statSecondRow) = timeOuts statSecondRow ∧
  errors (addError statSecondRow) = (errors statSecondRow + 1) mod 2 ^ 32.
Proof.
  apply (column_failure_abandons_job RevPq
           (connection [statRow (VInt Int64 7); statRow (VBytes "n/a");
                        statRow (VInt Int64 9)] None)
           statJob "select * from pg_stat_database"
           [statRow (VInt Int64 7)] (statRow (VBytes "n/a"))
           [statRow (VInt Int64 9)]
           [("numbackends", VInt Int64 3)] "blks_read" (VBytes "n/a")
           [("datname", VString "postgres"); ("xact_commit", VInt Int64 10)]
           (Errorf "could not parse []byte: " (reference.syntaxError "n/a"))
           zero statFirstRow statSecondRow).
  - reflexivity.
  - reflexivity.
  - discriminate.
  - reflexivity.
  - vm_compute. reflexivity.
  - vm_compute. reflexivity.
  - vm_compute. reflexivity.
  - left. reflexivity.
  - reflexivity.
Defined.

Example stat_second_row :
  length (sent statSecondRow) = 4%nat ∧ errors statSecondRow = 0.
Proof. split; reflexivity. Qed.


Lemma unused_name_skips_row_witness :
  rowStep RevPgx settingsJob (labelColumnsOf settingsJob) otherName zero
    = (zero, Next).
Proof.
  apply (unused_name_skips_row RevPgx settingsJob otherName "wal_level" zero).
  - discriminate.
  - reflexivity.
  - left. reflexivity.
  - reflexivity.
Defined.

(** A row whose name is no key of the metrics and whose label value does
    not convert: nothing is sent, and the error counter has grown. *)
Lemma unused_name_row_counts_label_error :
  ToString RevPgx (rowGet otherNameBadLabel (NameColumn settingsQuery))
    = ("wal_level", true) ∧
  Metrics settingsQuery !! "wal_level" = None ∧
  rowStep RevPgx settingsJob (labelColumnsOf settingsJob) otherNameBadLabel zero
    = ({| timeOuts := 0; errors := 1; sent := [] |}, Next) ∧
  ¬ (∀ job row name st,
       NameColumn (jobQuery job) ≠ "" →
       ToString RevPgx (rowGet row (NameColumn (jobQuery job))) = (name, true) →
       Metrics (jobQuery job) !! name = None →
       errors (fst (rowStep RevPgx job (labelColumnsOf job) row st)) = errors st).
Proof.
  assert (Hstep : rowStep RevPgx settingsJob (labelColumnsOf settingsJob)
                    otherNameBadLabel zero
                  = ({| timeOuts := 0; errors := 1; sent := [] |}, Next))
    by (vm_compute; reflexivity).
  split; [|split; [|split]].
  - vm_compute. reflexivity.
  - vm_compute. reflexivity.
  - exact Hstep.
  - intros Hclaim.
    assert (Herr : errors (fst (rowStep RevPgx settingsJob
                                  (labelColumnsOf settingsJob)
                                  otherNameBadLabel zero)) = errors zero).
    { apply (Hclaim settingsJob otherNameBadLabel "wal_level" zero).
      - discriminate.
      - vm_compute. reflexivity.
      - vm_compute. reflexivity. }
    rewrite Hstep in Herr. discriminate Herr.
Qed.

End examples.

(* ===================================================================== *)
(** * Properties of the collection cycle                                  *)
(* ===================================================================== *)

Module collect_facts.
Import config db pgcollector collect pgcollector_facts.

Section Cycle.
Context `{Runtime}.
Variable dial : string → nat → DbInterface + error.
Variable pick : string → nat → nat.
Variable cfg : ConfigInterface.

Lemma runJobs_plus rev conns dbName jobs : ∀ k st d,
  runJobs pick rev conns dbName k jobs (plus st d)
  = plus st <$> runJobs pick rev conns dbName k jobs d.
Proof.
  induction jobs as [|job jobs IH]; intros k st d; simpl; [reflexivity|].
  destruct (conns !! _) as [conn|]; simpl; [|reflexivity].
  rewrite runJob_plus.
  destruct (runJob rev conn job d) as [d'|]; simpl; [apply IH | reflexivity].
Qed.

(** ** The lib/pq revision: a failure leaves the loop over the targets *)

(** When the first connection of a target cannot be made, the loop over
    the targets ends there: the targets listed after it are not looked at. *)
Lemma pq_break_ends_dbLoop dbName rest pgVersions dbPool st e :
  0 < Workers (Db cfg dbName) →
  dial dbName 0%nat = inr e →
  collect_pq.dbLoop dial pick cfg (dbName :: rest) pgVersions dbPool st
  = collect_pq.LoopDone
      (<[dbName := replicate (Z.to_nat (Workers (Db cfg dbName))) None]> dbPool)
      (addError st).
Proof.
  intros Hw Hdial. simpl.
  destruct (Z.ltb_spec (Workers (Db cfg dbName)) 0) as [Hneg|_]; [lia|].
  destruct (Z.to_nat (Workers (Db cfg dbName))) as [|n] eqn:Hn; [lia|].
  simpl. rewrite Hdial. reflexivity.
Qed.

(** ** The pgx revision: a failure leaves the loop over the workers only *)

Lemma pgx_connect_plus dbName dbConf n : ∀ i dbs st d,
  collect_pgx.connect dial dbName dbConf i n dbs (plus st d)
  = (fst (collect_pgx.connect dial dbName dbConf i n dbs d),
     plus st (snd (collect_pgx.connect dial dbName dbConf i n dbs d))).
Proof.
  induction n as [|n IH]; intros i dbs st d; simpl; [reflexivity|].
  destruct (dial dbName i) as [conn|e]; simpl; [|now rewrite plus_addError].
  destruct (if decide (StatementTimeout dbConf ≠ 0)
            then SetStatementTimeout conn (StatementTimeout dbConf)
            else None); simpl; [now rewrite plus_addError | apply IH].
Qed.

Lemma pgx_target_plus dbName st d :
  collect_pgx.target dial pick cfg dbName (plus st d)
  = (λ r, (fst r, plus st (snd r))) <$> collect_pgx.target dial pick cfg dbName d.
Proof.
  unfold collect_pgx.target. rewrite pgx_connect_plus.
  destruct (collect_pgx.connect dial dbName (Db cfg dbName) 0 _ [] d)
    as [dbs d']; simpl.
  destruct dbs as [|conn dbs]; simpl; [reflexivity|].
  rewrite runJobs_plus.
  destruct (runJobs pick RevPgx (conn :: dbs) dbName 0 _ d'); reflexivity.
Qed.

Lemma pgx_dbLoop_plus names : ∀ dbPool st d,
  collect_pgx.dbLoop dial pick cfg names dbPool (plus st d)
  = (λ r, (fst r, plus st (snd r))) <$> collect_pgx.dbLoop dial pick cfg names dbPool d.
Proof.
  induction names as [|dbName names IH]; intros dbPool st d; simpl; [reflexivity|].
  rewrite pgx_target_plus.
  destruct (collect_pgx.target dial pick cfg dbName d) as [[dbs d']|]; simpl;
    [apply IH | reflexivity].
Qed.

(** A target whose first connection cannot be made, or cannot be given
    its statement timeout, gets no connection and no job: it sends
    nothing and counts one error. *)
Lemma pgx_target_unreachable dbName st :
  0 < Workers (Db cfg dbName) →
  (is_Some (match dial dbName 0%nat with
            | inr e => Some e
            | inl conn =>
                if decide (StatementTimeout (Db cfg dbName) ≠ 0)
                then SetStatementTimeout conn (StatementTimeout (Db cfg dbName))
                else None
            end)) →
  collect_pgx.target dial pick cfg dbName st = Some ([], addError st).
Proof.
  intros Hw Hfail. unfold collect_pgx.target.
  destruct (Z.to_nat (Workers (Db cfg dbName))) as [|n] eqn:Hn; [lia|].
  simpl. destruct (dial dbName 0%nat) as [conn|e]; [|reflexivity].
  destruct (if decide (StatementTimeout (Db cfg dbName) ≠ 0)
            then SetStatementTimeout conn (StatementTimeout (Db cfg dbName))
            else None); [reflexivity|].
  destruct Hfail as [? [=]].
Qed.

(** The targets listed after it are then run as in a cycle of their own:
    the loop goes on, and what they add does not depend on the failure. *)
Lemma pgx_unreachable_target_isolated dbName rest dbPool st :
  wf st →
  0 < Workers (Db cfg dbName) →
  (is_Some (match dial dbName 0%nat with
            | inr e => Some e
            | inl conn =>
                if decide (StatementTimeout (Db cfg dbName) ≠ 0)
                then SetStatementTimeout conn (StatementTimeout (Db cfg dbName))
                else None
            end)) →
  collect_pgx.dbLoop dial pick cfg (dbName :: rest) dbPool st
  = (λ r, (fst r, plus (addError st) (snd r)))
      <$> collect_pgx.dbLoop dial pick cfg rest (<[dbName := []]> dbPool) zero.
Proof.
  intros Hwf Hw Hfail. simpl.
  rewrite (pgx_target_unreachable dbName st Hw Hfail). simpl.
  rewrite <- pgx_dbLoop_plus, plus_zero; [reflexivity|].
  destruct Hwf as [Ht He]. split; [exact Ht | apply AddUint32_uint32].
Qed.

End Cycle.

Import examples.
#[local] Existing Instance reference.runtime.

Example pgx_unreachable_target_isolated_example :
  collect_pgx.dbLoop dialSecondOnly firstWorker twoTargets ["a"; "b"] ∅ zero
  = Some (<[ "b" := [Some (connection [workMem] None)] ]> {[ "a" := [] ]},
          {| timeOuts := 0; errors := 1; sent := [workMemGauge] |}).
Proof.
  rewrite pgx_unreachable_target_isolated.
  - vm_compute. reflexivity.
  - unfold wf, uint32; simpl; lia.
  - simpl; lia.
  - vm_compute. eauto.
Qed.

(** Two workers for one target, the second of which cannot connect: in the
    lib/pq revision the first worker waits for a queue that is never
    closed, and the cycle does not return. *)
Example pq_break_leaves_worker_waiting :
  collect_pq.Collect
    (λ _ i, if decide (i = O) then inl (connection [workMem] None)
            else inr (ErrorString "could not ping db: too many connections"))
    firstWorker 0.25%float
    {| DbList := ["a"];
       Db := λ _, {| Host := "localhost"; Port := 5432; User := "postgres";
                     Password := ""; Dbname := "test"; Sslmode := "disable";
                     QueryFiles := []; Labels := ∅; Workers := 2;
                     SkipVersionDetection := false; IsNotPg := false;
                     StatementTimeout := 0; queries := [settingsQuery] |} |}
  = Stuck {| timeOuts := 0; errors := 1; sent := [] |}.
Proof. vm_compute. reflexivity. Qed.

(** C2 on two targets "a" and "b" with one worker each, where no
    connection to "a" can be made and "b" answers one row: the lib/pq
    revision leaves the loop over the targets at "a", so that the cycle
    returns the three internal metrics only and the gauge of "b" is never
    collected; the pgx revision goes on with "b" and collects it. *)
Theorem Collect_break_skips_later_targets :
  collect_pq.Collect dialSecondOnly firstWorker 0.25%float twoTargets
    = Returned (report 0.25%float {| timeOuts := 0; errors := 1; sent := [] |}) ∧
  collect_pgx.Collect dialSecondOnly firstWorker 0.25%float twoTargets
    = Returned (report 0.25%float
                  {| timeOuts := 0; errors := 1; sent := [workMemGauge] |}).
Proof. split; vm_compute; reflexivity. Qed.

End collect_facts.

(* ===================================================================== *)
(** * Versions in text (pkg/config/helpers.go)                            *)
(* ===================================================================== *)

Module version.
Import config.

(** Go's [int] on the 64-bit platforms the exporter is built for. *)
Definition MaxInt64 : Z := 2 ^ 63 - 1.

Definition wrap64 (x : Z) : Z := (x + 2 ^ 63) mod 2 ^ 64 - 2 ^ 63.

(** [\d] of the regular expression: an ASCII digit. *)
Definition isDigit (c : ascii) : bool :=
  let n := N_of_ascii c in ((48 <=? n) && (n <=? 57))%N.

Definition digitValue (c : ascii) : Z := Z.of_N (N_of_ascii c) - 48.

(** The number a string of digits spells, after the digits [acc] spells. *)
Fixpoint digitsValue (s : string) (acc : Z) : Z :=
  match s with
  | EmptyString => acc
  | String c rest => digitsValue rest (10 * acc + digitValue c)
  end.

(** [strconv.Atoi] on the strings of digits the expression captures: out
    of range it returns the largest [int], with an error its callers drop. *)
Definition Atoi (s : string) : Z := Z.min (digitsValue s 0) MaxInt64.

(** The longest prefix of digits and what follows it. *)
Fixpoint spanDigits (s : string) : string * string :=
  match s with
  | EmptyString => ("", "")
  | String c rest =>
      if isDigit c
      then let (digits, after) := spanDigits rest in (String c digits, after)
      else ("", s)
  end.

(** [pgVerRegex.FindStringSubmatch(str)] for
    [^(\d+)(?:\.(\d+))?(?:\.(\d+))?$]: the three groups, an unmatched group
    being the empty string, or [None] for nil.  A run of digits can only be
    followed by a dot or the end, so the greedy reading is the only one. *)
Definition FindStringSubmatch (str : string) : option (string * string * string) :=
  let (g1, r1) := spanDigits str in
  if decide (g1 = "") then None
  else match r1 with
       | EmptyString => Some (g1, "", "")
       | String "."%char r2 =>
           let (g2, r3) := spanDigits r2 in
           if decide (g2 = "") then None
           else match r3 with
                | EmptyString => Some (g1, g2, "")
                | String "."%char r4 =>
                    let (g3, r5) := spanDigits r4 in
                    if decide (g3 = "") then None
                    else if decide (r5 = "") then Some (g1, g2, g3) else None
                | _ => None
                end
       | _ => None
       end.

(** [func parseVersion(str string) PgVersion], which the later revision
    exports as [ParseVersion] and starts from [NoVersion] instead of 0. *)
Definition parseVersion (rev : Revision) (str : string) : PgVersion :=
  let res := match rev with RevPq => 0 | RevPgx => NoVersion end in
  match FindStringSubmatch str with
  | None => res
  | Some (m1, m2, m3) =>
      if decide (m1 ≠ "") then
        let val := Atoi m1 in
        let res := wrap64 (val * 10000) in
        if decide (val > 9 ∧ m2 ≠ "") then wrap64 (res + Atoi m2)
        else if decide (m2 ≠ "") then
          let res := wrap64 (res + wrap64 (Atoi m2 * 100)) in
          if decide (m3 ≠ "") then wrap64 (res + Atoi m3) else res
        else res
      else res
  end.

(** [strings.Split(s, "-")]. *)
Fixpoint Split (s : string) : list string :=
  match s with
  | EmptyString => [""]
  | String c rest =>
      if decide (c = "-"%char) then "" :: Split rest
      else match Split rest with
           | part :: parts => String c part :: parts
           | [] => [String c ""]
           end
  end.

(** [func parseVersionRange(str string) (PgVersion, PgVersion)]. *)
Definition parseVersionRange (rev : Revision) (str : string)
  : PgVersion * PgVersion :=
  if decide (str = "") then (0, 0)
  else
    let parts := Split str in
    if decide (length parts = 1%nat) then
      let min := parseVersion rev (default "" (parts !! 0%nat)) in
      (min, min)
    else
      let part0 := default "" (parts !! 0%nat) in
      let part1 := default "" (parts !! 1%nat) in
      (if decide (part0 ≠ "") then parseVersion rev part0 else 0,
       if decide (part1 ≠ "") then parseVersion rev part1 else 0).

(** [func (v PgVersion) String() string]: Go's [/] and [%] truncate. *)
Definition PgVersion_String (v : PgVersion) : string :=
  FormatInt (v ÷ 10000) +:+ "." +:+ FormatInt ((v ÷ 100) `rem` 100)
    +:+ "." +:+ FormatInt (v `rem` 100).

(** The value of the [query] key of a query file, as the decoder hands it
    to [VerSQLs.UnmarshalYAML]: null, a string, a mapping (its keys
    printed with [%v], a value that is no string being [None]), or
    anything else. *)
Inductive YamlQuery :=
| YNull
| YString (sql : string)
| YMapping (entries : gmap string (option string))
| YOther.

Section Unmarshal.
Context `{Runtime}.
Variable rev : Revision.

(** [func (v *VerSQLs) UnmarshalYAML]: the variants, in the order the
    mapping is visited.  [None] is the panic of the type assertion
    [.(string)] on a value that is no string. *)
Definition UnmarshalYAML (val : YamlQuery) : option VerSQLs :=
  match val with
  | YMapping entries =>
      foldl (λ res '(k, v),
               res ← res; sql ← v;
               let '(minPg, maxPg) := parseVersionRange rev k in
               Some (res ++ [ {| MinVer := minPg; MaxVer := maxPg; SQL := sql |} ]))
            (Some []) (rangeOrder entries)
  | YString sql => Some [ {| SQL := sql; MinVer := 0; MaxVer := 0 |} ]
  | YOther => None
  | YNull => Some []
  end.

End Unmarshal.

End version.

Module version_examples.
Import config version.

Example parseVersion_examples :
  parseVersion RevPq "10" = 100000 ∧ parseVersion RevPq "9.4" = 90400 ∧
  parseVersion RevPq "9.4.1" = 90401 ∧ parseVersion RevPq "10.5" = 100005 ∧
  parseVersion RevPq "10.5.3" = 100005 ∧ parseVersion RevPq "9." = 0 ∧
  parseVersion RevPgx "11beta1" = NoVersion ∧ parseVersion RevPq "" = 0 ∧
  parseVersion RevPq "99999999999999999999" = -10000.
Proof. vm_compute. repeat split. Qed.

Example parseVersionRange_examples :
  parseVersionRange RevPq "10-" = (100000, 0) ∧
  parseVersionRange RevPq "9.4-10" = (90400, 100000) ∧
  parseVersionRange RevPq "-9.5" = (0, 90500) ∧
  parseVersionRange RevPq "9.6" = (90600, 90600) ∧
  parseVersionRange RevPq "8-9-10" = (80000, 90000) ∧
  parseVersionRange RevPq "" = (0, 0).
Proof. vm_compute. repeat split. Qed.

Example String_examples :
  PgVersion_String 90401 = "9.4.1" ∧ PgVersion_String 100005 = "10.0.5" ∧
  PgVersion_String NoVersion = "0.0.-1".
Proof. vm_compute. repeat split. Qed.

End version_examples.

(* ===================================================================== *)
(** * Properties of the version texts                                     *)
(* ===================================================================== *)

Module version_facts.
Import config config_facts version.

(** ** Digits *)

Fixpoint allDigits (s : string) : bool :=
  match s with
  | EmptyString => true
  | String c rest => isDigit c && allDigits rest
  end.

(** A text that does not go on with a digit. *)
Definition stops (s : string) : bool :=
  match s with
  | EmptyString => true
  | String c _ => negb (isDigit c)
  end.

(** Only digits and dots. *)
Fixpoint versionChars (s : string) : bool :=
  match s with
  | EmptyString => true
  | String c rest => (isDigit c || bool_decide (c = "."%char)) && versionChars rest
  end.

Fixpoint noDash (s : string) : bool :=
  match s with
  | EmptyString => true
  | String c rest => negb (bool_decide (c = "-"%char)) && noDash rest
  end.

Lemma app_cons c (s t : string) : String c s +:+ t = String c (s +:+ t).
Proof. reflexivity. Qed.

Lemma app_nil_r (s : string) : s +:+ "" = s.
Proof. induction s as [|c s IH]; [reflexivity|]. now rewrite app_cons, IH. Qed.

Lemma app_assoc (s t u : string) : (s +:+ t) +:+ u = s +:+ (t +:+ u).
Proof. induction s as [|c s IH]; [reflexivity|]. now rewrite !app_cons, IH. Qed.

Lemma spanDigits_app d r :
  allDigits d = true → stops r = true → spanDigits (d +:+ r) = (d, r).
Proof.
  intros Hd Hr. induction d as [|c d IH].
  - change ("" +:+ r) with r.
    destruct r as [|c r]; simpl in *; [reflexivity|].
    apply negb_true_iff in Hr. now rewrite Hr.
  - rewrite app_cons. simpl in *.
    apply andb_true_iff in Hd as [Hc Hd]. now rewrite Hc, IH.
Qed.

Lemma spanDigits_inv s d r :
  spanDigits s = (d, r) →
  s = d +:+ r ∧ allDigits d = true ∧ stops r = true.
Proof.
  revert d r. induction s as [|c s IH]; intros d r; simpl.
  - intros [= <- <-]. auto.
  - destruct (isDigit c) eqn:Hc.
    + destruct (spanDigits s) as [d' r'] eqn:Hs. intros [= <- <-].
      destruct (IH d' r' eq_refl) as (-> & Hd & Hr).
      rewrite app_cons. simpl. rewrite Hc. auto.
    + intros [= <- <-]. simpl. rewrite Hc. auto.
Qed.

Lemma allDigits_versionChars s : allDigits s = true → versionChars s = true.
Proof.
  induction s as [|c s IH]; simpl; [reflexivity|].
  intros [Hc Hs]%andb_true_iff. now rewrite Hc, IH.
Qed.

Lemma versionChars_app s t :
  versionChars (s +:+ t) = versionChars s && versionChars t.
Proof.
  induction s as [|c s IH]; [reflexivity|].
  rewrite app_cons. simpl. now rewrite IH, andb_assoc.
Qed.

Lemma stops_dot r : stops (String "."%char r) = true.
Proof. reflexivity. Qed.

Lemma dot_app (s : string) : "." +:+ s = String "."%char s.
Proof. reflexivity. Qed.

(** ** The expression *)

(** The three shapes the expression accepts, and the groups it gives. *)
Lemma FindStringSubmatch_shapes a b c :
  allDigits a = true → a ≠ "" →
  allDigits b = true → b ≠ "" →
  allDigits c = true → c ≠ "" →
  FindStringSubmatch a = Some (a, "", "") ∧
  FindStringSubmatch (a +:+ "." +:+ b) = Some (a, b, "") ∧
  FindStringSubmatch (a +:+ "." +:+ b +:+ "." +:+ c) = Some (a, b, c).
Proof.
  intros Ha Hna Hb Hnb Hc Hnc. unfold FindStringSubmatch.
  rewrite !dot_app. split_and!.
  - rewrite <- (app_nil_r a) at 1.
    rewrite (spanDigits_app a "" Ha eq_refl).
    now rewrite decide_False by assumption.
  - rewrite (spanDigits_app a _ Ha (stops_dot _)).
    rewrite decide_False by assumption.
    rewrite <- (app_nil_r b) at 1.
    rewrite (spanDigits_app b "" Hb eq_refl).
    now rewrite decide_False by assumption.
  - rewrite (spanDigits_app a _ Ha (stops_dot _)).
    rewrite decide_False by assumption.
    rewrite (spanDigits_app b _ Hb (stops_dot _)).
    rewrite decide_False by assumption.
    rewrite <- (app_nil_r c) at 1.
    rewrite (spanDigits_app c "" Hc eq_refl).
    rewrite decide_False by assumption.
    now rewrite decide_True by reflexivity.
Qed.

(** What the expression accepts is made of digits and dots only. *)
Lemma FindStringSubmatch_chars s g :
  FindStringSubmatch s = Some g → versionChars s = true.
Proof.
  unfold FindStringSubmatch.
  destruct (spanDigits s) as [g1 r1] eqn:H1.
  apply spanDigits_inv in H1 as (-> & Hg1 & _).
  case_decide; [discriminate|].
  rewrite versionChars_app, (allDigits_versionChars g1 Hg1). simpl.
  destruct r1 as [|c1 r2]; [reflexivity|].
  destruct (decide (c1 = "."%char)) as [-> |Hc1];
    [|destruct c1 as [[] [] [] [] [] [] [] []]; (discriminate || congruence)].
  destruct (spanDigits r2) as [g2 r3] eqn:H2.
  apply spanDigits_inv in H2 as (-> & Hg2 & _).
  case_decide; [discriminate|].
  simpl. rewrite versionChars_app, (allDigits_versionChars g2 Hg2). simpl.
  destruct r3 as [|c3 r4]; [reflexivity|].
  destruct (decide (c3 = "."%char)) as [-> |Hc3];
    [|destruct c3 as [[] [] [] [] [] [] [] []]; (discriminate || congruence)].
  destruct (spanDigits r4) as [g3 r5] eqn:H3.
  apply spanDigits_inv in H3 as (-> & Hg3 & _).
  case_decide; [discriminate|].
  case_decide as Hr5; [|discriminate]. subst r5.
  intros _. simpl. rewrite versionChars_app, (allDigits_versionChars g3 Hg3).
  reflexivity.
Qed.

(** ** [parseVersion] *)

(** What [parseVersion] returns for a text the expression rejects. *)
Definition unparsed (rev : Revision) : PgVersion :=
  match rev with RevPq => 0 | RevPgx => NoVersion end.

(** A text with a character that is neither a digit nor a dot, such as
    "11beta1" or "10.5 (Debian 10.5-1)", is no version: the older
    revision reads it as 0, the later one as [NoVersion]. *)
Theorem parseVersion_rejects rev s :
  versionChars s = false → parseVersion rev s = unparsed rev.
Proof.
  intros Hs. unfold parseVersion.
  destruct (FindStringSubmatch s) as [g|] eqn:Hm; [|reflexivity].
  apply FindStringSubmatch_chars in Hm. congruence.
Qed.

Lemma parseVersion_rejects_witness :
  parseVersion RevPgx "10.5 (Debian 10.5-1)" = NoVersion.
Proof. apply (parseVersion_rejects RevPgx "10.5 (Debian 10.5-1)"). reflexivity. Defined.

Lemma isDigit_value c : isDigit c = true → 0 ≤ digitValue c ≤ 9.
Proof.
  unfold isDigit, digitValue.
  intros [H1 H2]%andb_true_iff.
  apply N.leb_le in H1. apply N.leb_le in H2. lia.
Qed.

Lemma digitsValue_bounds s : ∀ acc,
  allDigits s = true → 0 ≤ acc → acc ≤ digitsValue s acc.
Proof.
  induction s as [|c s IH]; intros acc Hs Hacc; simpl in *; [lia|].
  apply andb_true_iff in Hs as [Hc Hs]. apply isDigit_value in Hc.
  specialize (IH (10 * acc + digitValue c) Hs). lia.
Qed.

Lemma Atoi_nonneg s : allDigits s = true → 0 ≤ Atoi s.
Proof.
  intros Hs. unfold Atoi, MaxInt64.
  pose proof (digitsValue_bounds s 0 Hs). lia.
Qed.

(** Writes the powers that bound the integers as numerals, for [lia]. *)
Ltac numerals :=
  change (10 ^ 14) with 100000000000000 in *;
  change (2 ^ 63) with 9223372036854775808 in *;
  change (2 ^ 64) with 18446744073709551616 in *.

Lemma wrap64_small x : - 2 ^ 63 ≤ x < 2 ^ 63 → wrap64 x = x.
Proof. intros Hx. unfold wrap64. rewrite Z.mod_small; lia. Qed.

(** Removes the wrap-around from sums that stay in range, inside out. *)
Ltac unwrap :=
  repeat match goal with
  | |- context [wrap64 ?x] =>
      lazymatch x with
      | context [wrap64 _] => fail
      | _ => rewrite (wrap64_small x) by (numerals; lia)
      end
  end.

(** The value of a version text with components below 10^14: a major
    version above 9 takes the second component as it is and ignores the
    third; a major version up to 9 counts the second a hundredfold and
    adds the third. *)
Theorem parseVersion_value rev a b c :
  allDigits a = true → a ≠ "" →
  allDigits b = true → b ≠ "" →
  allDigits c = true → c ≠ "" →
  Atoi a < 10 ^ 14 → Atoi b < 10 ^ 14 → Atoi c < 10 ^ 14 →
  parseVersion rev a = Atoi a * 10000 ∧
  parseVersion rev (a +:+ "." +:+ b)
    = (if decide (Atoi a > 9) then Atoi a * 10000 + Atoi b
       else Atoi a * 10000 + Atoi b * 100) ∧
  parseVersion rev (a +:+ "." +:+ b +:+ "." +:+ c)
    = (if decide (Atoi a > 9) then Atoi a * 10000 + Atoi b
       else Atoi a * 10000 + Atoi b * 100 + Atoi c).
Proof.
  intros Ha Hna Hb Hnb Hc Hnc HA HB HC.
  destruct (FindStringSubmatch_shapes a b c Ha Hna Hb Hnb Hc Hnc)
    as (H1 & H2 & H3).
  pose proof (Atoi_nonneg a Ha). pose proof (Atoi_nonneg b Hb).
  pose proof (Atoi_nonneg c Hc).
  unfold parseVersion. rewrite H1, H2, H3.
  rewrite !(decide_True (P := a ≠ "")) by assumption.
  rewrite !(decide_True (P := b ≠ "")) by assumption.
  rewrite !(decide_True (P := c ≠ "")) by assumption.
  rewrite (decide_False (P := Atoi a > 9 ∧ "" ≠ "")) by (intros [_ ?]; congruence).
  rewrite (decide_False (P := "" ≠ "")) by congruence.
  split_and!.
  - now unwrap.
  - destruct (decide (Atoi a > 9)).
    + rewrite decide_True by auto. now unwrap.
    + rewrite decide_False by tauto. now unwrap.
  - destruct (decide (Atoi a > 9)).
    + rewrite decide_True by auto. now unwrap.
    + rewrite decide_False by tauto. now unwrap.
Qed.

Lemma parseVersion_value_witness :
  parseVersion RevPq "9" = 9 * 10000 ∧
  parseVersion RevPq ("9" +:+ "." +:+ "6") = 9 * 10000 + 6 * 100 ∧
  parseVersion RevPq ("9" +:+ "." +:+ "6" +:+ "." +:+ "10") = 9 * 10000 + 6 * 100 + 10.
Proof.
  apply (parseVersion_value RevPq "9" "6" "10"); try reflexivity; discriminate.
Defined.

(** ** Printing and reading back *)

Lemma allDigits_app s t : allDigits (s +:+ t) = allDigits s && allDigits t.
Proof.
  induction s as [|c s IH]; [reflexivity|].
  rewrite app_cons. simpl. now rewrite IH, andb_assoc.
Qed.

Lemma digitsValue_app s t : ∀ acc,
  digitsValue (s +:+ t) acc = digitsValue t (digitsValue s acc).
Proof.
  induction s as [|c s IH]; intros acc; [reflexivity|].
  rewrite app_cons. simpl. apply IH.
Qed.

Lemma pretty_N_char_digit x :
  (x < 10)%N →
  isDigit (pretty_N_char x) = true ∧ digitValue (pretty_N_char x) = Z.of_N x.
Proof.
  intros Hx. rewrite <- (N2Nat.id x).
  assert (Hn : (N.to_nat x < 10)%nat) by lia.
  destruct (N.to_nat x) as [|n]; [split; reflexivity|].
  do 9 (destruct n as [|n]; [split; reflexivity|]). lia.
Qed.

Lemma pretty_N_go_app x : ∀ s, pretty_N_go x s = pretty_N_go x "" +:+ s.
Proof.
  induction (N.lt_wf_0 x) as [x _ IH]; intros s.
  destruct (decide (x = 0%N)) as [-> |Hx]; [reflexivity|].
  assert (Hlt : (x `div` 10 < x)%N) by (apply N.div_lt; lia).
  rewrite !(pretty_N_go_step x) by lia.
  rewrite (IH _ Hlt (String _ s)), (IH _ Hlt (String _ "")).
  now rewrite app_assoc.
Qed.

Lemma pretty_N_go_digits x :
  allDigits (pretty_N_go x "") = true ∧
  digitsValue (pretty_N_go x "") 0 = Z.of_N x.
Proof.
  induction (N.lt_wf_0 x) as [x _ IH].
  destruct (decide (x = 0%N)) as [-> |Hx]; [split; reflexivity|].
  rewrite (pretty_N_go_step x) by lia. rewrite pretty_N_go_app.
  destruct (IH (x `div` 10)%N) as [Hd Hv]; [apply N.div_lt; lia|].
  destruct (pretty_N_char_digit (x `mod` 10)%N) as [Hc Hcv];
    [apply N.mod_lt; lia|].
  split.
  - rewrite allDigits_app, Hd. simpl. now rewrite Hc.
  - rewrite digitsValue_app, Hv. simpl. rewrite Hcv.
    rewrite (N.div_mod x 10) at 3 by lia. lia.
Qed.

Lemma pretty_N_go_nonempty x : (0 < x)%N → pretty_N_go x "" ≠ "".
Proof.
  intros Hx. rewrite (pretty_N_go_step x) by assumption.
  rewrite pretty_N_go_app.
  destruct (pretty_N_go (x `div` 10) ""); discriminate.
Qed.

(** A number that is not negative prints as its digits. *)
Lemma FormatInt_digits n :
  0 ≤ n →
  allDigits (FormatInt n) = true ∧ FormatInt n ≠ "" ∧
  digitsValue (FormatInt n) 0 = n.
Proof.
  intros Hn. destruct n as [|p|p]; [split_and!; (reflexivity || discriminate)| |lia].
  unfold FormatInt, pretty, pretty_Z, pretty, pretty_positive, pretty, pretty_N.
  rewrite decide_False by discriminate.
  destruct (pretty_N_go_digits (N.pos p)) as [Hd Hv].
  split_and!; [exact Hd | apply pretty_N_go_nonempty; lia | exact Hv].
Qed.

(** Reading back what [String()] prints: a version below 10.0 (100000)
    comes back as it was; from 10.0 on the text has a middle component the
    reader adds unscaled, and the last two digits are lost. *)
Theorem parseVersion_String rev v :
  0 ≤ v ≤ MaxInt64 →
  parseVersion rev (PgVersion_String v)
  = if decide (v < 100000) then v
    else v `div` 10000 * 10000 + (v `div` 100) `mod` 100.
Proof.
  intros Hv. unfold MaxInt64 in Hv. numerals.
  assert (HA : 0 ≤ v ÷ 10000) by (apply Z.quot_pos; lia).
  assert (HB : 0 ≤ (v ÷ 100) `rem` 100)
    by (apply Z.rem_nonneg; [lia | apply Z.quot_pos; lia]).
  assert (HC : 0 ≤ v `rem` 100) by (apply Z.rem_nonneg; lia).
  destruct (FormatInt_digits _ HA) as (Ha & Hna & Hva).
  destruct (FormatInt_digits _ HB) as (Hb & Hnb & Hvb).
  destruct (FormatInt_digits _ HC) as (Hc & Hnc & Hvc).
  assert (Hqa : v ÷ 10000 = v `div` 10000) by (apply Z.quot_div_nonneg; lia).
  assert (Hqb : (v ÷ 100) `rem` 100 = (v `div` 100) `mod` 100).
  { rewrite Z.quot_div_nonneg by lia.
    apply Z.rem_mod_nonneg; [apply Z.div_pos; lia | lia]. }
  assert (Hqc : v `rem` 100 = v `mod` 100) by (apply Z.rem_mod_nonneg; lia).
  assert (Hdd : v `div` 10000 = (v `div` 100) `div` 100)
    by (rewrite Z.div_div by lia; reflexivity).
  pose proof (Z.div_mod v 100 ltac:(lia)) as E1.
  pose proof (Z.div_mod (v `div` 100) 100 ltac:(lia)) as E2.
  pose proof (Z.mod_pos_bound v 100 ltac:(lia)) as B1.
  pose proof (Z.mod_pos_bound (v `div` 100) 100 ltac:(lia)) as B2.
  assert (HAa : Atoi (FormatInt (v ÷ 10000)) = v `div` 10000)
    by (unfold Atoi, MaxInt64; rewrite Hva; numerals; lia).
  assert (HAb : Atoi (FormatInt ((v ÷ 100) `rem` 100)) = (v `div` 100) `mod` 100)
    by (unfold Atoi, MaxInt64; rewrite Hvb; numerals; lia).
  assert (HAc : Atoi (FormatInt (v `rem` 100)) = v `mod` 100)
    by (unfold Atoi, MaxInt64; rewrite Hvc; numerals; lia).
  unfold PgVersion_String, parseVersion.
  rewrite (proj2 (proj2 (FindStringSubmatch_shapes _ _ _ Ha Hna Hb Hnb Hc Hnc))).
  rewrite !(decide_True (P := FormatInt (v ÷ 10000) ≠ "")) by assumption.
  rewrite HAa, HAb, HAc.
  destruct (decide (v < 100000)) as [Hlt|Hge].
  - rewrite decide_False by lia.
    rewrite !(decide_True (P := FormatInt _ ≠ "")) by assumption.
    unwrap. lia.
  - rewrite decide_True by (split; [lia | assumption]).
    unwrap. reflexivity.
Qed.

Lemma parseVersion_String_witness :
  parseVersion RevPq (PgVersion_String 90610) = 90610 ∧
  parseVersion RevPq (PgVersion_String 110002) = 110000.
Proof.
  split.
  - apply (parseVersion_String RevPq 90610). unfold MaxInt64. lia.
  - apply (parseVersion_String RevPq 110002). unfold MaxInt64. lia.
Defined.

(** ** Version ranges *)

Lemma Split_nonempty s : Split s ≠ [].
Proof.
  destruct s as [|c s]; simpl; [discriminate|].
  case_decide; [discriminate|]. destruct (Split s); discriminate.
Qed.

Lemma Split_noDash s : noDash s = true → Split s = [s].
Proof.
  induction s as [|c s IH]; simpl; [reflexivity|].
  intros [Hc Hs]%andb_true_iff.
  apply negb_true_iff, bool_decide_eq_false in Hc.
  rewrite decide_False by assumption. now rewrite IH.
Qed.

Lemma Split_dash a rest :
  noDash a = true → Split (a +:+ "-" +:+ rest) = a :: Split rest.
Proof.
  induction a as [|c a IH]; [reflexivity|].
  rewrite app_cons. simpl. intros [Hc Ha]%andb_true_iff.
  apply negb_true_iff, bool_decide_eq_false in Hc.
  rewrite decide_False by assumption. now rewrite IH.
Qed.

Lemma app_dash_nonempty a rest : a +:+ "-" +:+ rest ≠ "".
Proof. destruct a; discriminate. Qed.

Lemma parseVersionRange_single rev a :
  noDash a = true → a ≠ "" →
  parseVersionRange rev a = (parseVersion rev a, parseVersion rev a).
Proof.
  intros Ha Hna. unfold parseVersionRange.
  rewrite decide_False by assumption.
  rewrite (Split_noDash a Ha). simpl.
  try rewrite (decide_True (P := _ = 1%nat)) by reflexivity. reflexivity.
Qed.

(** The key of a version-specific query: one version gives that version
    as both bounds; "a-b" gives the two versions, an empty side being 0;
    what follows a second dash is ignored. *)
Theorem parseVersionRange_shapes rev a b tail :
  noDash a = true → noDash b = true →
  (a ≠ "" → parseVersionRange rev a = (parseVersion rev a, parseVersion rev a)) ∧
  parseVersionRange rev (a +:+ "-" +:+ b)
    = (if decide (a = "") then 0 else parseVersion rev a,
       if decide (b = "") then 0 else parseVersion rev b) ∧
  parseVersionRange rev (a +:+ "-" +:+ b +:+ "-" +:+ tail)
    = parseVersionRange rev (a +:+ "-" +:+ b).
Proof.
  intros Ha Hb.
  assert (Htwo : parseVersionRange rev (a +:+ "-" +:+ b)
                 = (if decide (a = "") then 0 else parseVersion rev a,
                    if decide (b = "") then 0 else parseVersion rev b)).
  { unfold parseVersionRange.
    rewrite decide_False by apply app_dash_nonempty.
    rewrite (Split_dash a b Ha), (Split_noDash b Hb). simpl.
    try rewrite (decide_False (P := _ = 1%nat)) by discriminate.
    repeat case_decide; first [reflexivity | contradiction]. }
  split_and!.
  - now apply parseVersionRange_single.
  - exact Htwo.
  - rewrite Htwo. unfold parseVersionRange.
    rewrite decide_False by apply app_dash_nonempty.
    rewrite (Split_dash a _ Ha), (Split_dash b _ Hb). simpl.
    pose proof (Split_nonempty tail) as Ht.
    destruct (Split tail) as [|t ts]; [contradiction|]. simpl.
    try rewrite (decide_False (P := _ = 1%nat)) by discriminate.
    repeat case_decide; first [reflexivity | contradiction].
Qed.

Lemma parseVersionRange_shapes_witness :
  parseVersionRange RevPq "9.6" = (parseVersion RevPq "9.6", parseVersion RevPq "9.6") ∧
  parseVersionRange RevPq ("9.4" +:+ "-" +:+ "") = (parseVersion RevPq "9.4", 0).
Proof.
  destruct (parseVersionRange_shapes RevPq "9.6" "" "" eq_refl eq_refl) as (H1 & _).
  destruct (parseVersionRange_shapes RevPq "9.4" "" "" eq_refl eq_refl) as (_ & H2 & _).
  split; [apply H1; discriminate | exact H2].
Defined.

(** A variant whose key is one version has that version as lower and as
    upper bound, and the upper bound is exclusive: the variant's range
    holds no version, and on its own it resolves to no SQL for any
    detected version. *)
Theorem single_version_key_never_in_range rev s sql :
  noDash s = true → s ≠ "" → parseVersion rev s ≠ 0 →
  let variant := {| SQL := sql;
                    MinVer := fst (parseVersionRange rev s);
                    MaxVer := snd (parseVersionRange rev s) |} in
  (∀ V, inRange V variant = false) ∧
  (∀ V, V ≠ NoVersion → VerSQLs_Query [variant] V = Some "").
Proof.
  intros Hs Hne Hv variant.
  pose proof (parseVersionRange_single rev s Hs Hne) as Hone.
  assert (Hrange : ∀ V, inRange V variant = false).
  { intros V. unfold inRange, variant. simpl. rewrite Hone. simpl.
    apply Z.eqb_neq in Hv. rewrite Hv, !orb_false_r.
    destruct (Z.leb_spec (parseVersion rev s) V),
             (Z.ltb_spec V (parseVersion rev s)); simpl; try reflexivity. lia. }
  split; [exact Hrange|].
  intros V HV. rewrite Query_detected by assumption. simpl.
  now rewrite Hrange.
Qed.

Lemma single_version_key_never_in_range_witness :
  VerSQLs_Query
    [ {| SQL := "select 1";
         MinVer := fst (parseVersionRange RevPq "9.6");
         MaxVer := snd (parseVersionRange RevPq "9.6") |} ] 90600
  = Some "".
Proof.
  apply (single_version_key_never_in_range RevPq "9.6" "select 1");
    first [reflexivity | discriminate].
Defined.

End version_facts.

(* ===================================================================== *)
(** * The resolver and the order of the variants                          *)
(* ===================================================================== *)

(** A run time that visits a map in the opposite order of the reference
    one. *)
Module reversed.

#[export] Instance runtime : Runtime := {|
  ParseFloat := reference.parseFloat;
  FormatFloat := reference.formatFloat;
  rangeOrder := λ A m, reverse (map_to_list m);
  rangeOrder_perm := λ A m, reverse_Permutation (map_to_list m)
|}.

End reversed.

Module resolver_facts.
Import config config_facts version version_facts.

Lemma rangeLoop_cases v V :
  (rangeLoop v V = "" ∧ Forall (λ e, ¬ InRange V e) v) ∨
  (∃ e, e ∈ v ∧ InRange V e ∧ rangeLoop v V = SQL e).
Proof.
  induction v as [|q v IH]; simpl.
  - left. split; [reflexivity | constructor].
  - destruct (inRange V q) eqn:Hq.
    + right. exists q. split_and!; [left | now apply inRange_spec | reflexivity].
    + apply inRange_false in Hq. destruct IH as [[Hnone Hall]|(e & He & Hr & Hsql)].
      * left. split; [assumption | now constructor].
      * right. exists e. split_and!; [now right | assumption | assumption].
Qed.

Lemma rangeLoop_perm (v v' : VerSQLs) V :
  v ≡ₚ v' →
  (∀ e1 e2, e1 ∈ v → e2 ∈ v → InRange V e1 → InRange V e2 → SQL e1 = SQL e2) →
  rangeLoop v V = rangeLoop v' V.
Proof.
  intros Hperm Hone.
  destruct (rangeLoop_cases v V) as [[-> Hall]|(e & He & Hr & ->)],
           (rangeLoop_cases v' V) as [[-> Hall']|(e' & He' & Hr' & ->)].
  - reflexivity.
  - rewrite <- Hperm in He'. rewrite Forall_forall in Hall.
    destruct (Hall e' He' Hr').
  - rewrite Hperm in He. rewrite Forall_forall in Hall'.
    destruct (Hall' e He Hr).
  - rewrite <- Hperm in He'. now apply Hone.
Qed.

(** For a detected version that at most one SQL text is in range of, the
    resolver gives the same answer in whatever order the variants stand. *)
Theorem Query_permutation (v v' : VerSQLs) V :
  v ≡ₚ v' → V ≠ NoVersion →
  (∀ e1 e2, e1 ∈ v → e2 ∈ v → InRange V e1 → InRange V e2 → SQL e1 = SQL e2) →
  VerSQLs_Query v V = VerSQLs_Query v' V.
Proof.
  intros Hperm HV Hone. rewrite !Query_detected by assumption. f_equal.
  now apply rangeLoop_perm.
Qed.

Lemma Query_permutation_witness :
  VerSQLs_Query exampleVariants 90500 = VerSQLs_Query (reverse exampleVariants) 90500.
Proof.
  apply Query_permutation.
  - symmetry. apply reverse_Permutation.
  - unfold NoVersion. lia.
  - intros e1 e2 H1 H2 R1 R2. unfold exampleVariants in *.
    repeat (apply elem_of_cons in H1 as [-> |H1]);
      repeat (apply elem_of_cons in H2 as [-> |H2]);
      try (now apply elem_of_nil in H1); try (now apply elem_of_nil in H2);
      try reflexivity; unfold InRange in *; simpl in *; lia.
Defined.

(** Without a detected version the first variant is taken, so the answer
    does depend on the order. *)
Example Query_NoVersion_order :
  VerSQLs_Query exampleVariants NoVersion = Some "A" ∧
  VerSQLs_Query (reverse exampleVariants) NoVersion = Some "B".
Proof. split; reflexivity. Qed.

(** ** Decoding the variants of a query file *)

(** The variant a key and its SQL text make. *)
Definition variantOf (rev : Revision) (entry : string * option string) : VerSQL :=
  {| SQL := default "" entry.2;
     MinVer := fst (parseVersionRange rev entry.1);
     MaxVer := snd (parseVersionRange rev entry.1) |}.

Lemma unmarshal_fold rev (l : list (string * option string)) : ∀ acc,
  foldl (λ res '(k, v),
           res ← res; sql ← v;
           let '(minPg, maxPg) := parseVersionRange rev k in
           Some (res ++ [ {| MinVer := minPg; MaxVer := maxPg; SQL := sql |} ]))
        acc l
  = if decide (Forall (λ entry, is_Some entry.2) l)
    then (λ res, res ++ map (variantOf rev) l) <$> acc
    else None.
Proof.
  induction l as [|[k v] l IH]; intros acc; cbn [foldl].
  - destruct (decide _) as [_|Hn]; [|destruct Hn; constructor].
    destruct acc as [res|]; simpl; [now rewrite List.app_nil_r | reflexivity].
  - rewrite IH.
    destruct (decide (Forall (λ entry, is_Some entry.2) l)) as [Hl|Hl],
             (decide (Forall (λ entry, is_Some entry.2) ((k, v) :: l))) as [Hkl|Hkl].
    + inversion Hkl as [|? ? [sql Hsql] _]; subst. simpl in Hsql. subst v.
      destruct acc as [res|]; simpl; [|reflexivity].
      unfold variantOf at 2. simpl.
      destruct (parseVersionRange rev k) as [minPg maxPg]. simpl.
      now rewrite <- List.app_assoc.
    + destruct v as [sql|];
        [destruct Hkl; constructor; [eexists; reflexivity | assumption]|].
      destruct acc; reflexivity.
    + inversion Hkl; contradiction.
    + reflexivity.
Qed.

Section Unmarshal.
Context `{Runtime}.
Variable rev : Revision.

Lemma unmarshal_perm (entries : gmap string (option string)) v :
  UnmarshalYAML rev (YMapping entries) = Some v →
  v ≡ₚ map (variantOf rev) (map_to_list entries).
Proof.
  unfold UnmarshalYAML. rewrite unmarshal_fold.
  case_decide; [|discriminate]. simpl. intros [= <-].
  apply Permutation_map, rangeOrder_perm.
Qed.

(** Decoding a mapping of version keys panics exactly when one of its
    values is no string; otherwise it gives one variant for every key,
    with the key's range and the key's text, in the order the mapping
    happens to be visited. *)
Theorem UnmarshalYAML_mapping (entries : gmap string (option string)) :
  (UnmarshalYAML rev (YMapping entries) = None ↔ ∃ k, entries !! k = Some None) ∧
  (∀ v, UnmarshalYAML rev (YMapping entries) = Some v →
        v ≡ₚ map (variantOf rev) (map_to_list entries) ∧
        length v = size entries).
Proof.
  unfold UnmarshalYAML. rewrite unmarshal_fold. split.
  - case_decide as Hall; simpl.
    + split; [discriminate|]. intros (k & Hk).
      rewrite Forall_forall in Hall.
      assert (Hin : (k, None) ∈ rangeOrder entries).
      { rewrite (rangeOrder_perm _ entries). now apply elem_of_map_to_list. }
      destruct (Hall _ Hin) as [? [=]].
    + split; [|reflexivity]. intros _.
      apply not_Forall_Exists in Hall; [|intros [? []]; [left; eauto | right; intros [? [=]]]].
      apply Exists_exists in Hall as ([k [sql|]] & Hin & Hnone);
        [destruct Hnone; eexists; reflexivity|].
      exists k. apply elem_of_map_to_list.
      now rewrite <- (rangeOrder_perm _ entries).
  - intros v. case_decide; [|discriminate]. simpl. intros [= <-]. split.
    + apply Permutation_map, rangeOrder_perm.
    + rewrite length_map, (rangeOrder_perm _ entries). apply length_map_to_list.
Qed.

End Unmarshal.

(** Variants decoded from one mapping under two visiting orders resolve
    alike for every detected version that at most one SQL text is in
    range of. *)
Theorem UnmarshalYAML_order_irrelevant (R1 R2 : Runtime) rev
    (entries : gmap string (option string)) v1 v2 V :
  UnmarshalYAML (H := R1) rev (YMapping entries) = Some v1 →
  UnmarshalYAML (H := R2) rev (YMapping entries) = Some v2 →
  V ≠ NoVersion →
  (∀ e1 e2, e1 ∈ v1 → e2 ∈ v1 → InRange V e1 → InRange V e2 → SQL e1 = SQL e2) →
  VerSQLs_Query v1 V = VerSQLs_Query v2 V.
Proof.
  intros H1 H2 HV Hone. rewrite !Query_detected by assumption. f_equal.
  apply rangeLoop_perm; [|assumption].
  rewrite (unmarshal_perm (H := R1) rev entries v1 H1).
  now rewrite (unmarshal_perm (H := R2) rev entries v2 H2).
Qed.

(** The mapping of the documented pg_slots query. *)
Definition slotsMapping : gmap string (option string) :=
  <[ "10-" := Some "select pg_current_wal_lsn()" ]>
  {[ "9.4-10" := Some "select pg_current_xlog_location()" ]}.

Definition slotsForward : VerSQLs :=
  Eval vm_compute in
    default [] (UnmarshalYAML (H := reference.runtime) RevPq (YMapping slotsMapping)).

Definition slotsBackward : VerSQLs :=
  Eval vm_compute in
    default [] (UnmarshalYAML (H := reversed.runtime) RevPq (YMapping slotsMapping)).

Lemma UnmarshalYAML_mapping_witness :
  slotsForward ≡ₚ map (variantOf RevPq) (map_to_list slotsMapping) ∧
  length slotsForward = size slotsMapping.
Proof.
  apply (proj2 (UnmarshalYAML_mapping (H := reference.runtime) RevPq slotsMapping)).
  vm_compute. reflexivity.
Defined.

Lemma UnmarshalYAML_order_irrelevant_witness :
  VerSQLs_Query slotsForward 90600 = VerSQLs_Query slotsBackward 90600.
Proof.
  apply (UnmarshalYAML_order_irrelevant reference.runtime reversed.runtime RevPq
           slotsMapping).
  - vm_compute. reflexivity.
  - vm_compute. reflexivity.
  - unfold NoVersion. lia.
  - intros e1 e2 H1 H2 R1 R2. unfold slotsForward in *.
    repeat (apply elem_of_cons in H1 as [-> |H1]);
      repeat (apply elem_of_cons in H2 as [-> |H2]);
      try (now apply elem_of_nil in H1); try (now apply elem_of_nil in H2);
      try reflexivity; unfold InRange in *; simpl in *; lia.
Defined.

Example slots_orders :
  SQL <$> slotsForward ≠ SQL <$> slotsBackward ∧
  VerSQLs_Query slotsForward 90600 = Some "select pg_current_xlog_location()".
Proof. split; [discriminate | reflexivity]. Qed.

End resolver_facts.

(* ===================================================================== *)
(** * Properties of [Db.Exec]                                             *)
(* ===================================================================== *)

Module exec_facts.
Import config db.

(** ** Rows *)

Lemma mkRow_from (rawData : list Value) (cols : list string) c :
  ∀ (f : nat → nat) (row : gmap string Value),
  c ∉ cols →
  foldl (λ row '(colId, colName),
           <[colName := default VNil (rawData !! colId)]> row)
        row (imap (λ i col, (f i, col)) cols) !! c
  = row !! c.
Proof.
  induction cols as [|col cols IH]; intros f row Hc; [reflexivity|].
  apply not_elem_of_cons in Hc as [Hne Hc].
  rewrite imap_cons. cbn [foldl].
  etrans; [apply (IH (λ i, f (S i)) _ Hc)|].
  apply lookup_insert_ne. congruence.
Qed.

Lemma mkRow_keys (rawData : list Value) (cols : list string) :
  ∀ (f : nat → nat) (row : gmap string Value) k,
  k ∈ dom (foldl (λ row '(colId, colName),
                    <[colName := default VNil (rawData !! colId)]> row)
                 row (imap (λ i col, (f i, col)) cols))
  ↔ k ∈ cols ∨ k ∈ dom row.
Proof.
  induction cols as [|col cols IH]; intros f row k.
  - simpl. rewrite elem_of_nil. tauto.
  - rewrite imap_cons. cbn [foldl].
    etrans; [apply (IH (λ i, f (S i)))|].
    rewrite dom_insert, elem_of_union, elem_of_singleton, elem_of_cons. tauto.
Qed.

(** A row made by the lib/pq [Exec] has the column names as its keys, and
    under a name that several columns share it holds the value of the
    last of them. *)
Theorem mkRow_last_column_wins (pre post : list string) c (rawData : list Value) :
  c ∉ post →
  (∀ k, k ∈ dom (pq.mkRow (pre ++ c :: post) rawData) ↔ k ∈ pre ++ c :: post) ∧
  pq.mkRow (pre ++ c :: post) rawData !! c
    = Some (default VNil (rawData !! length pre)).
Proof.
  intros Hc. unfold pq.mkRow. split.
  - intros k. etrans; [apply (mkRow_keys rawData _ (λ i, i))|].
    rewrite dom_empty, elem_of_empty. tauto.
  - rewrite imap_app, foldl_app. rewrite imap_cons. cbn [foldl].
    etrans; [apply (mkRow_from rawData post c (λ i, length pre + S i)%nat _ Hc)|].
    rewrite Nat.add_0_r. apply lookup_insert_eq.
Qed.

Lemma mkRow_last_column_wins_witness :
  pq.mkRow (["id"] ++ "id" :: ["name"]) [VInt Int64 1; VInt Int64 2; VString "x"] !! "id"
  = Some (default VNil ([VInt Int64 1; VInt Int64 2; VString "x"] !! length ["id"])).
Proof.
  apply (mkRow_last_column_wins ["id"] ["name"] "id").
  intros Hin. apply list_elem_of_singleton in Hin. discriminate.
Defined.

(** ** All rows or an error *)

Lemma scanLoop_result cols scans : ∀ values rows err,
  pq.scanLoop cols scans values = (rows, err) →
  match err with
  | Some _ => rows = [] ∧ Exists (λ scan, is_Some scan.2) scans
  | None => rows = values ++ map (λ scan, pq.mkRow cols scan.1) scans ∧
            Forall (λ scan, scan.2 = None) scans
  end.
Proof.
  induction scans as [|[rawData scanErr] scans IH]; intros values rows err; simpl.
  - intros [= <- <-]. rewrite List.app_nil_r. auto.
  - destruct scanErr as [e|].
    + intros [= <- <-]. split; [reflexivity|]. left. eexists; reflexivity.
    + intros Hloop. apply IH in Hloop. destruct err as [e|].
      * destruct Hloop as [-> Hex]. split; [reflexivity | now right].
      * destruct Hloop as [-> Hall]. split; [|now constructor].
        now rewrite <- List.app_assoc.
Qed.

Lemma nextLoop_result cols steps : ∀ values r,
  pgx.nextLoop cols steps values = Some r →
  match r with
  | inl (rows, err) => rows = [] ∧ is_Some err
  | inr rows => length rows = (length values + length steps)%nat
  end.
Proof.
  induction steps as [|[rErr [rawData err]] steps IH]; intros values r; simpl.
  - intros [= <-]. lia.
  - destruct rErr as [e|]; [intros [= <-]; split; [reflexivity | eexists; reflexivity]|].
    destruct err as [e|]; [intros [= <-]; split; [reflexivity | eexists; reflexivity]|].
    destruct (pgx.mkRow cols rawData) as [row|]; simpl; [|discriminate].
    intros Hloop. apply IH in Hloop. destruct r as [[rows e]|rows]; [assumption|].
    rewrite length_app in Hloop. simpl in Hloop. lia.
Qed.

(** [Exec] never returns rows together with an error: a failure in the
    middle of a result set drops the rows already read.  When it returns
    no error it returns one row for every row of the result set. *)
Theorem Exec_rows_or_error :
  (∀ d query rows err,
     pq.Exec d query = Some (rows, Some err) → rows = []) ∧
  (∀ d query rows,
     pq.Exec d query = Some (rows, None) →
     ∃ rs cols, pq.Query d query = (rs, None) ∧ pq.Columns rs = (cols, None) ∧
                rows = map (λ scan, pq.mkRow cols scan.1) (pq.Scans rs)) ∧
  (∀ d query rows err,
     pgx.Exec d query = Some (rows, Some err) → rows = []) ∧
  (∀ d query rows,
     pgx.Exec d query = Some (rows, None) →
     ∃ rs, pgx.Query d query = (rs, None) ∧ pgx.Err rs = None ∧
           length rows = length (pgx.Steps rs)).
Proof.
  split_and!.
  - intros d query rows err. unfold pq.Exec.
    destruct (pq.Query d query) as [rs [e|]].
    + destruct e; try discriminate.
      case_match; intros [= <- _]; reflexivity.
    + destruct (pq.Columns rs) as [cols [e|]]; [intros [= <- _]; reflexivity|].
      intros [= Hloop]. now apply scanLoop_result in Hloop as [-> _].
  - intros d query rows. unfold pq.Exec.
    destruct (pq.Query d query) as [rs [e|]].
    + destruct e; try discriminate. case_match; discriminate.
    + destruct (pq.Columns rs) as [cols [e|]] eqn:Hcols; [discriminate|].
      intros [= Hloop]. apply scanLoop_result in Hloop as [-> _].
      exists rs, cols. auto.
  - intros d query rows err. unfold pgx.Exec.
    destruct (pgx.Query d query) as [rs [e|]]; [intros [= <- _]; reflexivity|].
    destruct (pgx.nextLoop _ _ _) as [[[rows' e]|rows']|] eqn:Hloop; simpl;
      [| |discriminate].
    + apply nextLoop_result in Hloop as [-> _]. now intros [= <- _].
    + destruct (pgx.Err rs) as [e|]; [|discriminate].
      destruct e; try (intros [= <- _]; reflexivity).
      case_match; intros [= <- _]; reflexivity.
  - intros d query rows. unfold pgx.Exec.
    destruct (pgx.Query d query) as [rs [e|]]; [discriminate|].
    destruct (pgx.nextLoop _ _ _) as [[[rows' e]|rows']|] eqn:Hloop; simpl;
      [| |discriminate].
    + apply nextLoop_result in Hloop as [-> [e' ->]]. discriminate.
    + destruct (pgx.Err rs) as [e|] eqn:Herr.
      * destruct e; try discriminate. case_match; discriminate.
      * intros [= <-]. apply nextLoop_result in Hloop.
        exists rs. auto.
Qed.

(** A result set of two rows, the second of which fails to scan or not. *)
Definition twoRows (second : option error) : pq.Db :=
  {| pq.Query := λ _,
       ({| pq.Columns := (["n"], None);
           pq.Scans := [ ([VInt Int64 1], None); ([VInt Int64 2], second) ] |},
        None) |}.

Lemma Exec_rows_or_error_witness :
  (∀ rows err,
     pq.Exec (twoRows (Some (ErrorString "unsupported Scan"))) "select n"
       = Some (rows, Some err) → rows = []) ∧
  pq.Exec (twoRows (Some (ErrorString "unsupported Scan"))) "select n"
    = Some ([], Some (ErrorString "could not scan: unsupported Scan")) ∧
  ∃ rs cols,
    pq.Query (twoRows None) "select n" = (rs, None) ∧
    pq.Columns rs = (cols, None) ∧
    [ {[ "n" := VInt Int64 1 ]}; {[ "n" := VInt Int64 2 ]} ]
      = map (λ scan, pq.mkRow cols scan.1) (pq.Scans rs).
Proof.
  split_and!.
  - intros rows err. apply (proj1 Exec_rows_or_error).
  - reflexivity.
  - apply (proj1 (proj2 Exec_rows_or_error) (twoRows None) "select n").
    vm_compute. reflexivity.
Defined.

End exec_facts.

(* ===================================================================== *)
(** * More properties of the worker                                       *)
(* ===================================================================== *)

Module worker_facts.
Import config config_facts db pgcollector pgcollector_facts.

(** The values database/sql hands to [Scan] into an [interface{}]. *)
Definition driverValue (v : Value) : bool :=
  match v with
  | VNil | VInt Int64 _ | VFloat64 _ | VTime _ | VBool _ | VBytes _ | VString _ => true
  | _ => false
  end.

Section Worker.
Context `{Runtime}.
Variable rev : Revision.

(** ** Jobs without SQL *)

(** A job no variant of which is in range of the detected version, or
    whose variant in range has an empty text, is counted as one error and
    sends nothing, whatever the connection would answer; a job without
    variants on a connection without version panics, and the worker with
    it. *)
Theorem unresolved_job (conn : DbInterface) (job : workerJob) st :
  (jobVersion rev conn job ≠ NoVersion →
   Forall (λ e, ¬ InRange (jobVersion rev conn job) e) (QVerSQL (jobQuery job)) →
   runJob rev conn job st = Some (addError st)) ∧
  (VerSQLs_Query (QVerSQL (jobQuery job)) (jobVersion rev conn job) = Some "" →
   runJob rev conn job st = Some (addError st)) ∧
  (jobVersion rev conn job = NoVersion → QVerSQL (jobQuery job) = [] →
   ∀ jobs, worker rev conn (job :: jobs) st = None).
Proof.
  assert (Hempty : VerSQLs_Query (QVerSQL (jobQuery job)) (jobVersion rev conn job)
                   = Some "" → runJob rev conn job st = Some (addError st)).
  { intros Hq. unfold runJob. rewrite Hq. reflexivity. }
  split_and!.
  - intros HV Hnone. apply Hempty.
    rewrite Query_detected by assumption. f_equal. now apply rangeLoop_none.
  - exact Hempty.
  - intros HV Hv jobs. simpl. unfold runJob. rewrite HV, Hv. reflexivity.
Qed.

(** ** What is sent *)

(** A metric the job declares as a counter or a gauge. *)
Definition declared (job : workerJob) (m : prometheus.Metric) : Prop :=
  ∃ metric,
    Metrics (jobQuery job) !! prometheus.MetricName m = Some metric ∧
    prometheus.Namespace m = Name (jobQuery job) ∧
    prometheus.Help m = Description metric ∧
    ((Usage metric = Counter ∧ prometheus.MetricKind m = prometheus.CounterKind) ∨
     (Usage metric = Gauge ∧ prometheus.MetricKind m = prometheus.GaugeKind)).

Lemma createMetric_declared job name constLabels rawValue m err :
  createMetric rev job name constLabels rawValue = Some (Some m, err) →
  declared job m.
Proof.
  unfold createMetric, jobMetric, prometheus.counterAdd, prometheus.gaugeAdd.
  destruct (Metrics (jobQuery job) !! name) as [metric|] eqn:Hm; simpl;
    [|discriminate].
  destruct (Usage metric) eqn:Hu; try discriminate;
    destruct (ToFloat64 rev rawValue) as [val [e|]]; try discriminate;
    simpl; try (destruct (val <? 0)%float; simpl; try discriminate);
    intros [= <- _]; exists metric; simpl; auto 6.
Qed.

Lemma nameValueStep_news (P : prometheus.Metric → Prop) job constLabels row st :
  (∀ name v m err,
     createMetric rev job name constLabels v = Some (Some m, err) → P m) →
  ∀ m, m ∈ sent (fst (nameValueStep rev job constLabels row st)) →
       m ∈ sent st ∨ P m.
Proof.
  intros HP m. unfold nameValueStep.
  destruct (ToString rev _) as [metricName []]; simpl; [|now left].
  destruct (createMetric rev job metricName constLabels _) as [[[m'|] [e|]]|] eqn:Hc;
    simpl; try (now left).
  rewrite elem_of_app, list_elem_of_singleton. intros [?| ->]; [now left|].
  right. eapply HP, Hc.
Qed.

Lemma columnLoop_news (P : prometheus.Metric → Prop) job labels constLabels columns :
  (∀ name v m err,
     createMetric rev job name constLabels v = Some (Some m, err) → P m) →
  ∀ st m, m ∈ sent (fst (columnLoop rev job labels constLabels columns st)) →
          m ∈ sent st ∨ P m.
Proof.
  intros HP. induction columns as [|[colName colValue] columns IH]; intros st m; simpl.
  - now left.
  - repeat case_decide; try apply IH.
    destruct (createMetric rev job colName constLabels colValue)
      as [[[m'|] [e|]]|] eqn:Hc; simpl; try (now left); try apply IH.
    intros Hm. apply IH in Hm as [Hm|Hm]; [|now right].
    apply elem_of_app in Hm as [Hm|Hm]; [now left|].
    apply list_elem_of_singleton in Hm as ->.
    right. eapply HP, Hc.
Qed.

Lemma rowLoop_news (P : prometheus.Metric → Prop) job cols rows :
  (∀ name constLabels v m err,
     createMetric rev job name constLabels v = Some (Some m, err) → P m) →
  ∀ st m, m ∈ sent (fst (rowLoop rev job cols rows st)) → m ∈ sent st ∨ P m.
Proof.
  intros HP. induction rows as [|row rows IH]; intros st m; simpl; [now left|].
  assert (Hstep : ∀ m, m ∈ sent (fst (rowStep rev job cols row st)) →
                       m ∈ sent st ∨ P m).
  { intros m'. rewrite rowStep_result. unfold afterLabels.
    case_decide; intros Hm;
      [apply (nameValueStep_news P) in Hm | apply (columnLoop_news P) in Hm];
      try (intros; eapply HP; eassumption);
      rewrite sent_addErrors in Hm; exact Hm. }
  destruct (rowStep rev job cols row st) as [st' []]; simpl in *.
  - intros Hm. apply IH in Hm as [Hm|Hm]; [now apply Hstep | now right].
  - apply Hstep.
  - apply Hstep.
Qed.

Lemma runJob_declared (conn : DbInterface) (job : workerJob) st st' :
  runJob rev conn job st = Some st' →
  ∀ m, m ∈ sent st' → m ∈ sent st ∨ declared job m.
Proof.
  unfold runJob.
  destruct (VerSQLs_Query _ _) as [sql|]; simpl; [|discriminate].
  case_decide; [intros [= <-] m Hm; now left|].
  destruct (Exec conn sql) as [rows [err|]].
  - intros [= <-] m Hm. left. now destruct (decide (err = ErrQueryTimeout)).
  - destruct (rowLoop rev job (labelColumnsOf job) rows st) as [st1 flow] eqn:Hloop.
    intros Hrun m Hm.
    assert (st' = st1) by (destruct flow; congruence). subst st'.
    apply (rowLoop_news (declared job) job (labelColumnsOf job) rows);
      [|now rewrite Hloop].
    intros name constLabels v m' err. apply createMetric_declared.
Qed.

(** Every metric a worker sends while it goes through its jobs is one
    that the query of one of these jobs declares as a counter or a gauge:
    it has that query's name as namespace, a key of its metric
    definitions as name, that definition's description as help and its
    usage as kind.  A column or name no query declares, or one declared
    as label or discard, never becomes a metric. *)
Theorem sent_metrics_declared (conn : DbInterface) (jobs : list workerJob) :
  ∀ st st',
    worker rev conn jobs st = Some st' →
    ∀ m, m ∈ sent st' → m ∈ sent st ∨ ∃ job, job ∈ jobs ∧ declared job m.
Proof.
  induction jobs as [|job jobs IH]; intros st st'; simpl.
  - intros [= <-] m Hm. now left.
  - destruct (runJob rev conn job st) as [st1|] eqn:Hrun; simpl; [|discriminate].
    intros Hrest m Hm.
    destruct (IH _ _ Hrest m Hm) as [Hm1|(job' & Hjob' & Hdecl)].
    + destruct (runJob_declared conn job st st1 Hrun m Hm1) as [?|Hdecl];
        [now left|].
      right. exists job. split; [left | assumption].
    + right. exists job'. split; [now right | assumption].
Qed.

(** ** Rows in name/value mode *)

(** In name/value mode, take a row whose name is the key of a counter or
    a gauge and whose value converts.  For a gauge, and for a counter
    whose value is not below zero, the row makes exactly one metric: it
    is named by the row, carries the converted value and the merged
    labels, and the worker goes on with the next row.  For a counter
    whose value is below zero [Add] panics: nothing is sent for the row,
    and a job whose rows get as far as this one takes its worker down,
    whatever rows and jobs follow. *)
Theorem named_row_sends_one (job : workerJob) row name metric val st :
  NameColumn (jobQuery job) ≠ "" →
  ToString rev (rowGet row (NameColumn (jobQuery job))) = (name, true) →
  Metrics (jobQuery job) !! name = Some metric →
  Usage metric = Counter ∨ Usage metric = Gauge →
  ToFloat64 rev (rowGet row (ValueColumn (jobQuery job))) = (val, None) →
  let cols := labelColumnsOf job in
  let counted := addErrors (labelFailures rev row cols) st in
  (Usage metric = Gauge ∨ (val <? 0)%float = false →
   ∃ m,
     rowStep rev job cols row st = (send counted m, Next) ∧
     prometheus.MetricName m = name ∧
     prometheus.Namespace m = Name (jobQuery job) ∧
     prometheus.Help m = Description metric ∧
     prometheus.Added m = val ∧
     prometheus.ConstLabels m = labelsOf rev row cols ∪ dbLabels job ∧
     prometheus.MetricKind m
     = (if decide (Usage metric = Counter) then prometheus.CounterKind
        else prometheus.GaugeKind)) ∧
  (Usage metric = Counter → (val <? 0)%float = true →
   rowStep rev job cols row st = (counted, Panic) ∧
   ∀ (conn : DbInterface) sql before after st0 jobs,
     VerSQLs_Query (QVerSQL (jobQuery job)) (jobVersion rev conn job) = Some sql →
     sql ≠ "" →
     Exec conn sql = (before ++ row :: after, None) →
     rowLoop rev job cols before st0 = (st, Next) →
     runJob rev conn job st0 = None ∧
     worker rev conn (job :: jobs) st0 = None).
Proof.
  intros Hmode Hname Hmetric Husage Hval cols counted.
  assert (Hstep : rowStep rev job cols row st
                  = match createMetric rev job name
                            (mergeLabels (dbLabels job) (labelsOf rev row cols))
                            (rowGet row (ValueColumn (jobQuery job))) with
                    | None => (counted, Panic)
                    | Some (_, Some _) => (addError counted, ContinueJobs)
                    | Some (m, None) => (sendIfAny counted m, Next)
                    end).
  { rewrite rowStep_result. unfold afterLabels.
    rewrite decide_True by assumption.
    unfold nameValueStep. now rewrite Hname. }
  rewrite Hstep. unfold createMetric, jobMetric. rewrite Hmetric. simpl.
  rewrite Hval, mergeLabels_union.
  unfold prometheus.counterAdd, prometheus.gaugeAdd. split.
  - intros Hsafe.
    destruct Husage as [Hu|Hu]; rewrite Hu; simpl.
    + destruct Hsafe as [Hg| ->]; [congruence|]. simpl.
      eexists; split_and!; reflexivity.
    + eexists; split_and!; reflexivity.
  - intros Hu Hneg. rewrite Hu. simpl. rewrite Hneg. simpl.
    split; [reflexivity|].
    intros conn sql before after st0 jobs Hsql Hne Hexec Hbefore.
    assert (Hjob : runJob rev conn job st0 = None).
    { rewrite (runJob_rows rev conn job sql _ st0 Hsql Hne Hexec).
      fold cols. rewrite rowLoop_app, Hbefore. simpl.
      rewrite Hstep. unfold createMetric, jobMetric. rewrite Hmetric. simpl.
      rewrite Hval, Hu. unfold prometheus.counterAdd. rewrite Hneg. reflexivity. }
    split; [exact Hjob|]. simpl. now rewrite Hjob.
Qed.

(** ** Values of the driver's types *)

Lemma ToString_driverValue v : driverValue v = true → snd (ToString rev v) = true.
Proof. destruct rev, v as [|[]| | | | | | |]; simpl; congruence. Qed.

Lemma labelFailures_driver row cols :
  (∀ c, driverValue (rowGet row c) = true) → labelFailures rev row cols = O.
Proof.
  intros Hrow. unfold labelFailures.
  induction cols as [|c cols IH]; [reflexivity|]. simpl.
  unfold failing at 1. now rewrite ToString_driverValue.
Qed.

(** On the values database/sql hands out, [ToString] never fails and
    [ToFloat64] fails only on a byte buffer or a string that [ParseFloat]
    rejects.  A row of such values therefore counts no label error and its
    name always converts: in name/value mode it makes the worker leave
    the job only by a value that does not convert, and it makes the
    worker panic only by a value below zero for a counter. *)
Theorem driver_values_convert :
  (∀ v, driverValue v = true → snd (ToString rev v) = true) ∧
  (∀ v e, driverValue v = true → snd (ToFloat64 rev v) = Some e →
     ∃ s, (v = VBytes s ∨ v = VString s) ∧ is_Some (snd (ParseFloat s))) ∧
  (∀ job row st,
     (∀ c, driverValue (rowGet row c) = true) →
     NameColumn (jobQuery job) ≠ "" →
     let cols := labelColumnsOf job in
     let name := fst (ToString rev (rowGet row (NameColumn (jobQuery job)))) in
     let converted := ToFloat64 rev (rowGet row (ValueColumn (jobQuery job))) in
     labelFailures rev row cols = O ∧
     (snd (rowStep rev job cols row st) = ContinueJobs →
      (Usage (jobMetric job name) = Counter ∨ Usage (jobMetric job name) = Gauge) ∧
      is_Some (snd converted)) ∧
     (snd (rowStep rev job cols row st) = Panic →
      Usage (jobMetric job name) = Counter ∧
      snd converted = None ∧ (fst converted <? 0)%float = true) ∧
     (snd (rowStep rev job cols row st) = Next →
      fst (rowStep rev job cols row st) = st ∨
      ∃ m, fst (rowStep rev job cols row st) = send st m)).
Proof.
  split_and!.
  - apply ToString_driverValue.
  - intros v e Hv. destruct rev, v as [|[]| | | | | | |]; simpl in *;
      try discriminate; try (destruct b; discriminate);
      destruct (ParseFloat s) as [f [pe|]] eqn:Hp; try discriminate;
      intros _; exists s; rewrite Hp; eauto.
  - intros job row st Hrow Hmode cols name converted.
    assert (Hnone : labelFailures rev row cols = O)
      by now apply labelFailures_driver.
    split; [exact Hnone|].
    rewrite rowStep_result, Hnone. simpl. unfold afterLabels.
    rewrite decide_True by assumption. unfold nameValueStep.
    pose proof (ToString_driverValue _ (Hrow (NameColumn (jobQuery job)))) as Hname.
    unfold name, converted.
    destruct (ToString rev _) as [name' ok]; simpl in Hname; subst ok. simpl.
    unfold createMetric, prometheus.counterAdd, prometheus.gaugeAdd.
    destruct (Usage (jobMetric job name'));
      destruct (ToFloat64 rev _) as [val [e|]]; simpl;
      try (destruct (val <? 0)%float eqn:Hneg; simpl);
      split_and!; intros Hflow; try discriminate Hflow; eauto.
Qed.

End Worker.

End worker_facts.

(* ===================================================================== *)
(** * [PgCollector.Describe]                                              *)
(* ===================================================================== *)

Module describe.
Import config db pgcollector collect.

(** A descriptor, by the two arguments [prometheus.NewDesc] is given that
    vary: the fully qualified name and the help text. *)
Record Desc := { fqName : string; help : string }.

(** [var internalMetricsDescriptions]. *)
Definition internalMetricsDescriptions : gmap string string :=
  <[ scrapeDurationMetricName := "Duration of the last scrape of metrics" ]>
  (<[ timeOutsMetricName := "Number of timed out statements" ]>
  {[ errorsNumMetricName := "Number of errors during scraping" ]}).

Section Describe.
Context `{Runtime}.

(** [prometheus.BuildFQName], which the metrics library also applies to
    the options a counter or gauge is created with. *)
Variable BuildFQName : string → string → string → string.
Variable cfg : ConfigInterface.

(** [for metricName, metric := range query.Metrics]. *)
Definition describeQuery (ch : list Desc) (query : Query) : list Desc :=
  foldl (λ ch '(metricName, metric),
           if decide (Usage metric = Label ∨ Usage metric = Discard) then ch
           else ch ++ [ {| fqName := BuildFQName (Name query) "" metricName;
                           help := Description metric |} ])
        ch (rangeOrder (Metrics query)).

(** [func (p *PgCollector) Describe(ch)]: the descriptors sent, in order. *)
Definition Describe : list Desc :=
  let ch :=
    foldl (λ ch dbName,
             let dbConf := Db cfg dbName in
             foldl describeQuery ch (queries dbConf))
          [] (DbList cfg) in
  foldl (λ ch '(name, description),
           ch ++ [ {| fqName := BuildFQName internalMetricsNamespace "" name;
                      help := description |} ])
        ch (rangeOrder internalMetricsDescriptions).

(** The descriptor the library derives for a metric made by [createMetric]
    or by the deferred report. *)
Definition descOf (m : prometheus.Metric) : Desc :=
  {| fqName := BuildFQName (prometheus.Namespace m) "" (prometheus.MetricName m);
     help := prometheus.Help m |}.

End Describe.

End describe.

Module describe_facts.
Import config db pgcollector collect pgcollector_facts worker_facts describe.

Section Describe.
Context `{Runtime}.
Variable BuildFQName : string → string → string → string.
Variable cfg : ConfigInterface.

Lemma elem_of_describeQuery (query : Query) d : ∀ ch,
  d ∈ describeQuery BuildFQName ch query
  ↔ d ∈ ch ∨
    ∃ metricName metric,
      Metrics query !! metricName = Some metric ∧
      (Usage metric = Counter ∨ Usage metric = Gauge) ∧
      d = {| fqName := BuildFQName (Name query) "" metricName;
             help := Description metric |}.
Proof.
  unfold describeQuery.
  assert (Hl : ∀ (l : list (string * config.Metric)) ch,
    d ∈ foldl (λ ch '(metricName, metric),
                 if decide (Usage metric = Label ∨ Usage metric = Discard) then ch
                 else ch ++ [ {| fqName := BuildFQName (Name query) "" metricName;
                                 help := Description metric |} ]) ch l
    ↔ d ∈ ch ∨ ∃ metricName metric,
        (metricName, metric) ∈ l ∧
        (Usage metric = Counter ∨ Usage metric = Gauge) ∧
        d = {| fqName := BuildFQName (Name query) "" metricName;
               help := Description metric |}).
  { induction l as [|[k m] l IH]; intros ch; cbn [foldl].
    - split; [now left|]. intros [?|(? & ? & Hin & _)]; [assumption|].
      now apply elem_of_nil in Hin.
    - rewrite IH. split.
      + intros [Hd|(k' & m' & Hin & Hu & ->)].
        * case_decide as Hskip; [now left|].
          apply elem_of_app in Hd as [Hd|Hd]; [now left|].
          apply list_elem_of_singleton in Hd as ->.
          right. exists k, m. split_and!; [left | | reflexivity].
          destruct (Usage m); tauto.
        * right. exists k', m'. split_and!; [now right | assumption | reflexivity].
      + intros [Hd|(k' & m' & Hin & Hu & ->)].
        * left. case_decide; [assumption | apply elem_of_app; now left].
        * apply elem_of_cons in Hin as [[= -> ->]|Hin].
          -- left. rewrite decide_False by (destruct Hu as [-> | ->]; intros []; discriminate).
             apply elem_of_app. right. now apply list_elem_of_singleton.
          -- right. exists k', m'. auto. }
  intros ch. rewrite Hl. split.
  - intros [?|(k & m & Hin & Hu & ->)]; [now left|].
    right. exists k, m. split_and!; [now apply elem_of_rangeOrder | assumption | reflexivity].
  - intros [?|(k & m & Hin & Hu & ->)]; [now left|].
    right. exists k, m. split_and!; [now apply elem_of_rangeOrder | assumption | reflexivity].
Qed.

Lemma elem_of_describeQueries (qs : list Query) d : ∀ ch,
  d ∈ foldl (describeQuery BuildFQName) ch qs
  ↔ d ∈ ch ∨ ∃ query, query ∈ qs ∧ d ∈ describeQuery BuildFQName [] query.
Proof.
  induction qs as [|q qs IH]; intros ch; cbn [foldl].
  - split; [now left|]. intros [?|(? & Hin & _)]; [assumption|].
    now apply elem_of_nil in Hin.
  - rewrite IH. split.
    + intros [Hd|(q' & Hq' & Hd)].
      * apply elem_of_describeQuery in Hd as [Hd|Hd]; [now left|].
        right. exists q. split; [left|]. apply elem_of_describeQuery. now right.
      * right. exists q'. split; [now right | assumption].
    + intros [Hd|(q' & Hq' & Hd)].
      * left. apply elem_of_describeQuery. now left.
      * apply elem_of_cons in Hq' as [-> |Hq'].
        -- left. apply elem_of_describeQuery.
           apply elem_of_describeQuery in Hd as [Hd|Hd];
             [now apply elem_of_nil in Hd | now right].
        -- right. exists q'. auto.
Qed.

Lemma elem_of_describeTargets (names : list string) d : ∀ ch,
  d ∈ foldl (λ ch dbName, foldl (describeQuery BuildFQName) ch
                            (queries (Db cfg dbName))) ch names
  ↔ d ∈ ch ∨ ∃ dbName query,
      dbName ∈ names ∧ query ∈ queries (Db cfg dbName) ∧
      d ∈ describeQuery BuildFQName [] query.
Proof.
  induction names as [|n names IH]; intros ch; cbn [foldl].
  - split; [now left|]. intros [?|(? & ? & Hin & _)]; [assumption|].
    now apply elem_of_nil in Hin.
  - rewrite IH, elem_of_describeQueries. split.
    + intros [[?|(q & Hq & Hd)]|(n' & q & Hn & Hq & Hd)]; [now left | right | right].
      * exists n, q. split_and!; [left | assumption | assumption].
      * exists n', q. split_and!; [now right | assumption | assumption].
    + intros [?|(n' & q & Hn & Hq & Hd)]; [now left; left|].
      apply elem_of_cons in Hn as [-> |Hn].
      * left. right. exists q. auto.
      * right. exists n', q. auto.
Qed.

Lemma elem_of_describeInternal (l : list (string * string)) d : ∀ ch,
  d ∈ foldl (λ ch '(name, description),
               ch ++ [ {| fqName := BuildFQName internalMetricsNamespace "" name;
                          help := description |} ]) ch l
  ↔ d ∈ ch ∨ ∃ name description,
      (name, description) ∈ l ∧
      d = {| fqName := BuildFQName internalMetricsNamespace "" name;
             help := description |}.
Proof.
  induction l as [|[k v] l IH]; intros ch; cbn [foldl].
  - split; [now left|]. intros [?|(? & ? & Hin & _)]; [assumption|].
    now apply elem_of_nil in Hin.
  - rewrite IH, elem_of_app, list_elem_of_singleton. split.
    + intros [[?| ->]|(k' & v' & Hin & ->)]; [now left | right | right].
      * exists k, v. split; [left | reflexivity].
      * exists k', v'. split; [now right | reflexivity].
    + intros [?|(k' & v' & Hin & ->)]; [now left; left|].
      apply elem_of_cons in Hin as [[= -> ->]|Hin]; [left; now right|].
      right. exists k', v'. auto.
Qed.

Lemma Describe_metric dbName query metricName metric :
  dbName ∈ DbList cfg → query ∈ queries (Db cfg dbName) →
  Metrics query !! metricName = Some metric →
  Usage metric = Counter ∨ Usage metric = Gauge →
  {| fqName := BuildFQName (Name query) "" metricName;
     help := Description metric |} ∈ Describe BuildFQName cfg.
Proof.
  intros Hn Hq Hm Hu. unfold Describe.
  rewrite elem_of_describeInternal, elem_of_describeTargets.
  left. right. exists dbName, query. split_and!; [assumption | assumption |].
  apply elem_of_describeQuery. right. exists metricName, metric. auto.
Qed.

Lemma Describe_internal name description :
  internalMetricsDescriptions !! name = Some description →
  {| fqName := BuildFQName internalMetricsNamespace "" name;
     help := description |} ∈ Describe BuildFQName cfg.
Proof.
  intros Hin. unfold Describe. rewrite elem_of_describeInternal.
  right. exists name, description.
  split; [now apply elem_of_rangeOrder | reflexivity].
Qed.

(** [Describe] sends a descriptor exactly for every counter or gauge of
    every query of every listed target, and for the three internal
    metrics; a label or discard column is never described. *)
Theorem Describe_lists d :
  d ∈ Describe BuildFQName cfg
  ↔ (∃ dbName query metricName metric,
       dbName ∈ DbList cfg ∧ query ∈ queries (Db cfg dbName) ∧
       Metrics query !! metricName = Some metric ∧
       (Usage metric = Counter ∨ Usage metric = Gauge) ∧
       d = {| fqName := BuildFQName (Name query) "" metricName;
              help := Description metric |}) ∨
    (∃ name description,
       internalMetricsDescriptions !! name = Some description ∧
       d = {| fqName := BuildFQName internalMetricsNamespace "" name;
              help := description |}).
Proof.
  unfold Describe. rewrite elem_of_describeInternal, elem_of_describeTargets.
  split.
  - intros [[Hd|(n & q & Hn & Hq & Hd)]|(k & v & Hin & ->)].
    + now apply elem_of_nil in Hd.
    + apply elem_of_describeQuery in Hd as [Hd|(k & m & Hm & Hu & ->)];
        [now apply elem_of_nil in Hd|].
      left. exists n, q, k, m. auto.
    + right. exists k, v. split; [now apply elem_of_rangeOrder | reflexivity].
  - intros [(n & q & k & m & Hn & Hq & Hm & Hu & ->)|(k & v & Hin & ->)].
    + left. right. exists n, q. split_and!; [assumption | assumption |].
      apply elem_of_describeQuery. right. exists k, m. auto.
    + right. exists k, v. split; [now apply elem_of_rangeOrder | reflexivity].
Qed.

Lemma runJob_described rev (conn : DbInterface) (job : workerJob)
    dbName st st' :
  dbName ∈ DbList cfg →
  jobQuery job ∈ queries (Db cfg dbName) →
  runJob rev conn job st = Some st' →
  ∀ m, m ∈ sent st' →
       m ∈ sent st ∨ descOf BuildFQName m ∈ Describe BuildFQName cfg.
Proof.
  intros Hn Hq Hrun m Hm.
  destruct (runJob_declared rev conn job st st' Hrun m Hm)
    as [?|(metric & Hmetric & Hns & Hhelp & Hkind)]; [now left|].
  right. unfold descOf. rewrite Hns, Hhelp.
  apply (Describe_metric dbName (jobQuery job)); try assumption.
  destruct Hkind as [[? _]|[? _]]; auto.
Qed.

End Describe.

End describe_facts.

(* ===================================================================== *)
(** * More properties of the collection cycle                             *)
(* ===================================================================== *)

Module cycle_facts.
Import config db pgcollector collect pgcollector_facts worker_facts.
Import describe describe_facts.

Section Cycle.
Context `{Runtime}.
Variable dial : string → nat → DbInterface + error.
Variable pick : string → nat → nat.
Variable elapsed : float.
Variable cfg : ConfigInterface.

(** ** Provisioning, pgx revision *)

(** The connections a target ends up with: either all the workers it asks
    for, with no error counted, or fewer, with exactly one error counted
    (the loop stops at the first failure).  Nothing is sent, and every
    connection kept was made by [db.New] and, when a statement timeout is
    configured, has accepted it. *)
Theorem pgx_provisioning dbName dbConf n : ∀ i dbs st,
  let r := collect_pgx.connect dial dbName dbConf i n dbs st in
  ((length r.1 = (length dbs + n)%nat ∧ r.2 = st) ∨
   ((length r.1 < length dbs + n)%nat ∧ r.2 = addError st)) ∧
  (∀ conn, conn ∈ r.1 →
     conn ∈ dbs ∨
     ((∃ j, dial dbName j = inl conn) ∧
      (StatementTimeout dbConf ≠ 0 →
       SetStatementTimeout conn (StatementTimeout dbConf) = None))).
Proof.
  induction n as [|n IH]; intros i dbs st; simpl.
  - split; [left; split; [lia | reflexivity] | now left].
  - destruct (dial dbName i) as [conn|e] eqn:Hdial; simpl.
    + destruct (decide (StatementTimeout dbConf ≠ 0)) as [Ht|Ht].
      * destruct (SetStatementTimeout conn (StatementTimeout dbConf)) as [e|] eqn:Hset;
          simpl.
        -- split; [right; split; [lia | reflexivity] | now left].
        -- specialize (IH (S i) (dbs ++ [conn]) st). simpl in IH.
           rewrite length_app in IH. simpl in IH.
           destruct IH as [Hlen Hin]. split.
           ++ destruct Hlen as [[? ?]|[? ?]]; [left | right]; split; (lia || assumption).
           ++ intros conn' Hc. apply Hin in Hc as [Hc|Hc]; [|now right].
              apply elem_of_app in Hc as [Hc|Hc]; [now left|].
              apply list_elem_of_singleton in Hc as ->. right. eauto.
      * specialize (IH (S i) (dbs ++ [conn]) st). simpl in IH.
        rewrite length_app in IH. simpl in IH.
        destruct IH as [Hlen Hin]. split.
        -- destruct Hlen as [[? ?]|[? ?]]; [left | right]; split; (lia || assumption).
        -- intros conn' Hc. apply Hin in Hc as [Hc|Hc]; [|now right].
           apply elem_of_app in Hc as [Hc|Hc]; [now left|].
           apply list_elem_of_singleton in Hc as ->. right.
           split; [eauto | intros; contradiction].
    + split; [right; split; [lia | reflexivity] | now left].
Qed.

(** ** Provisioning, lib/pq revision *)

Definition provisionedState (p : collect_pq.Provisioned) : Scrape :=
  match p with
  | collect_pq.AllUp _ _ _ st | collect_pq.BrokeOut _ _ _ st => st
  end.

Definition provisionedVersions (p : collect_pq.Provisioned)
  : gmap string config.PgVersion :=
  match p with
  | collect_pq.AllUp _ _ pgVersions _ | collect_pq.BrokeOut _ _ pgVersions _ =>
      pgVersions
  end.

Definition provisionedWorkers (p : collect_pq.Provisioned) : list DbInterface :=
  match p with
  | collect_pq.AllUp _ started _ _ | collect_pq.BrokeOut _ started _ _ => started
  end.

(** A version is detected at most once for an instance: when the cache
    already has one for the target's host and port, provisioning leaves
    the cache as it is, whatever the new connections would report and
    whether or not the target asks to skip detection.  The loop either
    starts all its workers with no error counted or breaks off with
    exactly one, and every worker started has accepted the configured
    statement timeout. *)
Theorem pq_provisioning dbName dbConf n : ∀ i dbs started pgVersions st,
  let p := collect_pq.connect dial dbName dbConf i n dbs started pgVersions st in
  (is_Some (pgVersions !! InstanceName dbConf) →
   provisionedVersions p = pgVersions) ∧
  match p with
  | collect_pq.AllUp _ started' pgVersions' st' =>
      st' = st ∧ length started' = (length started + n)%nat ∧
      ((0 < n)%nat → is_Some (pgVersions' !! InstanceName dbConf))
  | collect_pq.BrokeOut _ started' _ st' =>
      st' = addError st ∧ (length started' < length started + n)%nat
  end ∧
  (∀ conn, conn ∈ provisionedWorkers p →
     conn ∈ started ∨
     (StatementTimeout dbConf ≠ 0 →
      SetStatementTimeout conn (StatementTimeout dbConf) = None)).
Proof.
  induction n as [|n IH]; intros i dbs started pgVersions st; simpl.
  - split_and!; [reflexivity | reflexivity | lia | lia | now left].
  - destruct (dial dbName i) as [conn|e]; simpl;
      [|split_and!; [reflexivity | reflexivity | lia | now left]].
    set (detected :=
      match pgVersions !! InstanceName dbConf with
      | Some _ => inl pgVersions
      | None =>
          if SkipVersionDetection dbConf
          then inl (<[InstanceName dbConf := NoVersion]> pgVersions)
          else match PgVersion conn with
               | (_, Some err) => inr err
               | (pgVer, None) => inl (<[InstanceName dbConf := pgVer]> pgVersions)
               end
      end).
    assert (Hdet : match detected with
                   | inl pgv => is_Some (pgv !! InstanceName dbConf) ∧
                                (is_Some (pgVersions !! InstanceName dbConf) →
                                 pgv = pgVersions)
                   | inr _ => pgVersions !! InstanceName dbConf = None
                   end).
    { unfold detected.
      destruct (pgVersions !! InstanceName dbConf) as [v|] eqn:Hv.
      - split; [rewrite Hv; eauto | reflexivity].
      - destruct (SkipVersionDetection dbConf).
        + split; [rewrite lookup_insert_eq; eauto | intros [? [=]]].
        + destruct (PgVersion conn) as [pgVer [err|]]; [reflexivity|].
          split; [rewrite lookup_insert_eq; eauto | intros [? [=]]]. }
    destruct detected as [pgv|err]; simpl.
    + destruct Hdet as [Hsome Hsame].
      destruct (if decide (StatementTimeout dbConf ≠ 0)
                then SetStatementTimeout conn (StatementTimeout dbConf)
                else None) as [e|] eqn:Hset; simpl.
      * split_and!; [assumption | reflexivity | lia | now left].
      * specialize (IH (S i) (<[i := Some conn]> dbs) (started ++ [conn]) pgv st).
        simpl in IH. destruct IH as (Hcache & Hshape & Hset').
        split_and!.
        -- intros Hc. rewrite Hcache by assumption. now apply Hsame.
        -- destruct (collect_pq.connect _ _ _ _ _ _ _ _ _) as [? s' v' t'|? s' v' t'];
             rewrite length_app in Hshape; simpl in Hshape.
           ++ destruct Hshape as (-> & Hlen & Hv). split_and!; [reflexivity | lia|].
              intros _. destruct n as [|n']; [|apply Hv; lia].
              simpl in Hcache. now rewrite (Hcache Hsome).
           ++ destruct Hshape as (-> & Hlen). split; [reflexivity | lia].
        -- intros conn' Hc. apply Hset' in Hc as [Hc|Hc]; [|now right].
           apply elem_of_app in Hc as [Hc|Hc]; [now left|].
           apply list_elem_of_singleton in Hc as ->. right. intros Ht.
           now rewrite decide_True in Hset by assumption.
    + split_and!; [intros [? Hc]; congruence | reflexivity | lia | now left].
Qed.

(** ** Everything a cycle sends has been described *)

Lemma pgx_connect_sent dbName dbConf n : ∀ i dbs st,
  sent (collect_pgx.connect dial dbName dbConf i n dbs st).2 = sent st.
Proof.
  induction n as [|n IH]; intros i dbs st; simpl; [reflexivity|].
  destruct (dial dbName i) as [conn|e]; simpl; [|reflexivity].
  destruct (decide (StatementTimeout dbConf ≠ 0)); [|apply IH].
  destruct (SetStatementTimeout conn _); simpl; [reflexivity | apply IH].
Qed.

Lemma pq_connect_sent dbName dbConf n : ∀ i dbs started pgVersions st,
  sent (provisionedState
          (collect_pq.connect dial dbName dbConf i n dbs started pgVersions st))
  = sent st.
Proof.
  induction n as [|n IH]; intros i dbs started pgVersions st; simpl; [reflexivity|].
  destruct (dial dbName i) as [conn|e]; simpl; [|reflexivity].
  destruct (match pgVersions !! InstanceName dbConf with
            | Some _ => _ | None => _ end) as [pgv|err]; simpl; [|reflexivity].
  destruct (if decide (StatementTimeout dbConf ≠ 0) then _ else _); simpl;
    [reflexivity | apply IH].
Qed.

Variable BuildFQName : string → string → string → string.

Definition allDescribed (st : Scrape) : Prop :=
  ∀ m, m ∈ sent st → descOf BuildFQName m ∈ Describe BuildFQName cfg.

(** The state an outcome leaves the metric channel in. *)
Definition outcomeState (o : Outcome) : option Scrape :=
  match o with
  | Returned st | Stuck st | Fatal st => Some st
  | Panicked => None
  end.

Lemma jobsOf_queries dbConf pgVer :
  Forall (λ job, jobQuery job ∈ queries dbConf) (jobsOf dbConf pgVer).
Proof.
  unfold jobsOf. induction (queries dbConf) as [|q qs IH]; simpl; constructor.
  - simpl. left.
  - eapply Forall_impl; [exact IH|]. intros job Hjob. now right.
Qed.

Lemma runJobs_described rev conns dbName jobs :
  dbName ∈ DbList cfg →
  Forall (λ job, jobQuery job ∈ queries (Db cfg dbName)) jobs →
  ∀ k st st', runJobs pick rev conns dbName k jobs st = Some st' →
              allDescribed st → allDescribed st'.
Proof.
  intros Hn Hjobs. induction Hjobs as [|job jobs Hjob _ IH]; intros k st st'; simpl.
  - now intros [= <-].
  - destruct (conns !! _) as [conn|]; simpl; [|discriminate].
    destruct (runJob rev conn job st) as [st1|] eqn:Hrun; simpl; [|discriminate].
    intros Hrest Hst. apply (IH _ _ _ Hrest).
    intros m Hm.
    destruct (runJob_described BuildFQName cfg rev conn job dbName st st1
                Hn Hjob Hrun m Hm) as [Hold|Hnew]; [now apply Hst | assumption].
Qed.

Lemma report_described st : allDescribed st → allDescribed (report elapsed st).
Proof.
  intros Hst m Hm. unfold report in Hm. simpl in Hm.
  rewrite !elem_of_app, !list_elem_of_singleton in Hm.
  destruct Hm as [[[Hm| ->]| ->]| ->]; [now apply Hst | | |];
    unfold descOf; simpl; now apply Describe_internal.
Qed.

Lemma pgx_dbLoop_described names :
  Forall (λ dbName, dbName ∈ DbList cfg) names →
  ∀ dbPool st dbPool' st',
    collect_pgx.dbLoop dial pick cfg names dbPool st = Some (dbPool', st') →
    allDescribed st → allDescribed st'.
Proof.
  induction 1 as [|dbName names Hn _ IH]; intros dbPool st dbPool' st'; simpl.
  - now intros [= _ <-].
  - unfold collect_pgx.target.
    pose proof (pgx_connect_sent dbName (Db cfg dbName)
                  (Z.to_nat (Workers (Db cfg dbName))) 0 [] st) as Hsent.
    destruct (collect_pgx.connect dial dbName (Db cfg dbName) 0 _ [] st)
      as [dbs st1]; simpl in Hsent.
    destruct dbs as [|conn dbs]; simpl.
    + intros Hloop Hst. apply (IH _ _ _ _ Hloop).
      intros m Hm. apply Hst. now rewrite <- Hsent.
    + destruct (runJobs pick RevPgx (conn :: dbs) dbName 0 _ st1) as [st2|] eqn:Hjobs;
        simpl; [|discriminate].
      intros Hloop Hst. apply (IH _ _ _ _ Hloop).
      apply (runJobs_described _ _ _ _ Hn (jobsOf_queries _ _) _ _ _ Hjobs).
      intros m Hm. apply Hst. now rewrite <- Hsent.
Qed.

Lemma pq_dbLoop_described names :
  Forall (λ dbName, dbName ∈ DbList cfg) names →
  ∀ pgVersions dbPool st,
    allDescribed st →
    match collect_pq.dbLoop dial pick cfg names pgVersions dbPool st with
    | collect_pq.LoopDone _ st' | collect_pq.LoopStuck st' => allDescribed st'
    | collect_pq.LoopPanicked => True
    end.
Proof.
  induction 1 as [|dbName names Hn _ IH]; intros pgVersions dbPool st Hst; simpl.
  - assumption.
  - destruct (Workers (Db cfg dbName) <? 0); [exact I|].
    pose proof (pq_connect_sent dbName (Db cfg dbName)
                  (Z.to_nat (Workers (Db cfg dbName))) 0
                  (replicate (Z.to_nat (Workers (Db cfg dbName))) None) []
                  pgVersions st) as Hsent.
    destruct (collect_pq.connect _ _ _ _ _ _ _ _ _)
      as [dbs started pgv st1|dbs started pgv st1]; simpl in Hsent.
    + assert (Hst1 : allDescribed st1)
        by (intros m Hm; apply Hst; now rewrite <- Hsent).
      destruct started as [|conn started].
      * destruct (jobsOf _ _) as [|job jobs] eqn:Hjobs; [|assumption].
        simpl. now apply IH.
      * destruct (runJobs pick RevPq (conn :: started) dbName 0 _ st1) as [st2|] eqn:Hrun;
          [|exact I].
        apply IH.
        now apply (runJobs_described _ _ _ _ Hn (jobsOf_queries _ _) _ _ _ Hrun).
    + assert (Hst1 : allDescribed st1)
        by (intros m Hm; apply Hst; now rewrite <- Hsent).
      destruct started; exact Hst1.
Qed.

(** Whatever way a cycle ends, every metric it has sent by then, the
    three internal ones included, is one that [Describe] lists for the
    same configuration. *)
Theorem Collect_sends_described o st :
  o = collect_pq.Collect dial pick elapsed cfg ∨
  o = collect_pgx.Collect dial pick elapsed cfg →
  outcomeState o = Some st →
  ∀ m, m ∈ sent st → descOf BuildFQName m ∈ Describe BuildFQName cfg.
Proof.
  assert (Hzero : allDescribed {| timeOuts := 0; errors := 0; sent := [] |})
    by (intros m Hm; now apply elem_of_nil in Hm).
  assert (Hall : Forall (λ dbName, dbName ∈ DbList cfg) (DbList cfg))
    by (apply Forall_forall; auto).
  intros [-> | ->].
  - unfold collect_pq.Collect.
    pose proof (pq_dbLoop_described _ Hall ∅ ∅ _ Hzero) as Hloop.
    destruct (collect_pq.dbLoop _ _ _ _ _ _ _) as [dbPool st'|st'|]; simpl.
    + destruct (closeAll dbPool); intros [= <-];
        [now apply report_described | assumption].
    + now intros [= <-].
    + discriminate.
  - unfold collect_pgx.Collect.
    destruct (collect_pgx.dbLoop _ _ _ _ _ _) as [[dbPool st']|] eqn:Hloop; simpl;
      [|discriminate].
    pose proof (pgx_dbLoop_described _ Hall _ _ _ _ Hloop Hzero) as Hst'.
    destruct (closeAll dbPool); intros [= <-];
      [now apply report_described | assumption].
Qed.

End Cycle.

End cycle_facts.

(* ===================================================================== *)
(** * Loading the configuration (pkg/config/config.go, db.go)             *)
(* ===================================================================== *)

Module loader.
Import config db collect.

(** [type Config struct]. *)
Record Config := { configFile : string; dbs : gmap string DbConfig }.

(** The zero [DbConfig], which a lookup of a missing name yields. *)
Definition zeroDbConfig : DbConfig := {|
  Host := ""; Port := 0; User := ""; Password := ""; Dbname := "";
  Sslmode := ""; QueryFiles := []; Labels := ∅; Workers := 0;
  SkipVersionDetection := false; IsNotPg := false; StatementTimeout := 0;
  queries := []
|}.

Definition setQueryFiles (files : list string) (d : DbConfig) : DbConfig := {|
  Host := Host d; Port := Port d; User := User d; Password := Password d;
  Dbname := Dbname d; Sslmode := Sslmode d; QueryFiles := files;
  Labels := Labels d; Workers := Workers d;
  SkipVersionDetection := SkipVersionDetection d; IsNotPg := IsNotPg d;
  StatementTimeout := StatementTimeout d; queries := queries d
|}.

Definition setQueries (qs : list Query) (d : DbConfig) : DbConfig := {|
  Host := Host d; Port := Port d; User := User d; Password := Password d;
  Dbname := Dbname d; Sslmode := Sslmode d; QueryFiles := QueryFiles d;
  Labels := Labels d; Workers := Workers d;
  SkipVersionDetection := SkipVersionDetection d; IsNotPg := IsNotPg d;
  StatementTimeout := StatementTimeout d; queries := qs
|}.

Definition setWorkers (n : Z) (d : DbConfig) : DbConfig := {|
  Host := Host d; Port := Port d; User := User d; Password := Password d;
  Dbname := Dbname d; Sslmode := Sslmode d; QueryFiles := QueryFiles d;
  Labels := Labels d; Workers := n;
  SkipVersionDetection := SkipVersionDetection d; IsNotPg := IsNotPg d;
  StatementTimeout := StatementTimeout d; queries := queries d
|}.

(** [query.Name = name]. *)
Definition setName (name : string) (q : Query) : Query := {|
  Name := name; Metrics := Metrics q; QVerSQL := QVerSQL q;
  NameColumn := NameColumn q; ValueColumn := ValueColumn q
|}.

(** [func New(filename string) *Config]. *)
Definition New (filename : string) : Config :=
  {| configFile := filename; dbs := ∅ |}.

Section Load.
Context `{Runtime}.

(** The file system and the YAML decoder: what opening and decoding the
    configuration file, or a query file, gives; the error is the one the
    caller returns for it.  [pathDir] is the directory [path.Split] cuts
    off, [pathJoin] is [path.Join]. *)
Variable decodeConfig : string → gmap string DbConfig + error.
Variable decodeQueries : string → gmap string Query + error.
Variable pathDir : string → string.
Variable pathJoin : string → string → string.

(** [for _, queryFile := range d.QueryFiles], with the queries so far. *)
Fixpoint loadFiles (files : list string) (loaded : list Query)
  : list Query + error :=
  match files with
  | [] => inl loaded
  | queryFile :: rest =>
      match decodeQueries queryFile with
      | inr err => inr err
      | inl fileQueries =>
          loadFiles rest
            (foldl (λ loaded '(name, query), loaded ++ [setName name query])
                   loaded (rangeOrder fileQueries))
      end
  end.

(** [func (d *DbConfig) LoadQueries() error]. *)
Definition LoadQueries (d : DbConfig) : DbConfig * option error :=
  match loadFiles (QueryFiles d) [] with
  | inr err => (d, Some err)
  | inl loaded => (setQueries loaded d, None)
  end.

(** [for dbName, db := range dbs] of [Load]: the entries still to visit
    and the map as it stands. *)
Fixpoint loadLoop (configDir : string) (entries : list (string * DbConfig))
    (dbs : gmap string DbConfig) : gmap string DbConfig + error :=
  match entries with
  | [] => inl dbs
  | (dbName, db) :: rest =>
      if decide (length (QueryFiles db) = 0%nat) then loadLoop configDir rest dbs
      else
        let joined := map (pathJoin configDir) (QueryFiles db) in
        let d := setQueryFiles joined (default zeroDbConfig (dbs !! dbName)) in
        match LoadQueries d with
        | (_, Some err) => inr (Errorf "could not load db queries: " err)
        | (d, None) =>
            let d := if decide (Workers d ≤ 0) then setWorkers 1 d else d in
            loadLoop configDir rest (<[dbName := d]> dbs)
        end
  end.

(** [func (c *Config) Load() error]. *)
Definition Load (c : Config) : Config * option error :=
  match decodeConfig (configFile c) with
  | inr err => (c, Some err)
  | inl decoded =>
      match loadLoop (pathDir (configFile c)) (rangeOrder decoded) decoded with
      | inr err => (c, Some err)
      | inl loaded => ({| configFile := configFile c; dbs := loaded |}, None)
      end
  end.

End Load.

Section Lookup.
Context `{Runtime}.

(** [func (c *Config) DbList() []string]. *)
Definition DbList (c : Config) : list string :=
  foldl (λ names '(dbName, _), names ++ [dbName]) [] (rangeOrder (dbs c)).

(** [func (c *Config) Db(dbName string) DbConfig]. *)
Definition Db (c : Config) (dbName : string) : DbConfig :=
  default zeroDbConfig (dbs c !! dbName).

(** A [*Config] behind [ConfigInterface]. *)
Definition asInterface (c : Config) : ConfigInterface :=
  {| collect.DbList := DbList c; collect.Db := Db c |}.

End Lookup.

End loader.

Module loader_facts.
Import config db collect pgcollector_facts loader.

Section Lookup.
Context `{Runtime}.

Lemma DbList_fold {A} (l : list (string * A)) : ∀ acc,
  foldl (λ names '(dbName, _), names ++ [dbName]) acc l = acc ++ l.*1.
Proof.
  induction l as [|[k x] l IH]; intros acc; simpl.
  - now rewrite List.app_nil_r.
  - rewrite IH, <- List.app_assoc. reflexivity.
Qed.

(** [DbList] names every configured target once, in the order the map
    happens to be visited, and nothing else; [Db] gives the zero
    configuration, without workers or queries, for a name that is not
    configured. *)
Theorem DbList_names (c : Config) :
  NoDup (DbList c) ∧
  (∀ name, name ∈ DbList c ↔ is_Some (dbs c !! name)) ∧
  length (DbList c) = size (dbs c) ∧
  (∀ name, name ∉ DbList c → Db c name = zeroDbConfig) ∧
  (∀ name d, dbs c !! name = Some d → Db c name = d).
Proof.
  assert (Hlist : DbList c = (rangeOrder (dbs c)).*1)
    by (unfold DbList; now rewrite DbList_fold).
  assert (Hin : ∀ name, name ∈ DbList c ↔ is_Some (dbs c !! name)).
  { intros name. rewrite Hlist, list_elem_of_fmap. split.
    - intros ([k d] & -> & Hkd). apply elem_of_rangeOrder in Hkd. eauto.
    - intros [d Hd]. exists (name, d). split; [reflexivity|].
      now apply elem_of_rangeOrder. }
  split_and!.
  - rewrite Hlist. apply rangeOrder_NoDup.
  - exact Hin.
  - rewrite Hlist, length_fmap, (rangeOrder_perm _ (dbs c)).
    apply length_map_to_list.
  - intros name Hname. unfold Db.
    destruct (dbs c !! name) as [d|] eqn:Hd; [|reflexivity].
    destruct Hname. apply Hin. eauto.
  - intros name d Hd. unfold Db. now rewrite Hd.
Qed.

End Lookup.

Section Load.
Context `{Runtime}.
Variable decodeConfig : string → gmap string DbConfig + error.
Variable decodeQueries : string → gmap string Query + error.
Variable pathDir : string → string.
Variable pathJoin : string → string → string.

(** The queries one decoded file gives, each under the name of its key. *)
Definition fileEntries (fileQueries : gmap string Query) : list Query :=
  map (λ entry, setName entry.1 entry.2) (rangeOrder fileQueries).

Lemma fileEntries_fold (l : list (string * Query)) : ∀ loaded,
  foldl (λ loaded '(name, query), loaded ++ [setName name query]) loaded l
  = loaded ++ map (λ entry, setName entry.1 entry.2) l.
Proof.
  induction l as [|[k q] l IH]; intros loaded; simpl.
  - now rewrite List.app_nil_r.
  - rewrite IH, <- List.app_assoc. reflexivity.
Qed.

Lemma loadFiles_result files : ∀ loaded,
  match loadFiles decodeQueries files loaded with
  | inl res =>
      ∃ decoded,
        Forall2 (λ file fileQueries, decodeQueries file = inl fileQueries)
                files decoded ∧
        res = loaded ++ concat (map fileEntries decoded)
  | inr err => ∃ file, file ∈ files ∧ decodeQueries file = inr err
  end.
Proof.
  induction files as [|file files IH]; intros loaded; simpl.
  - exists []. split; [constructor | now rewrite List.app_nil_r].
  - destruct (decodeQueries file) as [fileQueries|err] eqn:Hfile.
    + specialize (IH (foldl (λ loaded '(name, query), loaded ++ [setName name query])
                            loaded (rangeOrder fileQueries))).
      destruct (loadFiles decodeQueries files _) as [res|err].
      * destruct IH as (decoded & Hall & ->).
        exists (fileQueries :: decoded). split; [now constructor|].
        rewrite fileEntries_fold. simpl. now rewrite <- List.app_assoc.
      * destruct IH as (f & Hf & Herr). exists f. split; [now right | assumption].
    + exists file. split; [left | assumption].
Qed.

(** [LoadQueries] either reads every query file, and then the target's
    queries are those of the files in the order of the files, each named
    by its key in its file (the same name in two files gives two
    queries); or it returns the error of a file that cannot be read and
    leaves the target as it was. *)
Theorem LoadQueries_result (d : DbConfig) :
  match LoadQueries decodeQueries d with
  | (d', None) =>
      ∃ decoded,
        Forall2 (λ file fileQueries, decodeQueries file = inl fileQueries)
                (QueryFiles d) decoded ∧
        d' = setQueries (concat (map fileEntries decoded)) d ∧
        (∀ q, q ∈ queries d' →
           ∃ fileQueries q0, fileQueries ∈ decoded ∧
             fileQueries !! Name q = Some q0 ∧ q = setName (Name q) q0)
  | (d', Some err) =>
      d' = d ∧ ∃ file, file ∈ QueryFiles d ∧ decodeQueries file = inr err
  end.
Proof.
  unfold LoadQueries.
  pose proof (loadFiles_result (QueryFiles d) []) as Hres.
  destruct (loadFiles decodeQueries (QueryFiles d) []) as [res|err].
  - destruct Hres as (decoded & Hall & ->). exists decoded. simpl.
    split_and!; [assumption | reflexivity|].
    intros q Hq. apply list_elem_of_In, in_concat in Hq as (qs & Hqs & Hq).
    apply in_map_iff in Hqs as (fq & <- & Hfq).
    unfold fileEntries in Hq. apply in_map_iff in Hq as ([k q0] & <- & Hk).
    exists fq, q0. simpl. split_and!.
    + now apply list_elem_of_In.
    + now apply elem_of_rangeOrder, list_elem_of_In.
    + reflexivity.
  - destruct Hres as (f & Hf & Herr). split; [reflexivity|]. eauto.
Qed.

(** ** [Load] *)

(** What [Load] makes of one decoded target: a target without query files
    stays as decoded; one with query files gets its files' paths joined
    to the directory of the configuration file, its queries loaded, and
    a worker count below 1 raised to 1. *)
Definition loadedEntry (configDir : string) (db : DbConfig) : DbConfig + error :=
  if decide (length (QueryFiles db) = 0%nat) then inl db
  else
    let joined := map (pathJoin configDir) (QueryFiles db) in
    match loadFiles decodeQueries joined [] with
    | inr err => inr (Errorf "could not load db queries: " err)
    | inl loaded =>
        let d := setQueries loaded (setQueryFiles joined db) in
        inl (if decide (Workers d ≤ 0) then setWorkers 1 d else d)
    end.

Lemma loadLoop_result configDir (entries : list (string * DbConfig)) :
  NoDup entries.*1 →
  ∀ dbs,
    (∀ k db, (k, db) ∈ entries → dbs !! k = Some db) →
    match loadLoop decodeQueries pathJoin configDir entries dbs with
    | inl res =>
        (∀ name, name ∉ entries.*1 → res !! name = dbs !! name) ∧
        (∀ name db, (name, db) ∈ entries →
           ∃ d, loadedEntry configDir db = inl d ∧ res !! name = Some d)
    | inr err =>
        ∃ name db, (name, db) ∈ entries ∧ loadedEntry configDir db = inr err
    end.
Proof.
  induction entries as [|[k db] entries IH]; intros Hnd dbs Hdbs; simpl.
  - split; [reflexivity|]. intros name db' Hin. now apply elem_of_nil in Hin.
  - apply NoDup_cons in Hnd as [Hk Hnd].
    assert (Hrest : ∀ d k' db', (k', db') ∈ entries →
                      <[k := d]> dbs !! k' = Some db').
    { intros d k' db' Hin. rewrite lookup_insert_ne.
      - apply Hdbs. now right.
      - intros <-. apply Hk, list_elem_of_fmap. now exists (k, db'). }
    destruct (decide (length (QueryFiles db) = 0%nat)) as [Hnone|Hfiles].
    + specialize (IH Hnd dbs (λ k' db' Hin, Hdbs k' db' (list_elem_of_further _ _ _ Hin))).
      destruct (loadLoop _ _ _ _ _) as [res|err].
      * destruct IH as [Hother Hin]. split.
        -- intros name Hname. apply not_elem_of_cons in Hname as [_ Hname].
           now apply Hother.
        -- intros name db' Hmem. apply elem_of_cons in Hmem as [[= -> ->]|Hmem].
           ++ exists db. unfold loadedEntry. rewrite decide_True by assumption.
              split; [reflexivity|]. rewrite Hother by assumption.
              apply Hdbs. left.
           ++ now apply Hin.
      * destruct IH as (name & db' & Hmem & Herr).
        exists name, db'. split; [now right | assumption].
    + rewrite (Hdbs k db) by left. simpl.
      unfold LoadQueries. simpl.
      destruct (loadFiles decodeQueries (map (pathJoin configDir) (QueryFiles db)) [])
        as [loaded|err] eqn:Hload.
      * set (d := if decide (Workers (setQueries loaded
                      (setQueryFiles (map (pathJoin configDir) (QueryFiles db)) db)) ≤ 0)
                  then setWorkers 1 (setQueries loaded
                      (setQueryFiles (map (pathJoin configDir) (QueryFiles db)) db))
                  else setQueries loaded
                      (setQueryFiles (map (pathJoin configDir) (QueryFiles db)) db)).
        specialize (IH Hnd (<[k := d]> dbs) (Hrest d)).
        destruct (loadLoop _ _ _ _ _) as [res|err].
        -- destruct IH as [Hother Hin]. split.
           ++ intros name Hname. apply not_elem_of_cons in Hname as [Hne Hname].
              rewrite Hother by assumption. now apply lookup_insert_ne.
           ++ intros name db' Hmem. apply elem_of_cons in Hmem as [[= -> ->]|Hmem].
              ** exists d. unfold loadedEntry. rewrite decide_False by assumption.
                 rewrite Hload. split; [reflexivity|].
                 rewrite Hother by assumption. apply lookup_insert_eq.
              ** now apply Hin.
        -- destruct IH as (name & db' & Hmem & Herr).
           exists name, db'. split; [now right | assumption].
      * exists k, db. split; [left|].
        unfold loadedEntry. rewrite decide_False by assumption. now rewrite Hload.
Qed.

(** [Load] either fails and leaves the configuration as it was, or
    succeeds with every decoded target, under its name, as [loadedEntry]
    makes it.  After a successful [Load] a target with query files has at
    least one worker; a target without query files keeps the worker count
    it was decoded with, whatever it is. *)
Theorem Load_result (c : Config) :
  match Load decodeConfig decodeQueries pathDir pathJoin c with
  | (c', Some err) => c' = c
  | (c', None) =>
      ∃ decoded,
        decodeConfig (configFile c) = inl decoded ∧
        configFile c' = configFile c ∧
        dom (dbs c') = dom decoded ∧
        (∀ name db, decoded !! name = Some db →
           ∃ d, loadedEntry (pathDir (configFile c)) db = inl d ∧
                dbs c' !! name = Some d) ∧
        (∀ name d, dbs c' !! name = Some d → QueryFiles d ≠ [] → 1 ≤ Workers d)
  end.
Proof.
  unfold Load.
  destruct (decodeConfig (configFile c)) as [decoded|err]; [|reflexivity].
  pose proof (loadLoop_result (pathDir (configFile c)) (rangeOrder decoded)
                (rangeOrder_NoDup decoded) decoded
                (λ k db Hin, proj1 (elem_of_rangeOrder decoded k db) Hin)) as Hloop.
  destruct (loadLoop _ _ _ _ _) as [res|err]; [|reflexivity].
  destruct Hloop as [Hother Hin].
  assert (Hentry : ∀ name db, decoded !! name = Some db →
            ∃ d, loadedEntry (pathDir (configFile c)) db = inl d ∧
                 res !! name = Some d).
  { intros name db Hdb. apply Hin. now apply elem_of_rangeOrder. }
  assert (Hnone : ∀ name, decoded !! name = None → res !! name = None).
  { intros name Hname. rewrite Hother; [assumption|].
    intros Hmem. apply list_elem_of_fmap in Hmem as ([k db] & -> & Hkd).
    apply elem_of_rangeOrder in Hkd. simpl in Hname. congruence. }
  exists decoded. simpl. split_and!; [reflexivity | reflexivity | | assumption |].
  - apply set_eq. intros name. rewrite !elem_of_dom.
    destruct (decoded !! name) as [db|] eqn:Hdb.
    + destruct (Hentry name db Hdb) as (d & _ & ->). split; eauto.
    + rewrite (Hnone name Hdb). reflexivity.
  - intros name d Hd Hfiles.
    destruct (decoded !! name) as [db|] eqn:Hdb;
      [|rewrite (Hnone name Hdb) in Hd; discriminate].
    destruct (Hentry name db Hdb) as (d' & Hd' & Hres).
    assert (d' = d) by congruence. subst d'.
    unfold loadedEntry in Hd'.
    destruct (decide (length (QueryFiles db) = 0%nat)) as [Hnone'|_].
    + injection Hd' as <-. destruct (QueryFiles db); [contradiction | discriminate].
    + destruct (loadFiles _ _ _) as [loaded|err]; [|discriminate].
      injection Hd' as <-. case_decide as Hw; simpl in *; lia.
Qed.

End Load.

End loader_facts.

(* ===================================================================== *)
(** * Workers, Describe and the loader on concrete inputs                 *)
(* ===================================================================== *)

Module scenarios.
Import config db pgcollector collect pgcollector_facts examples.
Import worker_facts describe describe_facts cycle_facts loader loader_facts.

#[local] Existing Instance reference.runtime.

(** A naming function to run the statements on: namespace and name
    joined by an underscore. *)
Definition joinName (namespace subsystem name : string) : string :=
  namespace +:+ "_" +:+ name.

(** ** Workers *)

Lemma sent_metrics_declared_witness :
  workMemGauge ∈ sent zero ∨
  ∃ job, job ∈ [settingsJob] ∧ declared job workMemGauge.
Proof.
  apply (sent_metrics_declared RevPq (connection [workMem] None) [settingsJob] zero
           {| timeOuts := 0; errors := 0; sent := [workMemGauge] |}).
  - vm_compute. reflexivity.
  - apply list_elem_of_here.
Defined.

(** A query in name/value mode with a counter, and a row that reports
    the counter below zero. *)
Definition activityQuery : Query := {|
  Name := "pg_activity";
  Metrics := {[ "xact" := {| Usage := Counter; Description := "Transactions" |} ]};
  QVerSQL := [ {| SQL := "select name, setting from activity";
                  MinVer := 0; MaxVer := 0 |} ];
  NameColumn := "name";
  ValueColumn := "setting"
|}.

Definition activityJob : workerJob :=
  {| jobQuery := activityQuery; dbLabels := staticLabels; pgVersion := 100500 |}.

Definition negativeXact : gmap string Value :=
  <[ "name" := VString "xact" ]> {[ "setting" := VInt Int64 (-1) ]}.

Definition someXact : gmap string Value :=
  <[ "name" := VString "xact" ]> {[ "setting" := VInt Int64 7 ]}.

Lemma named_row_sends_one_witness :
  (∃ m,
     rowStep RevPq settingsJob (labelColumnsOf settingsJob) workMem zero
       = (send (addErrors (labelFailures RevPq workMem (labelColumnsOf settingsJob))
                  zero) m, Next) ∧
     prometheus.Added m = 4096%float) ∧
  rowStep RevPq activityJob (labelColumnsOf activityJob) negativeXact zero
    = (addErrors (labelFailures RevPq negativeXact (labelColumnsOf activityJob)) zero,
       Panic) ∧
  runJob RevPq (connection [negativeXact; someXact] None) activityJob zero = None.
Proof.
  assert (Hprice : ToFloat64 RevPq (rowGet workMem (ValueColumn (jobQuery settingsJob)))
                   = (4096%float, None)) by (vm_compute; reflexivity).
  assert (Hxact : ToFloat64 RevPq (rowGet negativeXact (ValueColumn (jobQuery activityJob)))
                  = ((-1)%float, None)) by (vm_compute; reflexivity).
  pose proof (named_row_sends_one RevPq settingsJob workMem "work_mem"
                {| Usage := Gauge; Description := "Memory for sorts" |}
                4096%float zero ltac:(discriminate) eq_refl eq_refl
                (or_intror eq_refl) Hprice) as Hgauge.
  pose proof (named_row_sends_one RevPq activityJob negativeXact "xact"
                {| Usage := Counter; Description := "Transactions" |}
                (-1)%float zero ltac:(discriminate) eq_refl eq_refl
                (or_introl eq_refl) Hxact) as Hcounter.
  cbv zeta in Hgauge, Hcounter.
  destruct Hgauge as [Hsend _]. destruct Hcounter as [_ Hpanic].
  destruct (Hsend (or_introl eq_refl)) as (m & Hstep & _ & _ & _ & Hadded & _).
  destruct (Hpanic eq_refl eq_refl) as [Hrow Hjob].
  split_and!.
  - exists m. split; assumption.
  - exact Hrow.
  - exact (proj1 (Hjob (connection [negativeXact; someXact] None)
                    "select name, setting from activity" [] [someXact] zero []
                    eq_refl ltac:(discriminate) eq_refl eq_refl)).
Defined.

(** A counter below zero takes the worker down in either mode, before the
    rows and jobs after it are looked at; the same rows with a counter
    that is not below zero end the job at the value that does not
    convert. *)
Example negative_counter_panics :
  runJob RevPq (connection [negativeXact; badName] None) activityJob zero = None ∧
  runJob RevPgx (connection [statRow (VInt Int64 (-5)); statRow (VBytes "n/a")] None)
    statJob zero = None ∧
  worker RevPq (connection [negativeXact] None) [activityJob; settingsJob] zero
    = None ∧
  (λ r, (errors r, length (sent r)))
    <$> runJob RevPq (connection [someXact; badName] None) activityJob zero
    = Some (1, 1%nat).
Proof. split_and!; vm_compute; reflexivity. Qed.

(** A query whose only variant starts at version 11, asked of a server
    of version 10.5. *)
Definition replicationJob : workerJob :=
  {| jobQuery := {| Name := "pg_replication";
                    Metrics := {[ "lag" := {| Usage := Gauge; Description := "Lag" |} ]};
                    QVerSQL := [ {| SQL := "select lag from pg_stat_wal_receiver";
                                    MinVer := 110000; MaxVer := 0 |} ];
                    NameColumn := ""; ValueColumn := "" |};
     dbLabels := staticLabels; pgVersion := 100500 |}.

Lemma unresolved_job_witness :
  runJob RevPq (connection [workMem] None) replicationJob zero = Some (addError zero).
Proof.
  refine (proj1 (unresolved_job RevPq (connection [workMem] None) replicationJob zero)
            _ _).
  - unfold NoVersion. simpl. lia.
  - constructor; [|constructor]. unfold InRange. simpl. lia.
Defined.

Lemma workMem_driver c : driverValue (rowGet workMem c) = true.
Proof.
  unfold rowGet, workMem.
  destruct (decide (c = "name")) as [-> |Hname]; [reflexivity|].
  rewrite lookup_insert_ne by congruence.
  destruct (decide (c = "setting")) as [-> |Hsetting]; [reflexivity|].
  rewrite lookup_singleton_ne by congruence. reflexivity.
Qed.

Lemma driver_values_convert_witness :
  labelFailures RevPq workMem (labelColumnsOf settingsJob) = O.
Proof.
  refine (proj1 (proj2 (proj2 (driver_values_convert RevPq))
                   settingsJob workMem zero workMem_driver _)).
  discriminate.
Defined.

(** ** Describe and Collect *)

Lemma Collect_sends_described_witness :
  descOf joinName workMemGauge ∈ Describe joinName twoTargets.
Proof.
  apply (Collect_sends_described dialSecondOnly firstWorker 0.25%float twoTargets
           joinName
           (collect_pgx.Collect dialSecondOnly firstWorker 0.25%float twoTargets)
           (report 0.25%float
              {| timeOuts := 0; errors := 1; sent := [workMemGauge] |})).
  - right. reflexivity.
  - vm_compute. reflexivity.
  - unfold report, send. simpl. apply list_elem_of_here.
Defined.

Example Describe_twoTargets :
  length (Describe joinName twoTargets) = 7%nat ∧
  {| fqName := "pg_settings_work_mem"; help := "Memory for sorts" |}
    ∈ Describe joinName twoTargets ∧
  {| fqName := "pg_exporter_last_scrape_errors";
     help := "Number of errors during scraping" |}
    ∈ Describe joinName twoTargets.
Proof.
  split_and!.
  - vm_compute. reflexivity.
  - apply (Describe_metric joinName twoTargets "a" settingsQuery "work_mem"
             {| Usage := Gauge; Description := "Memory for sorts" |}).
    + apply list_elem_of_here.
    + apply list_elem_of_here.
    + reflexivity.
    + right. reflexivity.
  - apply (Describe_internal joinName twoTargets errorsNumMetricName). reflexivity.
Qed.

(** ** Loading a configuration *)

(** A configuration file with one target that has a query file and no
    worker count, and one that has neither. *)
Definition decodedTargets : gmap string DbConfig :=
  <[ "main" := setWorkers 0 (setQueries [] (targetConf settingsQuery)) ]>
  {[ "idle" := zeroDbConfig ]}.

Definition decodeConfig (file : string) : gmap string DbConfig + error :=
  if decide (file = "/etc/exporter/config.yaml") then inl decodedTargets
  else inr (ErrorString "could not open config file").

Definition decodeQueries (file : string) : gmap string Query + error :=
  if decide (file = "/etc/exporter/basic.yaml")
  then inl {[ "settings" := settingsQuery ]}
  else inr (ErrorString "could not open file").

Definition pathDir (file : string) : string := "/etc/exporter".

Definition pathJoin (dir file : string) : string := dir +:+ "/" +:+ file.

Definition loaded : Config :=
  Eval vm_compute in
    fst (Load decodeConfig decodeQueries pathDir pathJoin
           (New "/etc/exporter/config.yaml")).

Example Load_example :
  snd (Load decodeConfig decodeQueries pathDir pathJoin
         (New "/etc/exporter/config.yaml")) = None ∧
  Workers (Db loaded "main") = 1 ∧
  QueryFiles (Db loaded "main") = ["/etc/exporter/basic.yaml"] ∧
  Name <$> queries (Db loaded "main") = ["settings"] ∧
  Db loaded "idle" = zeroDbConfig ∧
  DbList loaded ≡ₚ ["main"; "idle"] ∧
  Load decodeConfig decodeQueries pathDir pathJoin (New "/etc/missing.yaml")
    = (New "/etc/missing.yaml", Some (ErrorString "could not open config file")).
Proof.
  split_and!; vm_compute; reflexivity.
Qed.

End scenarios.

(* ===================================================================== *)
(** * Metric definitions in a query file (pkg/config/helpers.go)          *)
(* ===================================================================== *)

Module metrics_yaml.
Import config db.

(** [var columnUsageMapping]. *)
Definition columnUsageMapping : gmap string ColumnUsage :=
  <[ "DISCARD" := Discard ]>
  (<[ "LABEL" := Label ]>
  (<[ "COUNTER" := Counter ]>
  {[ "GAUGE" := Gauge ]})).

(** [func (c *ColumnUsage) UnmarshalYAML(unmarshal)].  [decoded] is the
    string the decoder finds, or nothing when the node is no string: the
    error of [unmarshal(&value)] is dropped and [value] stays empty.  The
    result is the usage [c] points to afterwards, and the error. *)
Definition ColumnUsage_UnmarshalYAML (decoded : option string) (c : ColumnUsage)
  : ColumnUsage * option error :=
  let value := default "" decoded in
  match columnUsageMapping !! value with
  | None => (c, Some (ErrorString ("unknown usage: " +:+ value)))
  | Some cu => (cu, None)
  end.

Section Unmarshal.
Context `{Runtime}.

(** [func (m *Metrics) UnmarshalYAML(unmarshal)].  [decoded] is what
    [unmarshal(&queryMetrics)] gives: the sequence of mappings, or its
    error. *)
Definition Metrics_UnmarshalYAML (decoded : list (gmap string Metric) + error)
    (m : gmap string Metric) : gmap string Metric * option error :=
  match decoded with
  | inr err => (m, Some err)
  | inl queryMetrics =>
      let value :=
        foldl (λ value metrics,
                 foldl (λ value '(name, descr), <[name := descr]> value)
                       value (rangeOrder metrics))
              ∅ queryMetrics in
      (value, None)
  end.

End Unmarshal.

End metrics_yaml.

Module metrics_yaml_facts.
Import config db pgcollector_facts metrics_yaml.

Lemma declarations_union `{Runtime} (l : list (gmap string Metric)) : ∀ acc,
  foldl (λ value metrics,
           foldl (λ value '(name, descr), <[name := descr]> value)
                 value (rangeOrder metrics))
        acc l
  = foldl (λ value metrics, metrics ∪ value) acc l.
Proof.
  induction l as [|ms l IH]; intros acc; simpl; [reflexivity|].
  now rewrite range_assign, IH.
Qed.

Lemma union_fold_none (l : list (gmap string Metric)) name : ∀ acc,
  Forall (λ ms, ms !! name = None) l →
  foldl (λ value metrics, metrics ∪ value) acc l !! name = acc !! name.
Proof.
  induction l as [|ms l IH]; intros acc Hl; simpl; [reflexivity|].
  inversion_clear Hl as [|? ? Hms Hrest].
  rewrite IH by assumption. now apply lookup_union_r.
Qed.

Lemma union_fold_some (l : list (gmap string Metric)) name : ∀ acc,
  is_Some (foldl (λ value metrics, metrics ∪ value) acc l !! name)
  ↔ is_Some (acc !! name) ∨ ∃ ms, ms ∈ l ∧ is_Some (ms !! name).
Proof.
  induction l as [|ms l IH]; intros acc; simpl.
  - split; [now left|]. intros [?|(ms & Hin & _)]; [assumption|].
    now apply elem_of_nil in Hin.
  - rewrite IH, lookup_union_is_Some. split.
    + intros [[Hms|Hacc]|(ms' & Hin & Hsome)].
      * right. exists ms. split; [left | assumption].
      * now left.
      * right. exists ms'. split; [now right | assumption].
    + intros [Hacc|(ms' & Hin & Hsome)].
      * left. now right.
      * apply elem_of_cons in Hin as [-> |Hin]; [left; now left|].
        right. exists ms'. auto.
Qed.

(** The metric definitions of a query are a sequence of mappings.  A name
    defined in several of them keeps the definition of the last mapping
    that has it; a name is defined exactly when some mapping has it; the
    result does not depend on the order in which the mappings are
    visited; and when the sequence cannot be decoded the metrics are left
    as they were. *)
Theorem Metrics_last_definition_wins (R1 R2 : Runtime)
    (queryMetrics : list (gmap string Metric)) (m : gmap string Metric) :
  let value := fst (Metrics_UnmarshalYAML (H := R1) (inl queryMetrics) m) in
  (∀ pre metrics post name descr,
     queryMetrics = pre ++ metrics :: post →
     metrics !! name = Some descr →
     Forall (λ ms, ms !! name = None) post →
     value !! name = Some descr) ∧
  (∀ name, is_Some (value !! name)
           ↔ ∃ ms, ms ∈ queryMetrics ∧ is_Some (ms !! name)) ∧
  Metrics_UnmarshalYAML (H := R2) (inl queryMetrics) m = (value, None) ∧
  (∀ err, Metrics_UnmarshalYAML (H := R1) (inr err) m = (m, Some err)).
Proof.
  simpl. rewrite !declarations_union. split_and!.
  - intros pre metrics post name descr -> Hname Hpost.
    rewrite foldl_app. simpl. rewrite union_fold_none by assumption.
    now apply lookup_union_Some_l.
  - intros name. rewrite union_fold_some. split.
    + intros [[? Hempty]|?]; [|assumption].
      rewrite lookup_empty in Hempty. discriminate.
    + intros ?. now right.
  - reflexivity.
  - reflexivity.
Qed.

(** A usage is accepted exactly in its upper-case spelling; anything else,
    a node that is no string included, is refused as unknown and leaves
    the usage as it was. *)
Example usage_spelling :
  ColumnUsage_UnmarshalYAML (Some "GAUGE") Discard = (Gauge, None) ∧
  ColumnUsage_UnmarshalYAML (Some "gauge") Counter
    = (Counter, Some (ErrorString "unknown usage: gauge")) ∧
  ColumnUsage_UnmarshalYAML None Counter
    = (Counter, Some (ErrorString "unknown usage: ")).
Proof. split_and!; reflexivity. Qed.

Example metrics_redefined :
  let first := {[ "lag" := {| Usage := Gauge; Description := "Lag" |} ]} in
  let second := {[ "lag" := {| Usage := Counter; Description := "Total lag" |} ]} in
  fst (Metrics_UnmarshalYAML (H := reference.runtime) (inl [first; second]) ∅) !! "lag"
  = Some {| Usage := Counter; Description := "Total lag" |}.
Proof. vm_compute. reflexivity. Qed.

End metrics_yaml_facts.

(* ===================================================================== *)
(** * Opening a connection, pgx revision ([db.New])                       *)
(* ===================================================================== *)

Module dialing.
Import config db collect version.

(** What [pgx.Connect] hands back, as far as [New] looks at it: the
    run-time parameters the server announced and the answer to a ping. *)
Record Conn := {
  RuntimeParams : gmap string string;
  Ping : option error
}.

(** [type Db struct]. *)
Record Db := { version : config.PgVersion; db : Conn }.

(** [func New(dbConfig config.DbConfig)], which returns the connection
    or an error.  The second test of
    [err] in the source comes after the first has returned on an error,
    and never holds. *)
Definition New (Connect : DbConfig → Conn + error) (dbConfig : DbConfig)
  : Db + error :=
  match Connect dbConfig with
  | inr err => inr (Errorf "could not init db: " err)
  | inl dbConn =>
      let version :=
        match RuntimeParams dbConn !! "server_version" with
        | Some ver =>
            if negb (IsNotPg dbConfig) then parseVersion RevPgx ver else NoVersion
        | None => NoVersion
        end in
      if negb (IsNotPg dbConfig)
      then match Ping dbConn with
           | Some err => inr (Errorf "could not ping db: " err)
           | None => inl {| db := dbConn; version := version |}
           end
      else inl {| db := dbConn; version := version |}
  end.

(** [func (d *Db) PgVersion() config.PgVersion]. *)
Definition PgVersion (d : Db) : config.PgVersion := version d.

End dialing.

Module dialing_facts.
Import config config_facts db pgcollector collect version version_facts dialing.

(** The version a new connection carries.  It is [NoVersion] for a target
    that is no PostgreSQL and for a server that announces no
    server_version, and else what [ParseVersion] reads from the
    announcement; such a target has answered the ping.  A server whose
    announcement has a character that is neither a digit nor a dot, as
    in "10.5 (Debian 10.5-1)", counts as undetected: every query then
    runs the text of its first variant, whatever the ranges say. *)
Theorem New_server_version (Connect : DbConfig → Conn + error) dbConfig d :
  New Connect dbConfig = inl d →
  Connect dbConfig = inl (db d) ∧
  (IsNotPg dbConfig = true → PgVersion d = NoVersion) ∧
  (RuntimeParams (db d) !! "server_version" = None → PgVersion d = NoVersion) ∧
  (IsNotPg dbConfig = false → Ping (db d) = None) ∧
  (∀ ver, RuntimeParams (db d) !! "server_version" = Some ver →
          IsNotPg dbConfig = false →
          PgVersion d = parseVersion RevPgx ver) ∧
  (∀ ver, RuntimeParams (db d) !! "server_version" = Some ver →
          versionChars ver = false →
          PgVersion d = NoVersion ∧
          ∀ (conn : DbInterface) job e rest,
            fst (db.PgVersion conn) = PgVersion d →
            QVerSQL (jobQuery job) = e :: rest →
            VerSQLs_Query (QVerSQL (jobQuery job)) (jobVersion RevPgx conn job)
            = Some (SQL e)).
Proof.
  unfold New, PgVersion.
  destruct (Connect dbConfig) as [dbConn|err]; [|discriminate].
  assert (Hrejected : ∀ ver, versionChars ver = false →
                        parseVersion RevPgx ver = NoVersion).
  { intros ver Hver. unfold parseVersion.
    destruct (FindStringSubmatch ver) as [g|] eqn:Hm; [|reflexivity].
    apply FindStringSubmatch_chars in Hm. congruence. }
  assert (Hfirst : ∀ (conn : DbInterface) job e rest,
            fst (db.PgVersion conn) = NoVersion →
            QVerSQL (jobQuery job) = e :: rest →
            VerSQLs_Query (QVerSQL (jobQuery job)) (jobVersion RevPgx conn job)
            = Some (SQL e)).
  { intros conn job e rest Hv Hq. unfold jobVersion. rewrite Hv, Hq. reflexivity. }
  destruct (IsNotPg dbConfig); simpl.
  - intros [= <-]. simpl.
    assert (Hnone : match RuntimeParams dbConn !! "server_version" with
                    | Some _ | None => NoVersion
                    end = NoVersion)
      by now destruct (RuntimeParams dbConn !! "server_version").
    split_and!.
    + reflexivity.
    + intros _. exact Hnone.
    + intros _. exact Hnone.
    + discriminate.
    + intros ver _. discriminate.
    + intros ver _ _. split; [exact Hnone|].
      intros conn job e rest Hv. apply Hfirst. now rewrite Hv.
  - destruct (Ping dbConn) as [err|] eqn:Hping; [discriminate|].
    intros [= <-]. simpl. split_and!.
    + reflexivity.
    + discriminate.
    + now intros ->.
    + intros _. exact Hping.
    + now intros ver ->.
    + intros ver Hver Hchars. rewrite Hver.
      split; [now apply Hrejected|].
      intros conn job e rest Hv. apply Hfirst. rewrite Hv. now apply Hrejected.
Qed.

(** A server that announces its version with the name of its package. *)
Definition debian (dbConfig : DbConfig) : Conn + error :=
  inl {| RuntimeParams := {[ "server_version" := "10.5 (Debian 10.5-1)" ]};
         Ping := None |}.

Definition debianConn : Db :=
  {| version := NoVersion;
     db := {| RuntimeParams := {[ "server_version" := "10.5 (Debian 10.5-1)" ]};
              Ping := None |} |}.

(** The connection as the workers see it. *)
Definition debianInterface : DbInterface :=
  {| SetStatementTimeout := λ _, None; Exec := λ _, ([], None);
     db.PgVersion := (PgVersion debianConn, None); Close := None |}.

Definition walJob : workerJob :=
  {| jobQuery := {| Name := "pg_wal"; Metrics := ∅; QVerSQL := exampleVariants;
                    NameColumn := ""; ValueColumn := "" |};
     dbLabels := ∅; pgVersion := 0 |}.

Lemma New_server_version_witness :
  PgVersion debianConn = NoVersion ∧
  VerSQLs_Query (QVerSQL (jobQuery walJob)) (jobVersion RevPgx debianInterface walJob)
  = Some "A".
Proof.
  destruct (New_server_version debian
              {| Host := "localhost"; Port := 5432; User := "postgres";
                 Password := ""; Dbname := "test"; Sslmode := "disable";
                 QueryFiles := []; Labels := ∅; Workers := 1;
                 SkipVersionDetection := false; IsNotPg := false;
                 StatementTimeout := 0; queries := [] |}
              debianConn eq_refl) as (_ & _ & _ & _ & _ & Hsuffix).
  destruct (Hsuffix "10.5 (Debian 10.5-1)" eq_refl eq_refl) as [Hversion Hquery].
  split; [exact Hversion|].
  exact (Hquery debianInterface walJob
           {| SQL := "A"; MinVer := 100000; MaxVer := 0 |}
           [ {| SQL := "B"; MinVer := 90400; MaxVer := 100000 |} ]
           eq_refl eq_refl).
Defined.

End dialing_facts.
